(** * Memory-matching puzzle (round_1/src/game.ts, round_1/src/index.ts)

    A shallow embedding of the puzzle's runtime state machine: deck
    construction, the flip/lock/resolve protocol of [handleFlip], the clock,
    best-time bookkeeping, [softReset], the pending [setTimeout] callbacks and
    the scripted solver [secretSolvePuzzle].

    Conventions of the embedding:
    - JavaScript numbers that hold times are [Z] (milliseconds); counters and
      array positions are [nat].
    - The module-level mutable [state], [cardRefs] and [timerHandle] together
      with the browser's timeout queue and [Date.now()] form the record
      [World]; every source function is a function [World -> World].
    - [Math.random] is an oracle: a list of draws that [shuffle] consumes.
    - DOM text output ([updateTimer], [updateMoves], [updateBest],
      [syncDifficultyPills]) and the particle burst write only to the page
      and are never read back; they are left out. The per-card [dataset]
      labels are kept, since the timeout callbacks write them. *)

From stdpp Require Import gmap strings list.
From Stdlib Require Import ZArith.

Open Scope string_scope.

(** ** Data model *)

Inductive DifficultyKey := chill | zest | inferno.

#[global] Instance DifficultyKey_eq_dec : EqDecision DifficultyKey.
Proof. solve_decision. Defined.

Definition DifficultyKey_to_nat (k : DifficultyKey) : nat :=
  match k with chill => 0 | zest => 1 | inferno => 2 end.

Definition DifficultyKey_of_nat (n : nat) : option DifficultyKey :=
  match n with
  | 0 => Some chill
  | 1 => Some zest
  | 2 => Some inferno
  | _ => None
  end.

#[global] Instance DifficultyKey_countable : Countable DifficultyKey.
Proof.
  apply (inj_countable DifficultyKey_to_nat DifficultyKey_of_nat).
  intros []; reflexivity.
Defined.

Inductive CardState := Idle | Flipped | Matched.

Inductive Mood := Good | Bad.

Record DifficultyConfig := {
  key : DifficultyKey;
  emoji : string;
  pairs : nat;
  cols : nat;
  cardAura : string;
  pool : list string
}.

Definition difficulties (k : DifficultyKey) : DifficultyConfig :=
  match k with
  | chill =>
      {| key := chill; emoji := "🙂"; pairs := 6; cols := 4;
         cardAura := "from-yellow-200/50 via-amber-200/40 to-orange-200/40";
         pool := ["🍉"; "🍋"; "🍇"; "🍊"; "🍓"; "🍍"; "🥝"; "🍒"; "🍑"; "🍈"] |}
  | zest =>
      {| key := zest; emoji := "🥶"; pairs := 8; cols := 4;
         cardAura := "from-orange-400/40 via-amber-500/35 to-rose-400/30";
         pool := ["💎"; "🔷"; "🔹"; "🔵"; "🌀"; "💠"; "🔮"; "🪬"; "🔭"; "🧿"] |}
  | inferno =>
      {| key := inferno; emoji := "💀"; pairs := 12; cols := 6;
         cardAura := "from-rose-700/40 via-red-700/35 to-fuchsia-700/30";
         pool := ["🔵"; "🔹"; "🔘"; "⚫️"; "⚪️"; "🔴"; "🟠"; "🟡"; "🟢"; "🟣";
                  "🔷"; "🔶"; "🟦"; "🟥"; "🟧"; "🟪"; "🔳"; "🔲"; "◼️"; "◻️";
                  "▪️"; "▫️"; "◽️"; "◾️"] |}
  end.

Record GameState := {
  difficulty : DifficultyKey;
  deck : list string;
  matched : list nat;
  moves : nat;
  elapsedMs : Z;
  runningSince : option Z;
  bestTimes : gmap DifficultyKey Z;
  flipped : list nat;
  locked : bool;
  victory : bool
}.

Definition FLIP_DURATION : Z := 650%Z.
Definition MISMATCH_RESET_DELAY : Z := (FLIP_DURATION + 900)%Z.
Definition WAIT_AFTER_MATCH : Z := (FLIP_DURATION + 300)%Z.

(** ** index.ts: shuffle *)

(** The next value of the random oracle; an exhausted oracle keeps
    answering 0. *)
Definition draw (rnd : list nat) : nat * list nat :=
  match rnd with
  | [] => (0, [])
  | r :: rnd' => (r, rnd')
  end.

(** [temp = arr[i]; arr[i] = arr[j]; arr[j] = temp]. The loop of [shuffle]
    only calls it with [j <= i < arr.length]; outside that range the source
    would store [undefined], which the loop never does. *)
Definition swap {T} (arr : list T) (i j : nat) : list T :=
  match arr !! i, arr !! j with
  | Some temp, Some aj => <[j := temp]> (<[i := aj]> arr)
  | _, _ => arr
  end.

(** [for (let i = arr.length - 1; i > 0; i -= 1)]; [Math.floor(Math.random()
    * (i + 1))] is some integer of [0..i], here the draw reduced modulo
    [i + 1]. *)
Fixpoint shuffle_loop {T} (i : nat) (arr : list T) (rnd : list nat)
  : list T * list nat :=
  match i with
  | 0 => (arr, rnd)
  | S i' =>
      let '(r, rnd') := draw rnd in
      let j := r mod (i + 1) in
      shuffle_loop i' (swap arr i j) rnd'
  end.

Definition shuffle {T} (input : list T) (rnd : list nat) : list T * list nat :=
  shuffle_loop (length input - 1) input rnd.

(** ** game.ts: deck construction *)

Definition buildDeck (config : DifficultyConfig) (rnd : list nat)
  : list string * list nat :=
  let '(shuffled, rnd1) := shuffle (pool config) rnd in
  let picks := take (pairs config) shuffled in
  shuffle (flat_map (λ symbol, [symbol; symbol]) picks) rnd1.

Definition defaultDifficulty : DifficultyKey := chill.

Definition createInitialState (rnd : list nat) : GameState :=
  let initialConfig := difficulties defaultDifficulty in
  {| difficulty := defaultDifficulty;
     deck := fst (buildDeck initialConfig rnd);
     matched := [];
     moves := 0;
     elapsedMs := 0%Z;
     runningSince := None;
     bestTimes := ∅;
     flipped := [];
     locked := false;
     victory := false |}.

(** ** The page: cards, pending callbacks, the clock *)

(** One entry of [cardRefs]: the [dataset.state] and [dataset.feedback]
    labels of a card button. A freshly created card has neither. *)
Record Card := {
  dataState : option CardState;
  dataFeedback : option Mood
}.

Definition freshCard : Card := {| dataState := None; dataFeedback := None |}.

(** The closures handed to [setTimeout] (and [requestAnimationFrame]). *)
Inductive Callback :=
  | CbFlash (indices : list nat) (mood : Mood) (duration : Z)
      (* () => flashFeedback(indices, mood, duration) *)
  | CbFlashEnd (indices : list nat) (mood : Mood)
      (* the timeout armed inside flashFeedback *)
  | CbMismatchReset (indices : list nat)
      (* the second timeout of queueMismatchReset *)
  | CbMarkMatched (indices : list nat).
      (* () => indices.forEach(i => setCardVisualState(i, 'matched')) *)

(** [timerHandle] holds the due time of the next [setInterval] tick;
    [timeouts] is the queue of armed timeouts with their due times, in the
    order they were armed; [now] is [Date.now()]. *)
Record World := {
  state : GameState;
  cardRefs : list Card;
  timerHandle : option Z;
  timeouts : list (Z * Callback);
  now : Z
}.

Definition upd_state (f : GameState → GameState) (w : World) : World :=
  {| state := f (state w); cardRefs := cardRefs w;
     timerHandle := timerHandle w; timeouts := timeouts w; now := now w |}.

Definition set_cardRefs (cs : list Card) (w : World) : World :=
  {| state := state w; cardRefs := cs;
     timerHandle := timerHandle w; timeouts := timeouts w; now := now w |}.

Definition set_timerHandle (h : option Z) (w : World) : World :=
  {| state := state w; cardRefs := cardRefs w;
     timerHandle := h; timeouts := timeouts w; now := now w |}.

Definition set_timeouts (q : list (Z * Callback)) (w : World) : World :=
  {| state := state w; cardRefs := cardRefs w;
     timerHandle := timerHandle w; timeouts := q; now := now w |}.

Definition set_now (t : Z) (w : World) : World :=
  {| state := state w; cardRefs := cardRefs w;
     timerHandle := timerHandle w; timeouts := timeouts w; now := t |}.

Definition set_difficulty (v : DifficultyKey) (s : GameState) : GameState :=
  {| difficulty := v; deck := deck s; matched := matched s; moves := moves s;
     elapsedMs := elapsedMs s; runningSince := runningSince s;
     bestTimes := bestTimes s; flipped := flipped s; locked := locked s;
     victory := victory s |}.

Definition set_deck (v : list string) (s : GameState) : GameState :=
  {| difficulty := difficulty s; deck := v; matched := matched s;
     moves := moves s; elapsedMs := elapsedMs s;
     runningSince := runningSince s; bestTimes := bestTimes s;
     flipped := flipped s; locked := locked s; victory := victory s |}.

Definition set_matched (v : list nat) (s : GameState) : GameState :=
  {| difficulty := difficulty s; deck := deck s; matched := v;
     moves := moves s; elapsedMs := elapsedMs s;
     runningSince := runningSince s; bestTimes := bestTimes s;
     flipped := flipped s; locked := locked s; victory := victory s |}.

Definition set_moves (v : nat) (s : GameState) : GameState :=
  {| difficulty := difficulty s; deck := deck s; matched := matched s;
     moves := v; elapsedMs := elapsedMs s; runningSince := runningSince s;
     bestTimes := bestTimes s; flipped := flipped s; locked := locked s;
     victory := victory s |}.

Definition set_elapsedMs (v : Z) (s : GameState) : GameState :=
  {| difficulty := difficulty s; deck := deck s; matched := matched s;
     moves := moves s; elapsedMs := v; runningSince := runningSince s;
     bestTimes := bestTimes s; flipped := flipped s; locked := locked s;
     victory := victory s |}.

Definition set_runningSince (v : option Z) (s : GameState) : GameState :=
  {| difficulty := difficulty s; deck := deck s; matched := matched s;
     moves := moves s; elapsedMs := elapsedMs s; runningSince := v;
     bestTimes := bestTimes s; flipped := flipped s; locked := locked s;
     victory := victory s |}.

Definition set_bestTimes (v : gmap DifficultyKey Z) (s : GameState)
  : GameState :=
  {| difficulty := difficulty s; deck := deck s; matched := matched s;
     moves := moves s; elapsedMs := elapsedMs s;
     runningSince := runningSince s; bestTimes := v; flipped := flipped s;
     locked := locked s; victory := victory s |}.

Definition set_flipped (v : list nat) (s : GameState) : GameState :=
  {| difficulty := difficulty s; deck := deck s; matched := matched s;
     moves := moves s; elapsedMs := elapsedMs s;
     runningSince := runningSince s; bestTimes := bestTimes s; flipped := v;
     locked := locked s; victory := victory s |}.

Definition set_locked (v : bool) (s : GameState) : GameState :=
  {| difficulty := difficulty s; deck := deck s; matched := matched s;
     moves := moves s; elapsedMs := elapsedMs s;
     runningSince := runningSince s; bestTimes := bestTimes s;
     flipped := flipped s; locked := v; victory := victory s |}.

Definition set_victory (v : bool) (s : GameState) : GameState :=
  {| difficulty := difficulty s; deck := deck s; matched := matched s;
     moves := moves s; elapsedMs := elapsedMs s;
     runningSince := runningSince s; bestTimes := bestTimes s;
     flipped := flipped s; locked := locked s; victory := v |}.

(** [window.setTimeout(cb, delay)] *)
Definition setTimeout (cb : Callback) (delay : Z) (w : World) : World :=
  set_timeouts (timeouts w ++ [((now w + delay)%Z, cb)]) w.

(** [indices.forEach(f)] over a world transformer. *)
Definition forEach {A} (f : A → World → World) (l : list A) (w : World)
  : World :=
  fold_left (λ acc x, f x acc) l w.

(** A missing card ([!card]) makes both setters return at once, which is
    what [alter] does out of range. *)
Definition setFeedback (index : nat) (mood : option Mood) (w : World)
  : World :=
  set_cardRefs
    (alter (λ c, {| dataState := dataState c; dataFeedback := mood |})
           index (cardRefs w)) w.

Definition setCardVisualState (index : nat) (next : CardState) (w : World)
  : World :=
  set_cardRefs
    (alter (λ c, {| dataState := Some next; dataFeedback := dataFeedback c |})
           index (cardRefs w)) w.

Definition flashFeedback (indices : list nat) (mood : Mood) (duration : Z)
  (w : World) : World :=
  setTimeout (CbFlashEnd indices mood) duration
    (forEach (λ idx, setFeedback idx (Some mood)) indices w).

(** The body of the timeout inside [flashFeedback]: a good pulse stays on a
    card that is displayed as matched. *)
Definition flashFeedbackEnd (indices : list nat) (mood : Mood) (w : World)
  : World :=
  forEach
    (λ idx w',
       match cardRefs w' !! idx with
       | None => w'
       | Some card =>
           match mood, dataState card with
           | Good, Some Matched => w'
           | _, _ => setFeedback idx None w'
           end
       end) indices w.

(** ** The clock *)

Definition tickTimer (w : World) : World :=
  match runningSince (state w) with
  | None => w
  | Some since => upd_state (set_elapsedMs (now w - since)%Z) w
  end.

Definition startTimer (preserveAnchor : bool) (w : World) : World :=
  if bool_decide (runningSince (state w) ≠ None) && negb preserveAnchor
  then w
  else
    let w1 :=
      if preserveAnchor then w
      else upd_state (set_elapsedMs 0%Z)
             (upd_state (set_runningSince (Some (now w))) w) in
    let w2 := set_timerHandle None w1 in
    let w3 := tickTimer w2 in
    set_timerHandle (Some (now w3 + 400)%Z) w3.

Definition stopTimer (w : World) : World :=
  let w1 := set_timerHandle None w in
  let w2 :=
    match runningSince (state w1) with
    | Some since => upd_state (set_elapsedMs (now w1 - since)%Z) w1
    | None => w1
    end in
  upd_state (set_runningSince None) w2.

(** ** The mismatch window *)

Definition queueMismatchReset (indices : list nat) (w : World) : World :=
  let w1 := upd_state (set_locked true) w in
  let w2 := setTimeout (CbFlash indices Bad 800%Z) FLIP_DURATION w1 in
  setTimeout (CbMismatchReset indices) MISMATCH_RESET_DELAY w2.

(** The body of the second timeout of [queueMismatchReset]. *)
Definition mismatchReset (indices : list nat) (w : World) : World :=
  let w1 := forEach (λ idx, setCardVisualState idx Idle) indices w in
  let w2 := forEach (λ idx, setFeedback idx None) indices w1 in
  upd_state (set_locked false) (upd_state (set_flipped []) w2).

Definition runCallback (cb : Callback) (w : World) : World :=
  match cb with
  | CbFlash indices mood duration => flashFeedback indices mood duration w
  | CbFlashEnd indices mood => flashFeedbackEnd indices mood w
  | CbMismatchReset indices => mismatchReset indices w
  | CbMarkMatched indices =>
      forEach (λ idx, setCardVisualState idx Matched) indices w
  end.

(** ** Victory and best times *)

(** [!previousBest]: JavaScript negation of [number | undefined], true for
    a missing entry and for the number 0. *)
Definition falsy_number (v : option Z) : bool :=
  match v with
  | None => true
  | Some n => bool_decide (n = 0%Z)
  end.

Definition handleWin (w : World) : World :=
  let w1 := upd_state (set_victory true) w in
  let w2 := stopTimer w1 in
  let duration := elapsedMs (state w2) in
  let previousBest := bestTimes (state w2) !! difficulty (state w2) in
  if falsy_number previousBest
     || bool_decide (duration < default 0 previousBest)%Z
  then upd_state
         (λ s, set_bestTimes (<[difficulty s := duration]> (bestTimes s)) s)
         w2
  else w2.

Definition checkVictory (w : World) : World :=
  if bool_decide (length (matched (state w)) = length (deck (state w)))
     && negb (victory (state w))
  then handleWin w
  else w.

(** ** The reveal protocol *)

(** [!symbol] for [string | undefined]: true for [undefined] (a position
    outside the deck) and for the empty string. *)
Definition falsy_symbol (v : option string) : bool :=
  match v with
  | None => true
  | Some s => bool_decide (s = "")
  end.

(** The two early returns at the top of [handleFlip]. *)
Definition rejected (index : nat) (s : GameState) : bool :=
  (locked s || victory s)
  || (bool_decide (index ∈ flipped s) || bool_decide (index ∈ matched s)).

Definition handleFlip (index : nat) (w : World) : World :=
  if locked (state w) || victory (state w) then w
  else if bool_decide (index ∈ flipped (state w))
          || bool_decide (index ∈ matched (state w)) then w
  else
    let w1 :=
      match runningSince (state w) with
      | None => startTimer false w
      | Some _ => w
      end in
    let w2 := upd_state (λ s, set_flipped (flipped s ++ [index]) s) w1 in
    let w3 := setCardVisualState index Flipped w2 in
    if bool_decide (length (flipped (state w3)) = 2) then
      let w4 := upd_state (λ s, set_moves (moves s + 1) s) w3 in
      match flipped (state w4) with
      | [first; second] =>
          let firstSymbol := deck (state w4) !! first in
          let secondSymbol := deck (state w4) !! second in
          if falsy_symbol firstSymbol || falsy_symbol secondSymbol then
            upd_state (set_locked false) (upd_state (set_flipped []) w4)
          else if bool_decide (firstSymbol = secondSymbol) then
            let w5 :=
              upd_state (λ s, set_matched (matched s ++ [first; second]) s)
                        w4 in
            let w6 := setTimeout (CbMarkMatched [first; second]) 250%Z w5 in
            let w7 :=
              setTimeout (CbFlash [first; second] Good 2000%Z)
                         FLIP_DURATION w6 in
            let w8 := upd_state (set_flipped []) w7 in
            checkVictory w8
          else queueMismatchReset [first; second] w4
      | _ => w4
      end
    else w3.

(** ** Board and reset *)

(** [rebuildBoard]: one fresh card per deck position; a position already in
    [matched] gets its label on the next animation frame. *)
Definition rebuildBoard (w : World) : World :=
  let w1 := set_cardRefs [] w in
  forEach
    (λ index w',
       let w'' := set_cardRefs (cardRefs w' ++ [freshCard]) w' in
       if bool_decide (index ∈ matched (state w''))
       then setTimeout (CbMarkMatched [index]) 0%Z w''
       else w'')
    (seq 0 (length (deck (state w)))) w1.

Definition softReset (level : DifficultyKey) (rnd : list nat) (w : World)
  : World :=
  let config := difficulties level in
  let w1 := stopTimer w in
  let w2 := upd_state (set_difficulty level) w1 in
  let w3 := upd_state (set_deck (fst (buildDeck config rnd))) w2 in
  let w4 := upd_state (set_matched []) w3 in
  let w5 := upd_state (set_moves 0) w4 in
  let w6 := upd_state (set_elapsedMs 0%Z) w5 in
  let w7 := upd_state (set_runningSince None) w6 in
  let w8 := upd_state (set_flipped []) w7 in
  let w9 := upd_state (set_locked false) w8 in
  let w10 := upd_state (set_victory false) w9 in
  rebuildBoard w10.

(** Module initialisation: [createInitialState], then [rebuildBoard], on a
    page loaded at time [t0]. *)
Definition initialWorld (rnd : list nat) (t0 : Z) : World :=
  rebuildBoard
    {| state := createInitialState rnd; cardRefs := [];
       timerHandle := None; timeouts := []; now := t0 |}.

(** ** Events *)

(** What can happen to the page: a click on card [index] (every card of the
    board carries the listener [() => handleFlip(index)]), a reset through
    the reset button or a difficulty pill, the passage of time, an armed
    timeout that is due running, and a due tick of the interval. A timeout
    or tick that is not due, and a click on a card that does not exist,
    do nothing. *)
Inductive Event :=
  | EClick (index : nat)
  | EReset (level : DifficultyKey) (rnd : list nat)
  | EElapse (dt : N)
  | EFire (k : nat)
  | ETick.

Definition fireTimeout (k : nat) (w : World) : World :=
  match timeouts w !! k with
  | Some (due, cb) =>
      if bool_decide (due ≤ now w)%Z
      then runCallback cb (set_timeouts (delete k (timeouts w)) w)
      else w
  | None => w
  end.

Definition fireTick (w : World) : World :=
  match timerHandle w with
  | Some due =>
      if bool_decide (due ≤ now w)%Z
      then tickTimer (set_timerHandle (Some (due + 400)%Z) w)
      else w
  | None => w
  end.

Definition step (e : Event) (w : World) : World :=
  match e with
  | EClick index =>
      if bool_decide (index < length (cardRefs w)) then handleFlip index w
      else w
  | EReset level rnd => softReset level rnd w
  | EElapse dt => set_now (now w + Z.of_N dt)%Z w
  | EFire k => fireTimeout k w
  | ETick => fireTick w
  end.

Definition run (evs : list Event) (w : World) : World :=
  fold_left (λ acc e, step e acc) evs w.

(** ** The scripted solver *)

(** [buckets] is a [Map<string, number[]>]; a [Map] iterates in insertion
    order of its keys, so it is an association list here.
    [group = buckets.get(symbol) ?? []; group.push(index);
     buckets.set(symbol, group)] *)
Fixpoint bucket_push (symbol : string) (index : nat)
  (buckets : list (string * list nat)) : list (string * list nat) :=
  match buckets with
  | [] => [(symbol, [index])]
  | (s, group) :: rest =>
      if bool_decide (s = symbol) then (s, (group ++ [index])%list) :: rest
      else (s, group) :: bucket_push symbol index rest
  end.

(** [for (const group of buckets.values()) if (group.length >= 2) return
    [group[0], group[1]]] *)
Fixpoint first_pair (buckets : list (string * list nat))
  : option (nat * nat) :=
  match buckets with
  | [] => None
  | (_, a :: b :: _) :: _ => Some (a, b)
  | _ :: rest => first_pair rest
  end.

Definition collect_buckets (s : GameState) : list (string * list nat) :=
  fold_left
    (λ buckets '(index, symbol),
       if bool_decide (index ∈ matched s) then buckets
       else bucket_push symbol index buckets)
    (imap (λ index symbol, (index, symbol)) (deck s)) [].

Definition pickNextPair (s : GameState) : option (nat * nat) :=
  first_pair (collect_buckets s).

(** *** Waiting

    [await sleep(duration)] suspends the solver until its own timeout runs;
    every callback that is due by then runs first, at its due time, in
    the order of the due times (armed first, first run; a tick that is due
    at the same instant as a timeout runs after it). The order among
    callbacks of one instant only concerns the display labels. *)

Inductive Due :=
  | DueTimeout (k : nat) (due : Z)
  | DueTick (due : Z).

(** Position and due time of the timeout that runs next. *)
Fixpoint earliest (q : list (Z * Callback)) : option (nat * Z) :=
  match q with
  | [] => None
  | (due, _) :: q' =>
      match earliest q' with
      | Some (k, d) =>
          if bool_decide (d < due)%Z then Some (S k, d) else Some (0, due)
      | None => Some (0, due)
      end
  end.

Definition next_due (target : Z) (w : World) : option Due :=
  let timeout :=
    match earliest (timeouts w) with
    | Some (k, d) => if bool_decide (d ≤ target)%Z then Some (k, d) else None
    | None => None
    end in
  let tick :=
    match timerHandle w with
    | Some h => if bool_decide (h ≤ target)%Z then Some h else None
    | None => None
    end in
  match timeout, tick with
  | Some (k, d), Some h =>
      if bool_decide (d ≤ h)%Z then Some (DueTimeout k d)
      else Some (DueTick h)
  | Some (k, d), None => Some (DueTimeout k d)
  | None, Some h => Some (DueTick h)
  | None, None => None
  end.

Definition fire_due (d : Due) (w : World) : World :=
  match d with
  | DueTimeout k due => fireTimeout k (set_now (now w `max` due)%Z w)
  | DueTick due => fireTick (set_now (now w `max` due)%Z w)
  end.

(** Runs the due callbacks up to [target]; [None] when [fuel] callbacks
    were not enough. *)
Fixpoint sleep_loop (fuel : nat) (target : Z) (w : World) : option World :=
  match next_due target w with
  | None => Some (set_now (now w `max` target)%Z w)
  | Some d =>
      match fuel with
      | 0 => None
      | S fuel' => sleep_loop fuel' target (fire_due d w)
      end
  end.

(** A bound on the callbacks that can run before [target]: a flash arms one
    more timeout, the interval ticks every 400 ms. *)
Definition callback_weight (cb : Callback) : nat :=
  match cb with
  | CbFlash _ _ _ => 2
  | _ => 1
  end.

Definition ticks_before (target : Z) (h : option Z) : nat :=
  match h with
  | Some due =>
      if bool_decide (due ≤ target)%Z
      then S (Z.to_nat ((target - due) / 400))
      else 0
  | None => 0
  end.

Definition sleep_fuel (target : Z) (w : World) : nat :=
  sum_list_with (λ p, callback_weight p.2) (timeouts w)
  + ticks_before target (timerHandle w).

Definition sleep (duration : Z) (w : World) : option World :=
  let target := (now w + duration)%Z in
  sleep_loop (sleep_fuel target w) target w.

(** [firstCard.click()] runs the card's listener, [handleFlip(first)]. *)
Definition flipPairAutomatically (first second : nat) (w : World)
  : option World :=
  match cardRefs w !! first, cardRefs w !! second with
  | Some _, Some _ =>
      w1 ← sleep (FLIP_DURATION + 120)%Z (handleFlip first w);
      sleep WAIT_AFTER_MATCH (handleFlip second w1)
  | _, _ => Some w
  end.

(** The [while (!state.victory && guard < 200)] loop. Waiting out a lock
    does not advance [guard], so the loop is bounded by [fuel] rounds;
    [None] when they were not enough. *)
Fixpoint solver_loop (fuel : nat) (guard : nat) (w : World) : option World :=
  match fuel with
  | 0 => None
  | S fuel' =>
      if negb (victory (state w)) && bool_decide (guard < 200) then
        if locked (state w) then
          w1 ← sleep FLIP_DURATION w; solver_loop fuel' guard w1
        else
          match pickNextPair (state w) with
          | None => Some w
          | Some (first, second) =>
              w1 ← flipPairAutomatically first second w;
              solver_loop fuel' (guard + 1) w1
          end
      else Some w
  end.

Definition secretSolvePuzzle (fuel : nat) (w : World) : option World :=
  if victory (state w) then Some w else solver_loop fuel 0 w.

(** ** Sample worlds *)

Definition sample_deck : list string :=
  ["a"; "a"; "b"; "b"; "c"; "c"; "d"; "d"; "e"; "e"; "f"; "f"].

Definition sample_world : World :=
  rebuildBoard
    {| state := set_deck sample_deck (createInitialState []);
       cardRefs := []; timerHandle := None; timeouts := []; now := 0%Z |}.

(** ** Specification vocabulary *)

(** How often [symbol] occurs in a deck. *)
Definition occurrences (symbol : string) (l : list string) : nat :=
  length (filter (λ x, x = symbol) l).

(** How a call [handleFlip(index)] relates to the two-card turn: it is
    rejected by one of the four guards, or it completes a turn (the push
    brings the flip buffer to size 2), or it leaves the turn open. *)
Inductive RevealKind := RevealRejected | RevealCompletesTurn | RevealOpensTurn.

Definition reveal_kind (index : nat) (s : GameState) : RevealKind :=
  if rejected index s then RevealRejected
  else if bool_decide (length (flipped s ++ [index]) = 2)
       then RevealCompletesTurn
       else RevealOpensTurn.

(** The matched set grows in pairs and [victory] tracks a full board. *)
Definition victory_tracks (s : GameState) : Prop :=
  Nat.Even (length (matched s))
  ∧ victory s = bool_decide (length (matched s) = length (deck s)).

(** The world in the middle of an accepted [handleFlip(index)], after the
    clock was started if need be, the index pushed and the card shown. *)
Definition revealed (index : nat) (w : World) : World :=
  setCardVisualState index Flipped
    (upd_state (λ s, set_flipped (flipped s ++ [index]) s)
       match runningSince (state w) with
       | None => startTimer false w
       | Some _ => w
       end).

(** [state.moves += 1] *)
Definition count_move (w : World) : World :=
  upd_state (λ s, set_moves (moves s + 1) s) w.

(** The armed callbacks that end a mismatch window. *)
Definition is_mismatch_reset (p : Z * Callback) : Prop :=
  match p.2 with
  | CbMismatchReset _ => True
  | _ => False
  end.

#[global] Instance is_mismatch_reset_dec p : Decision (is_mismatch_reset p).
Proof. destruct p as [due []]; cbn; apply _. Defined.

Definition pending_resets (w : World) : list (Z * Callback) :=
  filter is_mismatch_reset (timeouts w).

(** The lock and the armed unlocking callbacks agree: an unlocked game has
    none, a locked game has exactly the one of its own open turn. This is
    what a page looks like as long as no reset discards a session whose
    mismatch window is still open. *)
Definition lock_consistent (w : World) : Prop :=
  Forall (λ i, i ∉ matched (state w)) (flipped (state w))
  ∧ if locked (state w)
    then victory (state w) = false
         ∧ length (flipped (state w)) = 2
         ∧ ∃ due,
             pending_resets w
             = [(due, CbMismatchReset (flipped (state w)))]
    else pending_resets w = [].

Definition is_reset (e : Event) : bool :=
  match e with
  | EReset _ _ => true
  | _ => false
  end.

(** Along the run [evs] from [w], every reset comes at a moment when the
    game is not locked, that is, outside a mismatch window. *)
Fixpoint resets_outside_windows (evs : list Event) (w : World) : Prop :=
  match evs with
  | [] => True
  | e :: evs' =>
      (is_reset e = true → locked (state w) = false)
      ∧ resets_outside_windows evs' (step e w)
  end.

(** The reveal [handleFlip(index)] in world [w] completes the turn
    [(first, index)] on two present, different symbols. *)
Definition is_mismatch (index first : nat) (w : World) : Prop :=
  rejected index (state w) = false
  ∧ flipped (state w) = [first]
  ∧ ∃ s1 s2,
      deck (state w) !! first = Some s1
      ∧ deck (state w) !! index = Some s2
      ∧ s1 ≠ "" ∧ s2 ≠ "" ∧ s1 ≠ s2.

(** A mismatch window is open: the game is locked on the turn
    [(first, index)], its unlocking callback is armed for [due], and the
    matched set and move counter stand at [m] and [n]. *)
Definition window_open (first index : nat) (due : Z) (m : list nat) (n : nat)
  (w : World) : Prop :=
  locked (state w) = true
  ∧ victory (state w) = false
  ∧ flipped (state w) = [first; index]
  ∧ matched (state w) = m
  ∧ moves (state w) = n
  ∧ pending_resets w = [(due, CbMismatchReset [first; index])].

(** The display label of card [i] is [label], if the card exists. *)
Definition card_shows (i : nat) (label : CardState) (w : World) : Prop :=
  ∀ card, cardRefs w !! i = Some card → dataState card = Some label.

(** The window on the turn [(first, index)] has just closed: the buffer is
    empty, the lock is off, the matched set is still [m], both cards are
    displayed hidden and a reveal of either would be accepted. *)
Definition window_closed (first index : nat) (m : list nat) (w : World)
  : Prop :=
  flipped (state w) = []
  ∧ locked (state w) = false
  ∧ matched (state w) = m
  ∧ card_shows first Idle w
  ∧ card_shows index Idle w
  ∧ rejected first (state w) = false
  ∧ rejected index (state w) = false.

(** *** The claims on cancellation and on the mismatch window, as worded *)

(** A reset makes the unlocking callbacks armed before it harmless: when
    one of them runs later, the game state stays as it is. *)
Definition reset_invalidates_pending : Prop :=
  ∀ rnd t0 pre level rnd' evs k due indices,
    let w := run pre (initialWorld rnd t0) in
    (due, CbMismatchReset indices) ∈ timeouts w →
    let w' := run evs (softReset level rnd' w) in
    timeouts w' !! k = Some (due, CbMismatchReset indices) →
    state (fireTimeout k w') = state w'.

(** After every mismatch, on any page that can be reached, every reveal is
    rejected until the full reset delay has passed (resets apart, which
    start another session). *)
Definition mismatch_locks_for_full_delay : Prop :=
  ∀ rnd t0 pre index first evs i,
    let w := run pre (initialWorld rnd t0) in
    is_mismatch index first w →
    Forall (λ e, is_reset e = false) evs →
    let w2 := run evs (handleFlip index w) in
    (now w2 < now w + MISMATCH_RESET_DELAY)%Z →
    handleFlip i w2 = w2.

(** *** Scripted inputs on the page built with the oracle [[]]

    Its deck pairs the positions (0,11), (1,2), (3,4), (5,6), (7,8),
    (9,10). *)
Definition winning_clicks : list Event :=
  [EClick 0; EClick 11; EClick 1; EClick 2; EClick 3; EClick 4;
   EClick 5; EClick 6; EClick 7; EClick 8; EClick 9; EClick 10].

Definition slow_winning_clicks : list Event :=
  [EClick 0; EElapse 5000; EClick 11; EClick 1; EClick 2; EClick 3;
   EClick 4; EClick 5; EClick 6; EClick 7; EClick 8; EClick 9; EClick 10].

(** A mismatch at time 0, a reset one second later, one card revealed in
    the new session; 550 ms later the first session's unlocking callback
    (position 1 of the queue) is due. *)
Definition reset_during_window : list Event :=
  [EClick 0; EClick 1; EElapse 1000; EReset chill []; EClick 0; EElapse 550].

(** A mismatch at time 0, a reset one second later, a mismatch in the new
    session at once. *)
Definition mismatch_after_reset : list Event :=
  [EClick 0; EClick 1; EElapse 1000; EReset chill []; EClick 0].

(** The page built with the oracle [[]] after one reveal, and the same
    page one second after a mismatch on the positions 0 and 1. *)
Definition one_revealed : World := run [EClick 0] (initialWorld [] 0).

Definition mismatched_a_second_ago : World :=
  run [EClick 0; EClick 1; EElapse 1000] (initialWorld [] 0).

(** *** Vocabulary for the solver *)

(** Two game states that differ at most in the displayed elapsed time. *)
Definition same_game (s s' : GameState) : Prop :=
  ∃ elapsed, s' = set_elapsedMs elapsed s.

(** The deck positions with their symbols, and those not yet matched. *)
Definition positions (d : list string) : list (nat * string) :=
  imap (λ index symbol, (index, symbol)) d.

Definition unmatched (s : GameState) : list (nat * string) :=
  filter (λ p, p.1 ∉ matched s) (positions (deck s)).

(** The positions of [l] that hold [symbol], left to right. *)
Definition group (symbol : string) (l : list (nat * string)) : list nat :=
  (filter (λ p, p.2 = symbol) l).*1.

(** [buckets.get(symbol) ?? []] *)
Fixpoint bucket_get (symbol : string) (buckets : list (string * list nat))
  : list nat :=
  match buckets with
  | [] => []
  | (s, g) :: rest =>
      if bool_decide (s = symbol) then g else bucket_get symbol rest
  end.

(** The state in which the solver starts each round of its loop: nothing
    revealed, no lock and no unlocking callback armed, one card per deck
    position, every symbol present, the flags and counters in step with the
    matched set, and every symbol held by no or by exactly two unmatched
    positions. *)
Definition solver_ready (w : World) : Prop :=
  flipped (state w) = []
  ∧ locked (state w) = false
  ∧ pending_resets w = []
  ∧ length (cardRefs w) = length (deck (state w))
  ∧ Forall (λ symbol, symbol ≠ "") (deck (state w))
  ∧ victory (state w)
    = bool_decide (length (matched (state w)) = length (deck (state w)))
  ∧ length (unmatched (state w)) + length (matched (state w))
    = length (deck (state w))
  ∧ ∀ symbol,
      length (group symbol (unmatched (state w))) = 0
      ∨ length (group symbol (unmatched (state w))) = 2.

(** ** game.ts: progress and the difficulty pills *)

Definition hasActiveProgress (s : GameState) : bool :=
  bool_decide (0 < moves s)%nat
  || bool_decide (0 < length (matched s))%nat
  || bool_decide (0 < elapsedMs s)%Z
  || bool_decide (0 < length (flipped s))%nat.

(** The click listener of the reset button. *)
Definition resetButtonClick (rnd : list nat) (w : World) : World :=
  softReset (difficulty (state w)) rnd w.

(** The click listener of the difficulty pill for [level]. [confirmed] is
    the answer [window.confirm] gives if it is asked, which is only when
    there is progress to lose. *)
Definition difficultyPillClick (level : DifficultyKey) (confirmed : bool)
  (rnd : list nat) (w : World) : World :=
  if bool_decide (level ≠ difficulty (state w)) then
    if hasActiveProgress (state w) && negb confirmed then w
    else softReset level rnd w
  else w.

(** ** Vocabulary for the session invariants *)

(** The matched list is a sequence of pairs of different positions that
    hold the same symbol of the deck. *)
Inductive paired_up (d : list string) : list nat → Prop :=
  | paired_up_nil : paired_up d []
  | paired_up_cons a b symbol rest :
      a ≠ b →
      d !! a = Some symbol →
      d !! b = Some symbol →
      paired_up d rest →
      paired_up d (a :: b :: rest).

(** What every page keeps, whatever happens to it: one card per deck
    position; the flip buffer and the matched set hold different
    positions of the deck; the buffer holds at most two of them, and two
    only while the game is locked; the matched set is made of true pairs,
    at most one pair per counted move. *)
Definition session_ok (w : World) : Prop :=
  length (cardRefs w) = length (deck (state w))
  ∧ NoDup (flipped (state w) ++ matched (state w))
  ∧ Forall (λ i, (i < length (deck (state w)))%nat)
      (flipped (state w) ++ matched (state w))
  ∧ (length (flipped (state w)) ≤ 2)%nat
  ∧ (locked (state w) = false → (length (flipped (state w)) ≤ 1)%nat)
  ∧ (length (matched (state w)) ≤ 2 * moves (state w))%nat
  ∧ paired_up (deck (state w)) (matched (state w)).

(** A won game is at rest: nothing revealed, no lock, the clock stopped. *)
Definition won_at_rest (w : World) : Prop :=
  victory (state w) = true →
  flipped (state w) = []
  ∧ locked (state w) = false
  ∧ runningSince (state w) = None
  ∧ timerHandle w = None.

(** ** Everything that can happen to the page

    [step] takes the clicks on the cards of the board and a clock that
    only moves forward. The program allows more. A card button that a
    reset took off the board keeps its listener [() => handleFlip(index)],
    and [flipPairAutomatically] clicks the button it captured before its
    wait, so [handleFlip] can be called with any index a board ever had.
    [Date.now()] is the wall clock: between two callbacks it can take any
    value, lower ones included. And a timer runs when the browser's own
    clock says so, whatever [Date.now()] reads then. [react] covers all of
    it from above: a click with any index, any reading of the clock, any
    armed timeout and the armed interval at any moment. *)
Inductive Stimulus :=
  | SClick (index : nat)
  | SReset (level : DifficultyKey) (rnd : list nat)
  | SClock (t : Z)
  | STimeout (k : nat)
  | SInterval.

Definition react (x : Stimulus) (w : World) : World :=
  match x with
  | SClick index => handleFlip index w
  | SReset level rnd => softReset level rnd w
  | SClock t => set_now t w
  | STimeout k =>
      match timeouts w !! k with
      | Some (_, cb) =>
          runCallback cb (set_timeouts (delete k (timeouts w)) w)
      | None => w
      end
  | SInterval =>
      match timerHandle w with
      | Some due => tickTimer (set_timerHandle (Some (due + 400)%Z) w)
      | None => w
      end
  end.

Definition react_all (xs : list Stimulus) (w : World) : World :=
  fold_left (λ acc x, react x acc) xs w.

(** What the flip buffer and the matched set keep under every stimulus:
    one card per deck position; no position twice in the flip buffer and
    the matched set taken together; every matched position is a position
    of the deck; the buffer holds at most two positions, and two only
    while the game is locked. *)
Definition buffer_ok (w : World) : Prop :=
  length (cardRefs w) = length (deck (state w))
  ∧ NoDup (flipped (state w) ++ matched (state w))
  ∧ Forall (λ i, (i < length (deck (state w)))%nat) (matched (state w))
  ∧ (length (flipped (state w)) ≤ 2)%nat
  ∧ (locked (state w) = false → (length (flipped (state w)) ≤ 1)%nat).

(** What the stopwatch and the records keep under every stimulus and every
    reading of the clock: the interval is armed exactly while the clock is
    anchored; a page without an anchor is won or shows no elapsed time; a
    won page has no anchor and holds a best time for its level that is at
    most the time it shows. *)
Definition clock_ok (w : World) : Prop :=
  (timerHandle w = None ↔ runningSince (state w) = None)
  ∧ (runningSince (state w) = None →
     victory (state w) = true ∨ elapsedMs (state w) = 0%Z)
  ∧ (victory (state w) = true →
     runningSince (state w) = None
     ∧ ∃ best, bestTimes (state w) !! difficulty (state w) = Some best
               ∧ (best ≤ elapsedMs (state w))%Z).

(** ** Vocabulary for the solver's rounds *)

(** [(a, b)] is the pair the solver is to pick in state [s]: [a] is the
    leftmost position that is not matched, [b] lies to its right and holds
    the same symbol, and no other unmatched position holds that symbol. *)
Definition leftmost_pair (s : GameState) (a b : nat) : Prop :=
  (a < b)%nat
  ∧ (a ∉ matched s) ∧ (b ∉ matched s)
  ∧ (∀ j, (j < a)%nat → j ∈ matched s)
  ∧ ∃ symbol,
      deck s !! a = Some symbol ∧ deck s !! b = Some symbol
      ∧ ∀ j, j ∉ matched s → deck s !! j = Some symbol → j = a ∨ j = b.

(** The positions a list of pairs reveals, in order. *)
Definition reveals (ps : list (nat * nat)) : list nat :=
  flat_map (λ p, [p.1; p.2]) ps.

(** [solver_plays w ps w']: from [w] the solver plays the pairs [ps], one
    round each, and is left with [w']. In a round it picks what
    [pickNextPair] returns, which is the leftmost pair; it clicks the first
    card, whose listener [handleFlip] accepts the reveal, waits, clicks the
    second, which [handleFlip] accepts too, and waits again; the two
    reveals make one counted move and put the pair into the matched set. *)
Inductive solver_plays : World → list (nat * nat) → World → Prop :=
  | solver_plays_nil w : solver_plays w [] w
  | solver_plays_cons w a b w1 w2 ps w' :
      victory (state w) = false →
      locked (state w) = false →
      pickNextPair (state w) = Some (a, b) →
      leftmost_pair (state w) a b →
      rejected a (state w) = false →
      sleep (FLIP_DURATION + 120)%Z (handleFlip a w) = Some w1 →
      rejected b (state w1) = false →
      sleep WAIT_AFTER_MATCH (handleFlip b w1) = Some w2 →
      flipPairAutomatically a b w = Some w2 →
      matched (state w2) = (matched (state w) ++ [a; b])%list →
      moves (state w2) = (moves (state w) + 1)%nat →
      deck (state w2) = deck (state w) →
      solver_plays w2 ps w' →
      solver_plays w ((a, b) :: ps) w'.

(** The positions a callback will label as matched or give the good
    pulse. *)
Definition marks (cb : Callback) : list nat :=
  match cb with
  | CbMarkMatched indices => indices
  | CbFlash indices Good _ => indices
  | _ => []
  end.

(** The cards against a matched set [M] and a flip buffer [F]: a card
    labelled matched, or carrying the good pulse, is in [M]; every
    position of [F] has a card labelled flipped. *)
Definition cards_ok (M F : list nat) (cs : list Card) : Prop :=
  (∀ i c, cs !! i = Some c →
     dataState c = Some Matched ∨ dataFeedback c = Some Good → i ∈ M)
  ∧ (∀ i, i ∈ F → ∃ c, cs !! i = Some c ∧ dataState c = Some Flipped).

(** What the board shows agrees with what the game holds, now and after
    every armed callback. *)
Definition display_ok (w : World) : Prop :=
  cards_ok (matched (state w)) (flipped (state w)) (cardRefs w)
  ∧ ∀ due cb, (due, cb) ∈ timeouts w → marks cb ⊆ matched (state w).

(** After the first reveal on the page built with the oracle [[]]: five
    seconds pass, then every card but the last is revealed in pairs. *)
Definition all_but_last_click : list Event :=
  [EElapse 5000; EClick 11; EClick 1; EClick 2; EClick 3; EClick 4;
   EClick 5; EClick 6; EClick 7; EClick 8; EClick 9].

(** The winning reveals on the page built with the oracle [[]] at time 0,
    with the wall clock set back by a second after the first reveal. *)
Definition win_with_clock_set_back : list Stimulus :=
  [SClick 0; SClock (-1000); SClick 11; SClick 1; SClick 2; SClick 3;
   SClick 4; SClick 5; SClick 6; SClick 7; SClick 8; SClick 9; SClick 10].

(** ** index.ts: emoji numerals

    The numbers these functions receive from the game are integers
    (counters, millisecond counts) below 2^53, so a number is a [Z],
    [Math.floor] of it is the number itself, and [toString] gives its
    decimal digits; the theorems about these functions carry the bound as
    a hypothesis. A string of decimal digits is held as the list of its
    digits, most significant first ([Number(char)] of a digit is its
    value); the strings that leave the functions are [string]s. *)

Open Scope string_scope.

Definition digitEmoji : list string :=
  ["0ï¸âƒ£"; "1ï¸âƒ£"; "2ï¸âƒ£"; "3ï¸âƒ£"; "4ï¸âƒ£"; "5ï¸âƒ£"; "6ï¸âƒ£"; "7ï¸âƒ£"; "8ï¸âƒ£"; "9ï¸âƒ£"].

(** The text between minutes and seconds in [formatEmojiTime]. *)
Definition timeSeparator : string := "ðŸŸ°".

Close Scope string_scope.

(** [n.toString()] for a natural number: [fuel] bounds the number of
    digits after the first. *)
Fixpoint decimal_digits (fuel : nat) (n : N) : list N :=
  match fuel with
  | 0 => [n]
  | S fuel' =>
      if (n <? 10)%N then [n]
      else decimal_digits fuel' (n / 10)%N ++ [(n mod 10)%N]
  end.

(** A number of [k] bits has at most [k] decimal digits. *)
Definition toString (n : N) : list N :=
  decimal_digits (N.to_nat (N.size n)) n.

(** [raw.padStart(minDigits, '0')] *)
Definition padStart (minDigits : nat) (raw : list N) : list N :=
  replicate (minDigits - length raw) 0%N ++ raw.

(** [digitEmoji[Number(char)] ?? digitEmoji[0]] *)
Definition emojiDigit (d : N) : string :=
  default (default ""%string (digitEmoji !! 0)) (digitEmoji !! N.to_nat d).

(** The array that [toEmojiNumber] joins: one emoji per digit. *)
Definition emojiDigits (value : Z) (minDigits : nat) : list string :=
  let safe := Z.to_N (0 `max` value) in
  let raw := padStart minDigits (toString safe) in
  map emojiDigit raw.

Definition toEmojiNumber (value : Z) (minDigits : nat) : string :=
  String.concat ""%string (emojiDigits value minDigits).

Definition formatEmojiTime (milliseconds : Z) : string :=
  let totalSeconds := (0 `max` (milliseconds / 1000))%Z in
  let minutes := (totalSeconds / 60)%Z in
  let seconds := (totalSeconds mod 60)%Z in
  (toEmojiNumber minutes 2 +:+ timeSeparator +:+ toEmojiNumber seconds 2).

(** The number a list of decimal digits stands for. *)
Definition from_digits (ds : list N) : N :=
  fold_left (λ acc d, (10 * acc + d)%N) ds 0%N.

(** The room one glyph of [digitEmoji] takes in a text. *)
Definition glyph_width : nat := String.length (emojiDigit 0).

(** * Properties *)

Close Scope string_scope.

(** ** Sample runs *)

Example shuffle_example :
  fst (shuffle ["a"; "b"; "c"; "d"]%string [1; 0; 1])
  = ["c"; "d"; "a"; "b"]%string.
Proof. reflexivity. Qed.

Example sample_solver_run :
  (λ w, (victory (state w), moves (state w), length (matched (state w))))
    <$> secretSolvePuzzle 7 sample_world
  = Some (true, 6, 12).
Proof. vm_compute. reflexivity. Qed.

Example initial_solver_run :
  (λ w, (victory (state w), moves (state w), elapsedMs (state w)))
    <$> secretSolvePuzzle 7 (initialWorld [3; 1; 4; 1; 5; 9; 2; 6; 5; 3; 5] 0)
  = Some (true, 6, 9370%Z).
Proof. vm_compute. reflexivity. Qed.

(** ** DeckFactory *)

Section Shuffle.
Context {T : Type}.
Implicit Types arr : list T.

Lemma swap_Permutation arr i j : swap arr i j ≡ₚ arr.
Proof.
  unfold swap.
  destruct (arr !! i) as [x|] eqn:Hi; [|done].
  destruct (arr !! j) as [y|] eqn:Hj; [|done].
  by apply Permutation_insert_swap.
Qed.

Lemma shuffle_loop_Permutation i arr rnd :
  (shuffle_loop i arr rnd).1 ≡ₚ arr.
Proof.
  revert arr rnd. induction i as [|i IH]; intros arr rnd; [done|].
  cbn [shuffle_loop]. destruct (draw rnd) as [r rnd'].
  rewrite IH. apply swap_Permutation.
Qed.

(** The Fisher-Yates loop returns a permutation of its input, whatever
    the random draws are. *)
Lemma shuffle_Permutation arr rnd : (shuffle arr rnd).1 ≡ₚ arr.
Proof. apply shuffle_loop_Permutation. Qed.
End Shuffle.

Lemma occurrences_Permutation symbol l k :
  l ≡ₚ k → occurrences symbol l = occurrences symbol k.
Proof. intros H. unfold occurrences. by rewrite H. Qed.

Lemma occurrences_cons symbol x l :
  occurrences symbol (x :: l)
  = (if bool_decide (x = symbol) then 1 else 0) + occurrences symbol l.
Proof.
  unfold occurrences. rewrite filter_cons.
  case_bool_decide; case_decide; naive_solver.
Qed.

Lemma occurrences_not_elem symbol l : symbol ∉ l → occurrences symbol l = 0.
Proof.
  induction l as [|x l IH]; [done|].
  rewrite not_elem_of_cons, occurrences_cons. intros [? ?].
  rewrite IH by done. case_bool_decide; naive_solver.
Qed.

Lemma occurrences_NoDup symbol l :
  NoDup l → symbol ∈ l → occurrences symbol l = 1.
Proof.
  induction 1 as [|x l Hx Hl IH]; [by intros ?%elem_of_nil|].
  rewrite elem_of_cons, occurrences_cons. intros [->|Hin].
  - rewrite bool_decide_eq_true_2 by done.
    by rewrite occurrences_not_elem.
  - rewrite bool_decide_eq_false_2 by (intros ->; done). by rewrite IH.
Qed.

Lemma occurrences_duplicated symbol (picks : list string) :
  occurrences symbol (flat_map (λ s, [s; s]) picks)
  = 2 * occurrences symbol picks.
Proof.
  induction picks as [|x picks IH]; [done|].
  cbn [flat_map app]. rewrite !occurrences_cons, IH.
  case_bool_decide; lia.
Qed.

Lemma elem_of_duplicated symbol (picks : list string) :
  symbol ∈ flat_map (λ s, [s; s]) picks ↔ symbol ∈ picks.
Proof.
  induction picks as [|x picks IH]; [done|].
  cbn [flat_map app]. rewrite !elem_of_cons, IH. tauto.
Qed.

Lemma length_duplicated (picks : list string) :
  length (flat_map (λ s, [s; s]) picks) = 2 * length picks.
Proof. induction picks as [|x picks IH]; [done|]. cbn [flat_map app length]. lia. Qed.

(** What [buildDeck] returns, up to the order of the cards. *)
Lemma buildDeck_Permutation config rnd :
  (buildDeck config rnd).1
  ≡ₚ flat_map (λ s, [s; s])
       (take (pairs config) (shuffle (pool config) rnd).1).
Proof.
  unfold buildDeck. destruct (shuffle (pool config) rnd) as [shuffled rnd1].
  apply shuffle_Permutation.
Qed.

Lemma buildDeck_length config rnd :
  pairs config ≤ length (pool config) →
  length (buildDeck config rnd).1 = 2 * pairs config.
Proof.
  intros Hle. rewrite buildDeck_Permutation, length_duplicated.
  rewrite length_take_le; [done|].
  by rewrite shuffle_Permutation.
Qed.

Lemma buildDeck_occurrences config rnd symbol :
  NoDup (pool config) →
  symbol ∈ (buildDeck config rnd).1 →
  occurrences symbol (buildDeck config rnd).1 = 2.
Proof.
  intros Hnodup.
  rewrite (occurrences_Permutation _ _ _ (buildDeck_Permutation config rnd)).
  rewrite buildDeck_Permutation, elem_of_duplicated, occurrences_duplicated.
  intros Hin. rewrite (occurrences_NoDup symbol); [done| |done].
  apply (sublist_NoDup _ (shuffle (pool config) rnd).1);
    [by rewrite shuffle_Permutation | apply sublist_take].
Qed.

Lemma buildDeck_elem config rnd symbol :
  symbol ∈ (buildDeck config rnd).1 → symbol ∈ pool config.
Proof.
  rewrite buildDeck_Permutation, elem_of_duplicated.
  intros (i & Hi & _)%elem_of_take.
  rewrite <- (shuffle_Permutation (pool config) rnd).
  by eapply list_elem_of_lookup_2.
Qed.

(** C3. For a configuration whose pool has distinct symbols and at least
    [pairs] of them, the deck built by [buildDeck] has exactly [2 * pairs]
    cards and every symbol present in it occurs exactly twice. The shuffle
    needs no assumption: [shuffle_Permutation] holds for every oracle. *)
Theorem buildDeck_paired (config : DifficultyConfig) (rnd : list nat) :
  NoDup (pool config) →
  pairs config ≤ length (pool config) →
  length (buildDeck config rnd).1 = 2 * pairs config
  ∧ ∀ symbol, symbol ∈ (buildDeck config rnd).1 →
      occurrences symbol (buildDeck config rnd).1 = 2.
Proof.
  intros Hnodup Hle. split; [by apply buildDeck_length|].
  intros symbol. by apply buildDeck_occurrences.
Qed.

Lemma chill_pool_NoDup : NoDup (pool (difficulties chill)).
Proof. apply (bool_decide_unpack _). by vm_compute. Qed.

Lemma buildDeck_paired_witness :
  NoDup (pool (difficulties chill))
  ∧ pairs (difficulties chill) ≤ length (pool (difficulties chill))
  ∧ length (buildDeck (difficulties chill) [7; 2; 9; 4]).1 = 12
  ∧ ∀ symbol, symbol ∈ (buildDeck (difficulties chill) [7; 2; 9; 4]).1 →
      occurrences symbol (buildDeck (difficulties chill) [7; 2; 9; 4]).1 = 2.
Proof.
  assert (Hd : NoDup (pool (difficulties chill))).
  { apply (bool_decide_unpack _). by vm_compute. }
  assert (Hl : pairs (difficulties chill) ≤ length (pool (difficulties chill))).
  { simpl. lia. }
  split; [exact Hd|]. split; [exact Hl|].
  exact (buildDeck_paired (difficulties chill) [7; 2; 9; 4] Hd Hl).
Defined.

(** ** The reveal protocol, one call at a time *)

Lemma rejected_true index s :
  rejected index s = true
  ↔ locked s = true ∨ victory s = true
    ∨ index ∈ flipped s ∨ index ∈ matched s.
Proof.
  unfold rejected.
  rewrite !orb_true_iff, !bool_decide_eq_true. tauto.
Qed.

Lemma rejected_false index s :
  rejected index s = false
  ↔ locked s = false ∧ victory s = false
    ∧ (index ∉ flipped s) ∧ (index ∉ matched s).
Proof.
  unfold rejected.
  rewrite !orb_false_iff, !bool_decide_eq_false. tauto.
Qed.

(** The two early returns of [handleFlip]. *)
Lemma handleFlip_guards index w :
  rejected index (state w) = true → handleFlip index w = w.
Proof.
  intros H%rejected_true. unfold handleFlip.
  destruct (locked (state w) || victory (state w)) eqn:Hlv; [done|].
  apply orb_false_iff in Hlv as [Hl Hv].
  destruct H as [H|[H|H]]; [congruence|congruence|].
  rewrite (proj2 (orb_true_iff _ _)); [done|].
  rewrite !bool_decide_eq_true. tauto.
Qed.

(** C4. A reveal made while [locked] or [victory] holds, or of a position
    already in the flip buffer or in the matched set, returns at once: the
    whole world (game state with its deck, matched set, flip buffer, moves,
    flags, timer fields and best times, the cards, the armed callbacks) is
    unchanged. *)
Theorem handleFlip_rejected (w : World) (index : nat) :
  locked (state w) = true ∨ victory (state w) = true
  ∨ index ∈ flipped (state w) ∨ index ∈ matched (state w) →
  handleFlip index w = w.
Proof.
  intros H. unfold handleFlip.
  destruct (locked (state w)) eqn:Hl; [done|].
  destruct (victory (state w)) eqn:Hv; [done|]. cbn [orb].
  destruct H as [H|[H|[H|H]]]; [done|done| |].
  - by rewrite (bool_decide_eq_true_2 (index ∈ flipped (state w))).
  - rewrite (bool_decide_eq_true_2 (index ∈ matched (state w))) by done.
    by rewrite orb_true_r.
Qed.

Lemma handleFlip_rejected_witness :
  locked (state (run [EClick 0; EClick 2] sample_world)) = true
  ∧ handleFlip 5 (run [EClick 0; EClick 2] sample_world)
    = run [EClick 0; EClick 2] sample_world.
Proof.
  split; [reflexivity|].
  apply handleFlip_rejected. left. reflexivity.
Defined.

Lemma startTimer_stopped w :
  runningSince (state w) = None →
  startTimer false w
  = set_timerHandle (Some (now w + 400)%Z)
      (upd_state (set_elapsedMs (now w - now w)%Z)
         (set_timerHandle None
            (upd_state (set_elapsedMs 0%Z)
               (upd_state (set_runningSince (Some (now w))) w)))).
Proof.
  intros H. unfold startTimer. rewrite H.
  rewrite bool_decide_eq_false_2 by (intros ?; done).
  reflexivity.
Qed.

Section Revealed.
Variables (index : nat) (w : World).

Ltac revealed_field :=
  unfold revealed; destruct (runningSince (state w)) eqn:Hrun;
  [|rewrite startTimer_stopped by done]; reflexivity.

Lemma revealed_flipped :
  flipped (state (revealed index w)) = flipped (state w) ++ [index].
Proof. revealed_field. Qed.
Lemma revealed_deck : deck (state (revealed index w)) = deck (state w).
Proof. revealed_field. Qed.
Lemma revealed_matched :
  matched (state (revealed index w)) = matched (state w).
Proof. revealed_field. Qed.
Lemma revealed_moves : moves (state (revealed index w)) = moves (state w).
Proof. revealed_field. Qed.
Lemma revealed_locked : locked (state (revealed index w)) = locked (state w).
Proof. revealed_field. Qed.
Lemma revealed_victory :
  victory (state (revealed index w)) = victory (state w).
Proof. revealed_field. Qed.
Lemma revealed_difficulty :
  difficulty (state (revealed index w)) = difficulty (state w).
Proof. revealed_field. Qed.
Lemma revealed_bestTimes :
  bestTimes (state (revealed index w)) = bestTimes (state w).
Proof. revealed_field. Qed.
Lemma revealed_timeouts : timeouts (revealed index w) = timeouts w.
Proof. revealed_field. Qed.
Lemma revealed_now : now (revealed index w) = now w.
Proof. revealed_field. Qed.
Lemma revealed_cardRefs :
  cardRefs (revealed index w)
  = alter (λ c, {| dataState := Some Flipped;
                   dataFeedback := dataFeedback c |}) index (cardRefs w).
Proof. revealed_field. Qed.
Lemma revealed_runningSince :
  runningSince (state (revealed index w))
  = Some (default (now w) (runningSince (state w))).
Proof.
  unfold revealed; destruct (runningSince (state w)) eqn:Hrun;
    [cbn; by rewrite Hrun|by rewrite startTimer_stopped].
Qed.
End Revealed.

(** An accepted reveal that does not complete a turn stops after showing
    the card. *)
Lemma handleFlip_opens index w :
  rejected index (state w) = false →
  length (flipped (state w) ++ [index]) ≠ 2 →
  handleFlip index w = revealed index w.
Proof.
  intros [Hl [Hv [Hf Hm]]]%rejected_false Hlen. unfold handleFlip.
  rewrite Hl, Hv. cbn [orb].
  rewrite (bool_decide_eq_false_2 (index ∈ flipped _)) by done.
  rewrite (bool_decide_eq_false_2 (index ∈ matched _)) by done.
  cbn [orb]. fold (revealed index w).
  rewrite revealed_flipped.
  by rewrite (bool_decide_eq_false_2 (length _ = 2)).
Qed.

(** An accepted reveal that completes the turn [(first, index)] counts the
    move and evaluates the pair. *)
Lemma handleFlip_completes index first w :
  rejected index (state w) = false →
  flipped (state w) = [first] →
  handleFlip index w =
    let w4 := count_move (revealed index w) in
    let firstSymbol := deck (state w) !! first in
    let secondSymbol := deck (state w) !! index in
    if falsy_symbol firstSymbol || falsy_symbol secondSymbol then
      upd_state (set_locked false) (upd_state (set_flipped []) w4)
    else if bool_decide (firstSymbol = secondSymbol) then
      checkVictory
        (upd_state (set_flipped [])
           (setTimeout (CbFlash [first; index] Good 2000%Z) FLIP_DURATION
              (setTimeout (CbMarkMatched [first; index]) 250%Z
                 (upd_state
                    (λ s, set_matched (matched s ++ [first; index]) s) w4))))
    else queueMismatchReset [first; index] w4.
Proof.
  intros [Hl [Hv [Hf Hm]]]%rejected_false Hfl. unfold handleFlip.
  rewrite Hl, Hv. cbn [orb].
  rewrite (bool_decide_eq_false_2 (index ∈ flipped _)) by done.
  rewrite (bool_decide_eq_false_2 (index ∈ matched _)) by done.
  cbn [orb]. fold (revealed index w).
  rewrite revealed_flipped, Hfl.
  rewrite bool_decide_eq_true_2 by done.
  fold (count_move (revealed index w)).
  assert (Hfl4 : flipped (state (count_move (revealed index w)))
                 = [first; index]).
  { change (flipped (state (revealed index w)) = [first; index]).
    by rewrite revealed_flipped, Hfl. }
  assert (Hdeck4 : deck (state (count_move (revealed index w)))
                   = deck (state w)).
  { change (deck (state (revealed index w)) = deck (state w)).
    by rewrite revealed_deck. }
  rewrite Hfl4, Hdeck4. reflexivity.
Qed.

(** *** What [stopTimer], [handleWin] and [checkVictory] leave alone *)

Ltac win_field w :=
  unfold checkVictory, handleWin, stopTimer;
  repeat match goal with
    | |- context [if ?b then _ else _] => destruct b
    end;
  cbn; destruct (runningSince (state w)); reflexivity.

Section Victory.
Variable w : World.

Lemma checkVictory_deck : deck (state (checkVictory w)) = deck (state w).
Proof. win_field w. Qed.
Lemma checkVictory_matched :
  matched (state (checkVictory w)) = matched (state w).
Proof. win_field w. Qed.
Lemma checkVictory_moves : moves (state (checkVictory w)) = moves (state w).
Proof. win_field w. Qed.
Lemma checkVictory_flipped :
  flipped (state (checkVictory w)) = flipped (state w).
Proof. win_field w. Qed.
Lemma checkVictory_locked :
  locked (state (checkVictory w)) = locked (state w).
Proof. win_field w. Qed.
Lemma checkVictory_difficulty :
  difficulty (state (checkVictory w)) = difficulty (state w).
Proof. win_field w. Qed.
Lemma checkVictory_timeouts : timeouts (checkVictory w) = timeouts w.
Proof. win_field w. Qed.
Lemma checkVictory_cardRefs : cardRefs (checkVictory w) = cardRefs w.
Proof. win_field w. Qed.
Lemma checkVictory_now : now (checkVictory w) = now w.
Proof. win_field w. Qed.

Lemma handleWin_victory : victory (state (handleWin w)) = true.
Proof. win_field w. Qed.

Lemma checkVictory_victory :
  victory (state (checkVictory w))
  = victory (state w)
    || bool_decide (length (matched (state w)) = length (deck (state w))).
Proof.
  unfold checkVictory.
  destruct (victory (state w)) eqn:Hv; case_bool_decide; cbn [andb negb orb].
  - done.
  - done.
  - apply handleWin_victory.
  - done.
Qed.
End Victory.

(** C5. The moves counter goes up by exactly one on a reveal that brings the
    flip buffer to size 2, whatever the pair turns out to be, and stays as
    it is on a reveal that leaves the turn open (the buffer then holds the
    revealed position) and on a rejected reveal (which changes nothing).
    This holds in every world, so at every call of every sequence. *)
Theorem handleFlip_moves (w : World) (index : nat) :
  match reveal_kind index (state w) with
  | RevealRejected =>
      handleFlip index w = w
  | RevealCompletesTurn =>
      moves (state (handleFlip index w)) = moves (state w) + 1
  | RevealOpensTurn =>
      moves (state (handleFlip index w)) = moves (state w)
      ∧ flipped (state (handleFlip index w)) = flipped (state w) ++ [index]
  end.
Proof.
  unfold reveal_kind.
  destruct (rejected index (state w)) eqn:Hrej.
  { by apply handleFlip_guards. }
  case_bool_decide as Hlen.
  - destruct (flipped (state w)) as [|first [|? ?]] eqn:Hfl;
      [done| |rewrite length_app in Hlen; cbn in Hlen; lia].
    rewrite (handleFlip_completes index first) by done. cbn zeta.
    destruct (_ || _); [|case_bool_decide].
    + by rewrite <- (revealed_moves index w).
    + by rewrite checkVictory_moves, <- (revealed_moves index w).
    + by rewrite <- (revealed_moves index w).
  - rewrite handleFlip_opens by done.
    by rewrite revealed_moves, revealed_flipped.
Qed.

(** The three outcomes of a completed turn on the sample board, and the two
    kinds of reveal that do not count. *)
Example moves_on_match :
  moves (state (run [EClick 0; EClick 1] sample_world)) = 1.
Proof. reflexivity. Qed.

Example moves_on_mismatch :
  moves (state (run [EClick 0; EClick 2] sample_world)) = 1.
Proof. reflexivity. Qed.

Example moves_on_single_reveal :
  moves (state (run [EClick 0] sample_world)) = 0.
Proof. reflexivity. Qed.

Example moves_on_rejected_reveal :
  moves (state (run [EClick 0; EClick 2; EClick 5] sample_world)) = 1.
Proof. reflexivity. Qed.

(** C6. When the second reveal of a turn finds equal (and present) symbols
    at the two buffered positions, that same call appends both positions to
    the matched set, empties the flip buffer, leaves [locked] false, and
    re-checks victory: [victory] is true exactly when the matched set now
    covers the deck. *)
Theorem handleFlip_match (w : World) (index first : nat) (symbol : string) :
  rejected index (state w) = false →
  flipped (state w) = [first] →
  deck (state w) !! first = Some symbol →
  deck (state w) !! index = Some symbol →
  symbol ≠ ""%string →
  matched (state (handleFlip index w)) = matched (state w) ++ [first; index]
  ∧ flipped (state (handleFlip index w)) = []
  ∧ locked (state (handleFlip index w)) = false
  ∧ victory (state (handleFlip index w))
    = bool_decide (length (matched (state (handleFlip index w)))
                   = length (deck (state (handleFlip index w)))).
Proof.
  intros Hrej Hfl Hfirst Hsecond Hne.
  pose proof Hrej as [Hl [Hv _]]%rejected_false.
  rewrite (handleFlip_completes index first) by done. cbn zeta.
  rewrite Hfirst, Hsecond. cbn [falsy_symbol].
  rewrite (bool_decide_eq_false_2 (symbol = _)) by done. cbn [orb].
  rewrite bool_decide_eq_true_2 by done.
  rewrite checkVictory_matched, checkVictory_flipped, checkVictory_locked,
    checkVictory_victory, checkVictory_deck.
  cbn [state upd_state setTimeout set_timeouts count_move
       matched flipped locked victory deck
       set_flipped set_matched set_moves].
  rewrite revealed_matched, revealed_locked, revealed_victory, revealed_deck.
  by rewrite Hl, Hv.
Qed.

Lemma handleFlip_match_witness :
  matched (state (handleFlip 1 (handleFlip 0 sample_world))) = [0; 1]
  ∧ flipped (state (handleFlip 1 (handleFlip 0 sample_world))) = []
  ∧ locked (state (handleFlip 1 (handleFlip 0 sample_world))) = false
  ∧ victory (state (handleFlip 1 (handleFlip 0 sample_world)))
    = bool_decide
        (length (matched (state (handleFlip 1 (handleFlip 0 sample_world))))
         = length (deck (state (handleFlip 1 (handleFlip 0 sample_world))))).
Proof.
  apply (handleFlip_match (handleFlip 0 sample_world) 1 0 "a"%string);
    [reflexivity|reflexivity|reflexivity|reflexivity|discriminate].
Defined.

(** C10. When a completed turn finds a buffered position without a symbol
    (a position outside the deck, or an empty symbol), the turn is
    abandoned on the spot: the flip buffer is emptied, [locked] is false,
    the matched set and the victory flag are as before, no callback is
    armed, and the move counter has counted this turn once, as it does for
    every completed turn. [handleFlip] is a total function and this path of
    the source has no [throw], so nothing propagates. *)
Theorem handleFlip_inconsistent (w : World) (index first : nat) :
  rejected index (state w) = false →
  flipped (state w) = [first] →
  falsy_symbol (deck (state w) !! first)
  || falsy_symbol (deck (state w) !! index) = true →
  flipped (state (handleFlip index w)) = []
  ∧ locked (state (handleFlip index w)) = false
  ∧ matched (state (handleFlip index w)) = matched (state w)
  ∧ moves (state (handleFlip index w)) = moves (state w) + 1
  ∧ victory (state (handleFlip index w)) = victory (state w)
  ∧ timeouts (handleFlip index w) = timeouts w.
Proof.
  intros Hrej Hfl Hfalsy.
  rewrite (handleFlip_completes index first) by done. cbn zeta.
  rewrite Hfalsy.
  cbn [state upd_state count_move timeouts
       matched flipped locked victory moves
       set_flipped set_locked set_moves].
  by rewrite revealed_matched, revealed_moves, revealed_victory,
    revealed_timeouts.
Qed.

Lemma handleFlip_inconsistent_witness :
  flipped (state (handleFlip 12 (handleFlip 0 sample_world))) = []
  ∧ locked (state (handleFlip 12 (handleFlip 0 sample_world))) = false
  ∧ matched (state (handleFlip 12 (handleFlip 0 sample_world))) = []
  ∧ moves (state (handleFlip 12 (handleFlip 0 sample_world))) = 1
  ∧ victory (state (handleFlip 12 (handleFlip 0 sample_world))) = false
  ∧ timeouts (handleFlip 12 (handleFlip 0 sample_world)) = [].
Proof.
  apply (handleFlip_inconsistent (handleFlip 0 sample_world) 12 0);
    reflexivity.
Defined.

(** ** Callbacks, ticks and the game state *)

Lemma forEach_ind {A} (P : World → Prop) (f : A → World → World) l w :
  P w → (∀ x w', P w' → P (f x w')) → P (forEach f l w).
Proof.
  intros Hw Hf. unfold forEach. revert w Hw.
  induction l as [|x l IH]; intros w Hw; [done|].
  cbn [fold_left]. apply IH, Hf, Hw.
Qed.

Lemma forEach_state {A} (f : A → World → World) l w :
  (∀ x w', state (f x w') = state w') → state (forEach f l w) = state w.
Proof.
  intros Hf. apply (forEach_ind (λ w', state w' = state w)); [done|].
  intros x w' <-. apply Hf.
Qed.

Lemma forEach_timeouts {A} (f : A → World → World) l w :
  (∀ x w', timeouts (f x w') = timeouts w') →
  timeouts (forEach f l w) = timeouts w.
Proof.
  intros Hf. apply (forEach_ind (λ w', timeouts w' = timeouts w)); [done|].
  intros x w' <-. apply Hf.
Qed.

Lemma forEach_timerHandle {A} (f : A → World → World) l w :
  (∀ x w', timerHandle (f x w') = timerHandle w') →
  timerHandle (forEach f l w) = timerHandle w.
Proof.
  intros Hf.
  apply (forEach_ind (λ w', timerHandle w' = timerHandle w)); [done|].
  intros x w' <-. apply Hf.
Qed.

Lemma forEach_now {A} (f : A → World → World) l w :
  (∀ x w', now (f x w') = now w') → now (forEach f l w) = now w.
Proof.
  intros Hf. apply (forEach_ind (λ w', now w' = now w)); [done|].
  intros x w' <-. apply Hf.
Qed.

Lemma forEach_cardRefs_length {A} (f : A → World → World) l w :
  (∀ x w', length (cardRefs (f x w')) = length (cardRefs w')) →
  length (cardRefs (forEach f l w)) = length (cardRefs w).
Proof.
  intros Hf.
  apply (forEach_ind (λ w', length (cardRefs w') = length (cardRefs w)));
    [done|].
  intros x w' <-. apply Hf.
Qed.

Lemma flashFeedbackEnd_step_cases idx mood w :
  (match cardRefs w !! idx with
   | None => w
   | Some card =>
       match mood, dataState card with
       | Good, Some Matched => w
       | _, _ => setFeedback idx None w
       end
   end) = w
  ∨ (match cardRefs w !! idx with
     | None => w
     | Some card =>
         match mood, dataState card with
         | Good, Some Matched => w
         | _, _ => setFeedback idx None w
         end
     end) = setFeedback idx None w.
Proof.
  destruct (cardRefs w !! idx) as [card|]; [|by left].
  destruct mood, (dataState card) as [[]|]; auto.
Qed.

(** Only the unlocking callback writes the game state, and it writes
    exactly the flip buffer and the lock. *)
Lemma runCallback_state cb w :
  state (runCallback cb w)
  = match cb with
    | CbMismatchReset _ => set_locked false (set_flipped [] (state w))
    | _ => state w
    end.
Proof.
  destruct cb as [indices mood duration|indices mood|indices|indices];
    cbn [runCallback].
  - unfold flashFeedback. cbn. by apply forEach_state.
  - unfold flashFeedbackEnd. apply forEach_state. intros idx w'.
    by destruct (flashFeedbackEnd_step_cases idx mood w') as [->| ->].
  - unfold mismatchReset. cbn.
    rewrite !(forEach_state (λ idx, setFeedback idx None)) by done.
    by rewrite !(forEach_state (λ idx, setCardVisualState idx Idle)).
  - by apply forEach_state.
Qed.

Lemma runCallback_timerHandle cb w :
  timerHandle (runCallback cb w) = timerHandle w.
Proof.
  destruct cb as [indices mood duration|indices mood|indices|indices];
    cbn [runCallback].
  - unfold flashFeedback. cbn. by apply forEach_timerHandle.
  - unfold flashFeedbackEnd. apply forEach_timerHandle. intros idx w'.
    by destruct (flashFeedbackEnd_step_cases idx mood w') as [->| ->].
  - unfold mismatchReset. cbn.
    rewrite !(forEach_timerHandle (λ idx, setFeedback idx None)) by done.
    by rewrite !(forEach_timerHandle (λ idx, setCardVisualState idx Idle)).
  - by apply forEach_timerHandle.
Qed.

Lemma runCallback_now cb w : now (runCallback cb w) = now w.
Proof.
  destruct cb as [indices mood duration|indices mood|indices|indices];
    cbn [runCallback].
  - unfold flashFeedback. cbn. by apply forEach_now.
  - unfold flashFeedbackEnd. apply forEach_now. intros idx w'.
    by destruct (flashFeedbackEnd_step_cases idx mood w') as [->| ->].
  - unfold mismatchReset. cbn.
    rewrite !(forEach_now (λ idx, setFeedback idx None)) by done.
    by rewrite !(forEach_now (λ idx, setCardVisualState idx Idle)).
  - by apply forEach_now.
Qed.

Lemma runCallback_cardRefs_length cb w :
  length (cardRefs (runCallback cb w)) = length (cardRefs w).
Proof.
  assert (Halter : ∀ (f : Card → Card) idx w',
    length (cardRefs (set_cardRefs (alter f idx (cardRefs w')) w'))
    = length (cardRefs w')).
  { intros. cbn. apply length_alter. }
  destruct cb as [indices mood duration|indices mood|indices|indices];
    cbn [runCallback].
  - unfold flashFeedback. cbn. apply forEach_cardRefs_length.
    intros. apply Halter.
  - unfold flashFeedbackEnd. apply forEach_cardRefs_length. intros idx w'.
    destruct (flashFeedbackEnd_step_cases idx mood w') as [->| ->];
      [done|apply Halter].
  - unfold mismatchReset. cbn.
    rewrite (forEach_cardRefs_length (λ idx, setFeedback idx None))
      by (intros; apply Halter).
    apply forEach_cardRefs_length. intros. apply Halter.
  - apply forEach_cardRefs_length. intros. apply Halter.
Qed.

(** A flash arms its own end; no other callback arms anything. *)
Lemma runCallback_timeouts cb w :
  timeouts (runCallback cb w)
  = match cb with
    | CbFlash indices mood duration =>
        timeouts w ++ [((now w + duration)%Z, CbFlashEnd indices mood)]
    | _ => timeouts w
    end.
Proof.
  destruct cb as [indices mood duration|indices mood|indices|indices];
    cbn [runCallback].
  - unfold flashFeedback, setTimeout. cbn.
    rewrite forEach_timeouts by done. by rewrite forEach_now.
  - unfold flashFeedbackEnd. apply forEach_timeouts. intros idx w'.
    by destruct (flashFeedbackEnd_step_cases idx mood w') as [->| ->].
  - unfold mismatchReset. cbn.
    rewrite !(forEach_timeouts (λ idx, setFeedback idx None)) by done.
    by rewrite !(forEach_timeouts (λ idx, setCardVisualState idx Idle)).
  - by apply forEach_timeouts.
Qed.

Lemma fireTimeout_state k w :
  state (fireTimeout k w)
  = match timeouts w !! k with
    | Some (due, CbMismatchReset _) =>
        if bool_decide (due ≤ now w)%Z
        then set_locked false (set_flipped [] (state w))
        else state w
    | _ => state w
    end.
Proof.
  unfold fireTimeout. destruct (timeouts w !! k) as [[due cb]|]; [|done].
  case_bool_decide; rewrite ?runCallback_state; by destruct cb.
Qed.

Lemma fireTick_state w :
  state (fireTick w) = state w
  ∨ ∃ elapsed, state (fireTick w) = set_elapsedMs elapsed (state w).
Proof.
  unfold fireTick, tickTimer. destruct (timerHandle w) as [due|]; [|by left].
  case_bool_decide; [|by left]. cbn.
  destruct (runningSince (state w)); [right; by eexists|by left].
Qed.

(** ** Board and reset *)

Lemma rebuildBoard_state w : state (rebuildBoard w) = state w.
Proof.
  unfold rebuildBoard.
  rewrite forEach_state; [done|]. intros index w'. by case_bool_decide.
Qed.

Lemma rebuildBoard_now w : now (rebuildBoard w) = now w.
Proof.
  unfold rebuildBoard.
  rewrite forEach_now; [done|]. intros index w'. by case_bool_decide.
Qed.

Lemma rebuildBoard_timerHandle w : timerHandle (rebuildBoard w) = timerHandle w.
Proof.
  unfold rebuildBoard.
  rewrite forEach_timerHandle; [done|]. intros index w'. by case_bool_decide.
Qed.

Lemma rebuildBoard_cardRefs_length w :
  length (cardRefs (rebuildBoard w)) = length (deck (state w)).
Proof.
  assert (H : ∀ l w0,
    length (cardRefs (forEach
      (λ index w',
         let w'' := set_cardRefs (cardRefs w' ++ [freshCard]) w' in
         if bool_decide (index ∈ matched (state w''))
         then setTimeout (CbMarkMatched [index]) 0%Z w''
         else w'') l w0))
    = length (cardRefs w0) + length l).
  { induction l as [|x l IH]; intros w0.
    - cbn. lia.
    - unfold forEach in *. cbn [fold_left]. rewrite IH.
      case_bool_decide; cbn; rewrite length_app; cbn; lia. }
  unfold rebuildBoard. by rewrite H, length_seq.
Qed.

(** With an empty matched set the board arms no callback. *)
Lemma rebuildBoard_timeouts w :
  matched (state w) = [] → timeouts (rebuildBoard w) = timeouts w.
Proof.
  intros Hm. unfold rebuildBoard.
  apply (forEach_ind
    (λ w', state w' = state w ∧ timeouts w' = timeouts w)); [done|].
  intros index w' [Hs Ht].
  rewrite bool_decide_eq_false_2; [done|].
  cbn. rewrite Hs, Hm. apply not_elem_of_nil.
Qed.

Section SoftReset.
Variables (level : DifficultyKey) (rnd : list nat) (w : World).

Lemma softReset_state :
  state (softReset level rnd w)
  = {| difficulty := level;
       deck := (buildDeck (difficulties level) rnd).1;
       matched := []; moves := 0; elapsedMs := 0%Z; runningSince := None;
       bestTimes := bestTimes (state w);
       flipped := []; locked := false; victory := false |}.
Proof.
  unfold softReset. rewrite rebuildBoard_state.
  unfold stopTimer. cbn. by destruct (runningSince (state w)).
Qed.

Lemma softReset_timeouts : timeouts (softReset level rnd w) = timeouts w.
Proof.
  unfold softReset. rewrite rebuildBoard_timeouts by done.
  unfold stopTimer. cbn. by destruct (runningSince (state w)).
Qed.

Lemma softReset_timerHandle : timerHandle (softReset level rnd w) = None.
Proof.
  unfold softReset. rewrite rebuildBoard_timerHandle.
  unfold stopTimer. cbn. by destruct (runningSince (state w)).
Qed.

Lemma softReset_now : now (softReset level rnd w) = now w.
Proof.
  unfold softReset. rewrite rebuildBoard_now.
  unfold stopTimer. cbn. by destruct (runningSince (state w)).
Qed.

Lemma softReset_cardRefs_length :
  length (cardRefs (softReset level rnd w))
  = length (buildDeck (difficulties level) rnd).1.
Proof.
  unfold softReset. rewrite rebuildBoard_cardRefs_length.
  unfold stopTimer. cbn. by destruct (runningSince (state w)).
Qed.
End SoftReset.

Lemma pools_NoDup level : NoDup (pool (difficulties level)).
Proof. destruct level; apply (bool_decide_unpack _); by vm_compute. Qed.

Lemma pools_large_enough level :
  pairs (difficulties level) ≤ length (pool (difficulties level)).
Proof. destruct level; cbn; lia. Qed.

Lemma registered_deck_length level rnd :
  length (buildDeck (difficulties level) rnd).1
  = 2 * pairs (difficulties level).
Proof. apply buildDeck_length, pools_large_enough. Qed.

Lemma registered_deck_nonempty level rnd :
  length (buildDeck (difficulties level) rnd).1 ≠ 0.
Proof. rewrite registered_deck_length. destruct level; cbn; lia. Qed.

Lemma initialWorld_state rnd t0 :
  state (initialWorld rnd t0) = createInitialState rnd.
Proof. unfold initialWorld. by rewrite rebuildBoard_state. Qed.

(** ** Victory tracking along every run *)

Lemma victory_tracks_frame s s' :
  matched s' = matched s → deck s' = deck s → victory s' = victory s →
  victory_tracks s → victory_tracks s'.
Proof. unfold victory_tracks. by intros -> -> ->. Qed.

Lemma handleFlip_victory_tracks index w :
  victory_tracks (state w) → victory_tracks (state (handleFlip index w)).
Proof.
  intros Hinv.
  destruct (rejected index (state w)) eqn:Hrej.
  { by rewrite handleFlip_guards. }
  destruct (decide (length (flipped (state w) ++ [index]) = 2)) as [Hlen|Hlen].
  - destruct (flipped (state w)) as [|first [|? ?]] eqn:Hfl;
      [done| |rewrite length_app in Hlen; cbn in Hlen; lia].
    rewrite (handleFlip_completes index first) by done. cbn zeta.
    destruct (_ || _); [|case_bool_decide].
    + revert Hinv. apply victory_tracks_frame;
        [exact (revealed_matched index w)|exact (revealed_deck index w)
        |exact (revealed_victory index w)].
    + destruct Hinv as [Heven Hvic].
      apply rejected_false in Hrej as [_ [Hv _]].
      unfold victory_tracks.
      rewrite checkVictory_matched, checkVictory_deck, checkVictory_victory.
      cbn [state upd_state setTimeout set_timeouts count_move
           matched victory deck set_flipped set_matched set_moves].
      rewrite revealed_matched, revealed_deck, revealed_victory, Hv.
      split; [|done].
      rewrite length_app. cbn [length].
      destruct Heven as [n ->]. exists (n + 1). lia.
    + revert Hinv. apply victory_tracks_frame;
        [exact (revealed_matched index w)|exact (revealed_deck index w)
        |exact (revealed_victory index w)].
  - rewrite handleFlip_opens by done.
    revert Hinv. apply victory_tracks_frame;
      [exact (revealed_matched index w)|exact (revealed_deck index w)
      |exact (revealed_victory index w)].
Qed.

Lemma step_victory_tracks e w :
  victory_tracks (state w) → victory_tracks (state (step e w)).
Proof.
  intros Hinv. destruct e as [index|level rnd|dt|k|]; cbn [step].
  - case_bool_decide; [by apply handleFlip_victory_tracks|done].
  - rewrite softReset_state. split; cbn.
    + exists 0. lia.
    + symmetry. apply bool_decide_eq_false_2.
      intros H. by apply (registered_deck_nonempty level rnd).
  - done.
  - rewrite fireTimeout_state.
    destruct (timeouts w !! k) as [[due []]|]; try done.
    by case_bool_decide.
  - destruct (fireTick_state w) as [->|[elapsed ->]]; done.
Qed.

Lemma initialWorld_victory_tracks rnd t0 :
  victory_tracks (state (initialWorld rnd t0)).
Proof.
  rewrite initialWorld_state. split; cbn.
  - exists 0. lia.
  - symmetry. apply bool_decide_eq_false_2.
    intros H. by apply (registered_deck_nonempty chill rnd).
Qed.

Lemma run_app evs1 evs2 w : run (evs1 ++ evs2) w = run evs2 (run evs1 w).
Proof. apply fold_left_app. Qed.

Lemma run_snoc evs e w : run (evs ++ [e]) w = step e (run evs w).
Proof. by rewrite run_app. Qed.

(** C7. After any sequence of events (reveals, resets with any shuffle,
    passing time, callbacks and ticks running) from a freshly initialised
    page, the matched set has even size and [victory] is true exactly when
    the matched set is as large as the deck. *)
Theorem victory_tracks_always (rnd : list nat) (t0 : Z) (evs : list Event) :
  victory_tracks (state (run evs (initialWorld rnd t0))).
Proof.
  induction evs as [|e evs IH] using rev_ind.
  - apply initialWorld_victory_tracks.
  - rewrite run_snoc. by apply step_victory_tracks.
Qed.

(** ** Best times *)

(** [reset] leaves the best times alone. *)
Lemma softReset_bestTimes level rnd w :
  bestTimes (state (softReset level rnd w)) = bestTimes (state w).
Proof. by rewrite softReset_state. Qed.

(** With no stored best, or a stored best other than 0, [handleWin]
    updates exactly when the duration is strictly better. *)
Lemma handleWin_bestTimes w :
  let duration := elapsedMs (state (handleWin w)) in
  let level := difficulty (state w) in
  match bestTimes (state w) !! level with
  | None =>
      bestTimes (state (handleWin w))
      = <[level := duration]> (bestTimes (state w))
  | Some best =>
      best ≠ 0%Z →
      bestTimes (state (handleWin w))
      = if bool_decide (duration < best)%Z
        then <[level := duration]> (bestTimes (state w))
        else bestTimes (state w)
  end.
Proof.
  cbn zeta. unfold handleWin, stopTimer.
  destruct (runningSince (state w)) as [since|] eqn:Hrun; cbn;
    rewrite ?Hrun; cbn;
    (destruct (bestTimes (state w) !! difficulty (state w)) as [best|];
     cbn; [|done]; intros Hbest;
     rewrite (bool_decide_eq_false_2 (best = 0%Z)) by done; cbn [orb];
     destruct (bool_decide _) eqn:Hlt; cbn; by rewrite ?Hlt).
Qed.

(** C2 (the code departs from the claim). A win that takes 0 ms stores the
    best time 0; [handleWin] then takes that entry for a missing one
    ([!previousBest] is true for 0), so a later, slower win overwrites it:
    the best time for "chill" goes from 0 up to 5000. *)
Theorem best_time_zero_overwritten :
  let w1 := run winning_clicks (initialWorld [] 0) in
  let w2 := run (EReset chill [] :: slow_winning_clicks) w1 in
  victory (state w1) = true
  ∧ bestTimes (state w1) !! chill = Some 0%Z
  ∧ victory (state w2) = true
  ∧ elapsedMs (state w2) = 5000%Z
  ∧ bestTimes (state w2) !! chill = Some 5000%Z.
Proof. vm_compute. repeat split; reflexivity. Qed.

(** ** The lock and its unlocking callback *)

Lemma pending_resets_app_other w q :
  Forall (λ p, ¬ is_mismatch_reset p) q →
  filter is_mismatch_reset (timeouts w ++ q) = pending_resets w.
Proof.
  intros Hq. rewrite filter_app.
  assert (filter is_mismatch_reset q = []) as ->; [|by rewrite app_nil_r].
  induction Hq as [|p q Hp Hq IH]; [done|].
  by rewrite filter_cons_False.
Qed.

Lemma filter_delete_other (q : list (Z * Callback)) k p :
  q !! k = Some p → ¬ is_mismatch_reset p →
  filter is_mismatch_reset (delete k q) = filter is_mismatch_reset q.
Proof.
  intros Hk Hp. rewrite <- (take_drop_middle q k p Hk) at 2.
  rewrite delete_take_drop, !filter_app.
  by rewrite (filter_cons_False _ _ _ Hp).
Qed.

Lemma filter_delete_only (q : list (Z * Callback)) k p p' :
  q !! k = Some p → is_mismatch_reset p →
  filter is_mismatch_reset q = [p'] →
  p = p' ∧ filter is_mismatch_reset (delete k q) = [].
Proof.
  intros Hk Hp. rewrite <- (take_drop_middle q k p Hk) at 1.
  rewrite delete_take_drop, !filter_app.
  rewrite (filter_cons_True _ _ _ Hp). intros Heq.
  destruct (filter is_mismatch_reset (take k q)) as [|x l]; cbn in *.
  - injection Heq as -> ->. done.
  - injection Heq as -> Heq. by destruct l.
Qed.

Lemma handleFlip_mismatch_eq index first w :
  is_mismatch index first w →
  handleFlip index w
  = queueMismatchReset [first; index] (count_move (revealed index w)).
Proof.
  intros (Hrej & Hfl & s1 & s2 & H1 & H2 & Hs1 & Hs2 & Hne).
  rewrite (handleFlip_completes index first) by done. cbn zeta.
  rewrite H1, H2. cbn [falsy_symbol].
  rewrite !bool_decide_eq_false_2 by congruence. done.
Qed.

Lemma handleFlip_lock_consistent index w :
  lock_consistent w → lock_consistent (handleFlip index w).
Proof.
  intros [Hdisj Hlock].
  destruct (rejected index (state w)) eqn:Hrej.
  { by rewrite handleFlip_guards. }
  pose proof Hrej as (Hl & Hv & Hf & Hm)%rejected_false.
  rewrite Hl in Hlock.
  destruct (decide (length (flipped (state w) ++ [index]) = 2)) as [Hlen|Hlen].
  - destruct (flipped (state w)) as [|first [|? ?]] eqn:Hfl;
      [done| |rewrite length_app in Hlen; cbn in Hlen; lia].
    rewrite (handleFlip_completes index first) by done. cbn zeta.
    destruct (_ || _); [|case_bool_decide].
    + split; cbn [state upd_state flipped set_flipped set_locked locked];
        [constructor|].
      unfold pending_resets. cbn [timeouts upd_state count_move].
      by rewrite revealed_timeouts.
    + unfold lock_consistent.
      rewrite checkVictory_flipped, checkVictory_locked.
      cbn [state upd_state flipped set_flipped locked setTimeout
           set_timeouts count_move set_matched set_moves].
      rewrite revealed_locked, Hl. split; [constructor|].
      unfold pending_resets. rewrite checkVictory_timeouts.
      cbn [timeouts upd_state setTimeout set_timeouts count_move].
      rewrite revealed_timeouts, <- app_assoc.
      rewrite pending_resets_app_other; [done|].
      repeat constructor; by intros [].
    + split.
      * cbn [state upd_state queueMismatchReset setTimeout set_timeouts
             count_move flipped matched set_locked set_moves].
        rewrite revealed_flipped, revealed_matched, Hfl. cbn [app].
        inversion_clear Hdisj. repeat constructor; done.
      * cbn [state upd_state queueMismatchReset setTimeout set_timeouts
             count_move flipped victory locked set_locked set_moves].
        rewrite revealed_flipped, revealed_victory, Hfl. cbn [app].
        split; [done|]. split; [done|]. eexists.
        unfold pending_resets.
        cbn [timeouts upd_state queueMismatchReset setTimeout set_timeouts
             count_move flipped state set_locked set_moves].
        rewrite revealed_timeouts.
        rewrite filter_app, filter_cons_True by done.
        rewrite (pending_resets_app_other w) by (repeat constructor; by intros []).
        by rewrite Hlock.
  - rewrite handleFlip_opens by done. unfold lock_consistent.
    rewrite revealed_flipped, revealed_matched, revealed_locked, Hl.
    split; [apply Forall_app; split; [done|by constructor]|].
    unfold pending_resets. by rewrite revealed_timeouts.
Qed.

Lemma fireTimeout_cases k w :
  fireTimeout k w = w
  ∨ ∃ due cb,
      timeouts w !! k = Some (due, cb) ∧ (due ≤ now w)%Z
      ∧ fireTimeout k w
        = runCallback cb (set_timeouts (delete k (timeouts w)) w).
Proof.
  unfold fireTimeout. destruct (timeouts w !! k) as [[due cb]|]; [|by left].
  case_bool_decide; [right; by exists due, cb|by left].
Qed.

Lemma runCallback_pending_resets cb w :
  pending_resets (runCallback cb w) = pending_resets w.
Proof.
  unfold pending_resets. rewrite runCallback_timeouts.
  destruct cb; try done.
  apply pending_resets_app_other. repeat constructor. by intros [].
Qed.

Lemma fireTimeout_lock_consistent k w :
  lock_consistent w → lock_consistent (fireTimeout k w).
Proof.
  intros [Hdisj Hlock].
  destruct (fireTimeout_cases k w) as [->|(due & cb & Hk & Hdue & ->)];
    [done|].
  unfold lock_consistent.
  rewrite runCallback_pending_resets, runCallback_state.
  unfold pending_resets. cbn [timeouts set_timeouts state].
  destruct (decide (is_mismatch_reset (due, cb))) as [Hcb|Hcb].
  - destruct cb; try done. cbn [flipped locked set_locked set_flipped].
    split; [constructor|].
    destruct (locked (state w)).
    + destruct Hlock as (_ & _ & due' & Hpending).
      by destruct (filter_delete_only _ _ _ _ Hk Hcb Hpending).
    + assert (Hin : (due, CbMismatchReset indices) ∈ pending_resets w).
      { apply list_elem_of_filter. split; [done|].
        by eapply list_elem_of_lookup_2. }
      rewrite Hlock in Hin. by apply elem_of_nil in Hin.
  - rewrite (filter_delete_other _ _ _ Hk Hcb).
    by destruct cb.
Qed.

Lemma fireTick_lock_consistent w :
  lock_consistent w → lock_consistent (fireTick w).
Proof.
  intros Hinv.
  assert (Ht : timeouts (fireTick w) = timeouts w).
  { unfold fireTick, tickTimer. destruct (timerHandle w); [|done].
    case_bool_decide; [|done]. cbn. by destruct (runningSince (state w)). }
  unfold lock_consistent, pending_resets. rewrite Ht.
  by destruct (fireTick_state w) as [->|[elapsed ->]].
Qed.

(** A reset keeps the agreement when it comes at a moment without an open
    mismatch window. *)
Lemma softReset_lock_consistent level rnd w :
  lock_consistent w → locked (state w) = false →
  lock_consistent (softReset level rnd w).
Proof.
  intros [_ Hlock] Hl. rewrite Hl in Hlock.
  unfold lock_consistent, pending_resets.
  rewrite softReset_timeouts, softReset_state. cbn.
  split; [constructor|done].
Qed.

Lemma step_lock_consistent e w :
  is_reset e = false → lock_consistent w → lock_consistent (step e w).
Proof.
  intros He Hinv. destruct e as [index|level rnd|dt|k|]; cbn [step].
  - case_bool_decide; [by apply handleFlip_lock_consistent|done].
  - done.
  - done.
  - by apply fireTimeout_lock_consistent.
  - by apply fireTick_lock_consistent.
Qed.

Lemma initialWorld_lock_consistent rnd t0 :
  lock_consistent (initialWorld rnd t0).
Proof.
  unfold lock_consistent, pending_resets, initialWorld.
  rewrite rebuildBoard_state, rebuildBoard_timeouts by done. cbn.
  split; [constructor|done].
Qed.

(** Without resets the lock and its callback agree throughout. *)
Lemma run_lock_consistent evs w :
  Forall (λ e, is_reset e = false) evs →
  lock_consistent w → lock_consistent (run evs w).
Proof.
  intros Hevs. revert w.
  induction Hevs as [|e evs He Hevs IH]; intros w Hinv; [done|].
  cbn [run fold_left]. apply IH. by apply step_lock_consistent.
Qed.

(** More generally, they agree on every page reached from the initial one
    as long as no reset is issued during an open mismatch window. *)
Lemma run_lock_consistent_resets evs w :
  resets_outside_windows evs w →
  lock_consistent w → lock_consistent (run evs w).
Proof.
  revert w. induction evs as [|e evs IH]; intros w Hevs Hinv; [done|].
  destruct Hevs as [He Hevs]. cbn [run fold_left]. apply IH; [done|].
  destruct (is_reset e) eqn:Hreset.
  - destruct e; try done. cbn [step]. apply softReset_lock_consistent; auto.
  - by apply step_lock_consistent.
Qed.

(** The clock never runs backwards. *)
Lemma step_now e w : (now w ≤ now (step e w))%Z.
Proof.
  destruct e as [index|level rnd|dt|k|]; cbn [step].
  - case_bool_decide; [|done].
    destruct (rejected index (state w)) eqn:Hrej.
    { by rewrite handleFlip_guards. }
    destruct (decide (length (flipped (state w) ++ [index]) = 2))
      as [Hlen|Hlen].
    + destruct (flipped (state w)) as [|first [|? ?]] eqn:Hfl;
        [done| |rewrite length_app in Hlen; cbn in Hlen; lia].
      rewrite (handleFlip_completes index first) by done. cbn zeta.
      destruct (_ || _); [|case_bool_decide];
        rewrite ?checkVictory_now; cbn [now]; by rewrite <- (revealed_now index w).
    + rewrite handleFlip_opens by done. by rewrite revealed_now.
  - by rewrite softReset_now.
  - cbn. lia.
  - destruct (fireTimeout_cases k w) as [->|(due & cb & Hk & Hdue & ->)];
      [done|]. by rewrite runCallback_now.
  - unfold fireTick, tickTimer. destruct (timerHandle w); [|done].
    case_bool_decide; [|done]. cbn. by destruct (runningSince (state w)).
Qed.

Lemma run_now evs w : (now w ≤ now (run evs w))%Z.
Proof.
  revert w. induction evs as [|e evs IH]; intros w; [done|].
  cbn [run fold_left]. etrans; [apply (step_now e)|apply IH].
Qed.

(** ** The mismatch window *)

Section Window.
Variables (first index : nat) (due : Z) (m : list nat) (n : nat).

Lemma window_frame w w' :
  state w' = state w ∨ (∃ elapsed, state w' = set_elapsedMs elapsed (state w)) →
  pending_resets w' = pending_resets w →
  window_open first index due m n w →
  window_open first index due m n w'.
Proof.
  unfold window_open. intros [->|[elapsed ->]] ->; done.
Qed.

(** While the window is open every reveal is rejected. *)
Lemma window_rejects w i :
  window_open first index due m n w → handleFlip i w = w.
Proof.
  intros (Hl & _). apply handleFlip_guards, rejected_true. by left.
Qed.

(** Only the unlocking callback, run when it is due, closes the window;
    clicks, passing time, ticks and the cosmetic callbacks keep it
    open. *)
Lemma window_step e w :
  is_reset e = false → window_open first index due m n w →
  window_open first index due m n (step e w)
  ∨ ∃ k, e = EFire k
         ∧ timeouts w !! k = Some (due, CbMismatchReset [first; index])
         ∧ (due ≤ now w)%Z.
Proof.
  intros He Hwin. destruct e as [i|level rnd|dt|k|]; cbn [step].
  - left. case_bool_decide; [|done]. by rewrite window_rejects.
  - done.
  - left. revert Hwin. apply window_frame; [by left|done].
  - destruct (fireTimeout_cases k w) as [->|(due' & cb & Hk & Hdue & ->)];
      [by left|].
    destruct (decide (is_mismatch_reset (due', cb))) as [Hcb|Hcb].
    + right. exists k. split; [done|].
      destruct Hwin as (_ & _ & _ & _ & _ & Hpending).
      destruct (filter_delete_only _ _ _ _ Hk Hcb Hpending) as [Heq _].
      injection Heq as -> ->. done.
    + left. revert Hwin. apply window_frame.
      * left. rewrite runCallback_state. by destruct cb.
      * rewrite runCallback_pending_resets. unfold pending_resets.
        cbn [timeouts set_timeouts].
        apply (filter_delete_other _ _ _ Hk Hcb).
  - left. revert Hwin. apply window_frame; [apply fireTick_state|].
    unfold pending_resets, fireTick, tickTimer.
    destruct (timerHandle w); [|done].
    case_bool_decide; [|done]. cbn. by destruct (runningSince (state w)).
Qed.

(** What the unlocking callback does when it runs. *)
Lemma window_closes k w :
  first ≠ index → first ∉ m → index ∉ m →
  window_open first index due m n w →
  timeouts w !! k = Some (due, CbMismatchReset [first; index]) →
  (due ≤ now w)%Z →
  window_closed first index m (fireTimeout k w).
Proof.
  unfold window_closed. intros Hne Hfirst Hindex (Hl & Hv & Hfl & Hm & Hn & Hpending) Hk Hdue.
  assert (Hstate : state (fireTimeout k w)
                   = set_locked false (set_flipped [] (state w))).
  { rewrite fireTimeout_state, Hk. by rewrite bool_decide_eq_true_2. }
  assert (Hcards : ∀ i, i = first ∨ i = index →
            card_shows i Idle (fireTimeout k w)).
  { intros i Hi card. unfold fireTimeout. rewrite Hk.
    rewrite bool_decide_eq_true_2 by done.
    cbn [runCallback mismatchReset forEach fold_left setFeedback
         setCardVisualState set_cardRefs cardRefs upd_state set_timeouts].
    destruct Hi as [-> | ->].
    - rewrite list_lookup_alter_ne, list_lookup_alter_eq by done.
      rewrite list_lookup_alter_ne, list_lookup_alter_eq by done.
      destruct (cardRefs w !! first); cbn; [|done]. by intros [= <-].
    - rewrite list_lookup_alter_eq, list_lookup_alter_ne by done.
      rewrite list_lookup_alter_eq, list_lookup_alter_ne by done.
      destruct (cardRefs w !! index); cbn; [|done]. by intros [= <-]. }
  rewrite Hstate. cbn [flipped locked matched set_locked set_flipped].
  split_and!; [done|done|done|by apply Hcards; left|by apply Hcards; right
              |apply rejected_false|apply rejected_false];
    cbn [flipped locked matched victory set_locked set_flipped];
    rewrite Hv, Hm; split_and!; try done; apply not_elem_of_nil.
Qed.
End Window.

Lemma handleFlip_opens_window index first w :
  lock_consistent w → is_mismatch index first w →
  window_open first index (now w + MISMATCH_RESET_DELAY)%Z
    (matched (state w)) (moves (state w) + 1) (handleFlip index w).
Proof.
  intros [_ Hlock] Hmis. rewrite (handleFlip_mismatch_eq index first) by done.
  destruct Hmis as (Hrej & Hfl & _).
  apply rejected_false in Hrej as (Hl & Hv & _). rewrite Hl in Hlock.
  unfold window_open, pending_resets.
  cbn [state upd_state queueMismatchReset setTimeout set_timeouts count_move
       flipped matched moves victory locked set_locked set_moves timeouts
       now].
  rewrite revealed_flipped, revealed_victory, revealed_matched,
    revealed_moves, revealed_timeouts, revealed_now, Hfl, Hv.
  split_and!; try done.
  rewrite filter_app, filter_cons_True by done.
  rewrite (pending_resets_app_other w) by (repeat constructor; by intros []).
  by rewrite Hlock.
Qed.

(** C8 (as amended). Take a page on which the lock and the armed unlocking
    callbacks agree, which is every page reached without a reset during an
    open mismatch window, and a reveal that completes a turn on two
    different symbols at time [t]. Then:
    - that call sets [locked], with the unlocking callback armed for
      [t + MISMATCH_RESET_DELAY];
    - after any events other than a reset, as long as the clock is before
      that time, the window is still open (same flip buffer, matched set
      and move count) and every reveal is rejected;
    - whatever runs meanwhile (ticks, the cosmetic flash callbacks), the
      window stays open until the unlocking callback itself runs, at or
      after its due time; at that moment the flip buffer is empty,
      [locked] is false, the matched set is unchanged, both cards are
      displayed hidden, and each of the two positions would be accepted by
      a reveal. *)
Theorem mismatch_window (w : World) (index first : nat) :
  lock_consistent w →
  is_mismatch index first w →
  let due := (now w + MISMATCH_RESET_DELAY)%Z in
  let m := matched (state w) in
  let n := moves (state w) + 1 in
  window_open first index due m n (handleFlip index w)
  ∧ ∀ evs, Forall (λ e, is_reset e = false) evs →
      ((now (run evs (handleFlip index w)) < due)%Z →
         window_open first index due m n (run evs (handleFlip index w))
         ∧ ∀ i, handleFlip i (run evs (handleFlip index w))
                = run evs (handleFlip index w))
      ∧ (window_open first index due m n (run evs (handleFlip index w))
         ∨ ∃ evs1 k evs2,
             evs = evs1 ++ EFire k :: evs2
             ∧ window_open first index due m n
                 (run evs1 (handleFlip index w))
             ∧ timeouts (run evs1 (handleFlip index w)) !! k
               = Some (due, CbMismatchReset [first; index])
             ∧ (due ≤ now (run evs1 (handleFlip index w)))%Z
             ∧ window_closed first index m
                 (run (evs1 ++ [EFire k]) (handleFlip index w))).
Proof.
  intros Hinv Hmis due m n.
  assert (Hopen := handleFlip_opens_window index first w Hinv Hmis).
  fold due m n in Hopen. split; [done|].
  assert (Hne : first ≠ index ∧ (first ∉ m) ∧ (index ∉ m)).
  { destruct Hinv as [Hdisj _].
    destruct Hmis as ((_ & _ & Hf & Hm)%rejected_false & Hfl & _).
    rewrite Hfl in Hdisj, Hf. inversion_clear Hdisj.
    split_and!; [|done|done]. intros ->. apply Hf. by left. }
  destruct Hne as (Hne & Hfirst & Hindex).
  assert (Hmain : ∀ evs, Forall (λ e, is_reset e = false) evs →
    window_open first index due m n (run evs (handleFlip index w))
    ∨ ∃ evs1 k evs2,
        evs = evs1 ++ EFire k :: evs2
        ∧ window_open first index due m n (run evs1 (handleFlip index w))
        ∧ timeouts (run evs1 (handleFlip index w)) !! k
          = Some (due, CbMismatchReset [first; index])
        ∧ (due ≤ now (run evs1 (handleFlip index w)))%Z
        ∧ window_closed first index m
            (run (evs1 ++ [EFire k]) (handleFlip index w))).
  { induction evs as [|e evs IH] using rev_ind; intros Hevs; [by left|].
    apply Forall_app in Hevs as [Hevs He]. inversion_clear He as [|? ? He' _].
    destruct (IH Hevs) as [Hwin|(evs1 & k & evs2 & -> & Hrest)].
    - rewrite run_snoc.
      destruct (window_step _ _ _ _ _ e _ He' Hwin)
        as [Hwin'|(k & -> & Hk & Hdue)]; [by left|].
      right. exists evs, k, []. split_and!; try done.
      rewrite run_snoc. cbn [step]. by apply (window_closes _ _ due _ n).
    - right. exists evs1, k, (evs2 ++ [e]).
      split; [by rewrite <- app_assoc|done]. }
  intros evs Hevs. split; [|by apply Hmain].
  intros Hnow.
  destruct (Hmain evs Hevs) as [Hwin|(evs1 & k & evs2 & -> & _ & _ & Hdue & _)].
  - split; [done|]. intros i. by eapply window_rejects.
  - exfalso. rewrite run_app in Hnow.
    pose proof (run_now (EFire k :: evs2) (run evs1 (handleFlip index w))).
    lia.
Qed.

Lemma mismatch_window_witness :
  lock_consistent one_revealed
  ∧ is_mismatch 1 0 one_revealed
  ∧ window_open 0 1 (now one_revealed + MISMATCH_RESET_DELAY)%Z
      (matched (state one_revealed)) (moves (state one_revealed) + 1)
      (handleFlip 1 one_revealed)
  ∧ ∀ evs, Forall (λ e, is_reset e = false) evs →
      (now (run evs (handleFlip 1 one_revealed))
       < now one_revealed + MISMATCH_RESET_DELAY)%Z →
      ∀ i, handleFlip i (run evs (handleFlip 1 one_revealed))
           = run evs (handleFlip 1 one_revealed).
Proof.
  assert (Hinv : lock_consistent one_revealed).
  { split; vm_compute; [|reflexivity].
    repeat constructor. apply not_elem_of_nil. }
  assert (Hmis : is_mismatch 1 0 one_revealed).
  { split; [vm_compute; reflexivity|]. split; [vm_compute; reflexivity|].
    eexists _, _. split; [vm_compute; reflexivity|].
    split; [vm_compute; reflexivity|]. split_and!; discriminate. }
  pose proof (mismatch_window one_revealed 1 0 Hinv Hmis) as [Hopen Hruns].
  split; [exact Hinv|]. split; [exact Hmis|]. split; [exact Hopen|].
  intros evs Hevs Hnow. exact (proj2 (proj1 (Hruns evs Hevs) Hnow)).
Defined.

(** The long callback runs when due: the lock is off, the buffer empty, and
    the first position can be revealed again. *)
Example window_closes_on_time :
  let w := run [EClick 0; EClick 1; EElapse 1550; EFire 1]
               (initialWorld [] 0) in
  locked (state w) = false
  ∧ flipped (state w) = []
  ∧ matched (state w) = []
  ∧ moves (state w) = 1
  ∧ flipped (state (step (EClick 0) w)) = [0].
Proof. vm_compute. repeat split; reflexivity. Qed.

(** The short callback runs, the lock stays. *)
Example flash_keeps_lock :
  locked (state (run [EClick 0; EClick 1; EElapse 650; EFire 0]
                     (initialWorld [] 0))) = true.
Proof. vm_compute. reflexivity. Qed.

(** C8, counterexample to the claim as worded. A mismatch at time 0 is
    discarded by a reset at time 1000; the new session has a mismatch at
    once, at time 1000. At time 1550 the unlocking callback of the first
    session runs and unlocks the second, and a reveal is accepted 550 ms
    after the mismatch, 1000 ms before the full delay has passed. *)
Lemma stale_timer_unlocks_early : ¬ mismatch_locks_for_full_delay.
Proof.
  intros Hclaim.
  specialize (Hclaim [] 0%Z mismatch_after_reset 1 0
                [EElapse 550; EFire 1] 3).
  cbn zeta in Hclaim.
  assert (Hmis : is_mismatch 1 0 (run mismatch_after_reset (initialWorld [] 0))).
  { split; [vm_compute; reflexivity|]. split; [vm_compute; reflexivity|].
    eexists _, _. split; [vm_compute; reflexivity|].
    split; [vm_compute; reflexivity|]. split_and!; discriminate. }
  specialize (Hclaim Hmis).
  assert (Hevs : Forall (λ e, is_reset e = false) [EElapse 550; EFire 1])
    by (repeat constructor).
  specialize (Hclaim Hevs).
  assert (Hnow : (now (run [EElapse 550; EFire 1]
                        (handleFlip 1 (run mismatch_after_reset
                                         (initialWorld [] 0))))
                  < now (run mismatch_after_reset (initialWorld [] 0))
                    + MISMATCH_RESET_DELAY)%Z)
    by (vm_compute; reflexivity).
  specialize (Hclaim Hnow).
  apply (f_equal (λ w, flipped (state w))) in Hclaim.
  vm_compute in Hclaim. discriminate Hclaim.
Qed.

(** ** A reset during an open mismatch window *)

(** C1, counterexample to the claim as worded. One second after a mismatch
    the game is reset and one card of the new session is revealed; when the
    first session's unlocking callback runs, it empties the new session's
    flip buffer. *)
Lemma reset_does_not_invalidate : ¬ reset_invalidates_pending.
Proof.
  intros Hclaim.
  specialize (Hclaim [] 0%Z [EClick 0; EClick 1; EElapse 1000] chill []
                [EClick 0; EElapse 550] 1 1550%Z [0; 1]).
  cbn zeta in Hclaim.
  assert (Hin : (1550%Z, CbMismatchReset [0; 1])
                ∈ timeouts (run [EClick 0; EClick 1; EElapse 1000]
                              (initialWorld [] 0))).
  { apply (list_elem_of_lookup_2 _ 1). vm_compute. reflexivity. }
  specialize (Hclaim Hin).
  assert (Hk : timeouts
                 (run [EClick 0; EElapse 550]
                    (softReset chill []
                       (run [EClick 0; EClick 1; EElapse 1000]
                          (initialWorld [] 0)))) !! 1
               = Some (1550%Z, CbMismatchReset [0; 1]))
    by (vm_compute; reflexivity).
  specialize (Hclaim Hk).
  apply (f_equal flipped) in Hclaim.
  vm_compute in Hclaim. discriminate Hclaim.
Qed.

Example stale_timer_clears_new_buffer :
  flipped (state (run reset_during_window (initialWorld [] 0))) = [0]
  ∧ flipped (state (run (reset_during_window ++ [EFire 1])
                        (initialWorld [] 0))) = [].
Proof. vm_compute. split; reflexivity. Qed.

(** C1 (as amended). A reset does not cancel an armed unlocking callback:
    it is still armed after the reset. When it runs, in whatever session is
    then current, it empties the flip buffer and sets [locked] to false and
    writes nothing else of the game state: deck, matched set, move count,
    victory flag, timer fields, difficulty and best times stay as they
    are, and no position is put into the flip buffer or the matched set. *)
Theorem stale_unlock_after_reset
  (w : World) (level : DifficultyKey) (rnd : list nat)
  (due : Z) (indices : list nat) :
  (due, CbMismatchReset indices) ∈ timeouts w →
  (due, CbMismatchReset indices) ∈ timeouts (softReset level rnd w)
  ∧ ∀ w' k,
      timeouts w' !! k = Some (due, CbMismatchReset indices) →
      (due ≤ now w')%Z →
      state (fireTimeout k w')
      = set_locked false (set_flipped [] (state w')).
Proof.
  intros Hin. split; [by rewrite softReset_timeouts|].
  intros w' k Hk Hdue. rewrite fireTimeout_state, Hk.
  by rewrite bool_decide_eq_true_2.
Qed.

Lemma stale_unlock_after_reset_witness :
  (1550%Z, CbMismatchReset [0; 1]) ∈ timeouts mismatched_a_second_ago
  ∧ (1550%Z, CbMismatchReset [0; 1])
    ∈ timeouts (softReset chill [] mismatched_a_second_ago)
  ∧ ∀ w' k,
      timeouts w' !! k = Some (1550%Z, CbMismatchReset [0; 1]) →
      (1550 ≤ now w')%Z →
      state (fireTimeout k w')
      = set_locked false (set_flipped [] (state w')).
Proof.
  assert (Hin : (1550%Z, CbMismatchReset [0; 1])
                ∈ timeouts mismatched_a_second_ago).
  { apply (list_elem_of_lookup_2 _ 1). vm_compute. reflexivity. }
  split; [exact Hin|].
  exact (stale_unlock_after_reset mismatched_a_second_ago chill [] 1550%Z
           [0; 1] Hin).
Defined.

(** ** Waiting always ends *)

Lemma earliest_lookup q k d :
  earliest q = Some (k, d) → ∃ cb, q !! k = Some (d, cb).
Proof.
  revert k d. induction q as [|[due cb] q IH]; intros k d; [done|].
  cbn [earliest]. destruct (earliest q) as [[k' d']|].
  - case_bool_decide; intros [= <- <-]; [by apply IH|by exists cb].
  - intros [= <- <-]. by exists cb.
Qed.

Lemma next_due_cases target w d :
  next_due target w = Some d →
  match d with
  | DueTimeout k due =>
      (∃ cb, timeouts w !! k = Some (due, cb)) ∧ (due ≤ target)%Z
  | DueTick h => timerHandle w = Some h ∧ (h ≤ target)%Z
  end.
Proof.
  unfold next_due.
  destruct (earliest (timeouts w)) as [[k due]|] eqn:Hq;
    destruct (timerHandle w) as [h|];
    repeat case_bool_decide; intros [= <-];
    first [split; [by eapply earliest_lookup|done] | done].
Qed.

Lemma fire_due_timeout k due cb w :
  timeouts w !! k = Some (due, cb) →
  fire_due (DueTimeout k due) w
  = runCallback cb
      (set_timeouts (delete k (timeouts w)) (set_now (now w `max` due)%Z w)).
Proof.
  intros Hk. cbn [fire_due]. unfold fireTimeout.
  cbn [timeouts set_now now]. rewrite Hk.
  by rewrite bool_decide_eq_true_2 by lia.
Qed.

Lemma fire_due_tick h w :
  timerHandle w = Some h →
  fire_due (DueTick h) w
  = tickTimer
      (set_timerHandle (Some (h + 400)%Z) (set_now (now w `max` h)%Z w)).
Proof.
  intros Hh. cbn [fire_due]. unfold fireTick.
  cbn [timerHandle set_now now]. rewrite Hh.
  by rewrite bool_decide_eq_true_2 by lia.
Qed.

Lemma tickTimer_timeouts w : timeouts (tickTimer w) = timeouts w.
Proof. unfold tickTimer. by destruct (runningSince (state w)). Qed.

Lemma tickTimer_timerHandle w : timerHandle (tickTimer w) = timerHandle w.
Proof. unfold tickTimer. by destruct (runningSince (state w)). Qed.

Lemma tickTimer_cardRefs w : cardRefs (tickTimer w) = cardRefs w.
Proof. unfold tickTimer. by destruct (runningSince (state w)). Qed.

Lemma tickTimer_state w :
  ∃ elapsed, state (tickTimer w) = set_elapsedMs elapsed (state w).
Proof.
  unfold tickTimer. destruct (runningSince (state w)); cbn; [by eexists|].
  exists (elapsedMs (state w)). by destruct (state w).
Qed.

Lemma weight_delete (q : list (Z * Callback)) k p :
  q !! k = Some p →
  sum_list_with (λ p, callback_weight p.2) (delete k q) + callback_weight p.2
  = sum_list_with (λ p, callback_weight p.2) q.
Proof.
  intros Hk. rewrite <- (take_drop_middle q k p Hk) at 2.
  rewrite delete_take_drop, !sum_list_with_app. cbn. lia.
Qed.

Lemma ticks_before_next target h :
  (h ≤ target)%Z →
  ticks_before target (Some (h + 400)%Z) < ticks_before target (Some h).
Proof.
  intros Hh. unfold ticks_before.
  rewrite (bool_decide_eq_true_2 (h ≤ target)%Z) by done.
  case_bool_decide as Hnext; [|lia].
  replace (target - h)%Z with ((target - (h + 400)) + 1 * 400)%Z by lia.
  rewrite Z.div_add by lia.
  assert (0 ≤ (target - (h + 400)) / 400)%Z by (apply Z.div_pos; lia).
  lia.
Qed.

(** Every callback that runs uses up some of the fuel bound. *)
Lemma fire_due_fuel target w d :
  next_due target w = Some d →
  sleep_fuel target (fire_due d w) < sleep_fuel target w.
Proof.
  intros Hd. apply next_due_cases in Hd. unfold sleep_fuel.
  destruct d as [k due|h].
  - destruct Hd as [[cb Hk] Hdue]. rewrite (fire_due_timeout k due cb) by done.
    rewrite runCallback_timeouts, runCallback_timerHandle.
    cbn [timeouts timerHandle set_timeouts set_now].
    pose proof (weight_delete _ _ _ Hk) as Hw. cbn [snd] in Hw.
    destruct cb; rewrite ?sum_list_with_app; cbn in *; lia.
  - destruct Hd as [Hh Hle]. rewrite (fire_due_tick h) by done.
    rewrite tickTimer_timeouts, tickTimer_timerHandle.
    cbn [timeouts timerHandle set_timerHandle set_now]. rewrite Hh.
    pose proof (ticks_before_next target h Hle). lia.
Qed.

Lemma sleep_loop_total fuel target w :
  sleep_fuel target w ≤ fuel → is_Some (sleep_loop fuel target w).
Proof.
  revert w. induction fuel as [|fuel IH]; intros w Hfuel; cbn [sleep_loop];
    destruct (next_due target w) as [d|] eqn:Hd; try done.
  - apply fire_due_fuel in Hd. lia.
  - apply IH. apply fire_due_fuel in Hd. lia.
Qed.

(** [await sleep(duration)] returns, in every world. *)
Lemma sleep_total duration w : is_Some (sleep duration w).
Proof. by apply sleep_loop_total. Qed.

(** What holds before a wait, is kept by every callback that runs and does
    not depend on the clock, holds after the wait. *)
Lemma sleep_loop_ind (P : World → Prop) fuel target w w' :
  (∀ d w0, P w0 → next_due target w0 = Some d → P (fire_due d w0)) →
  (∀ t w0, P w0 → P (set_now t w0)) →
  P w → sleep_loop fuel target w = Some w' → P w'.
Proof.
  intros Hfire Hnow. revert w.
  induction fuel as [|fuel IH]; intros w Hw; cbn [sleep_loop];
    destruct (next_due target w) as [d|] eqn:Hd; try done.
  - intros [= <-]. by apply Hnow.
  - apply IH. by apply Hfire.
  - intros [= <-]. by apply Hnow.
Qed.

Lemma same_game_refl s : same_game s s.
Proof. exists (elapsedMs s). by destruct s. Qed.

Lemma same_game_trans s1 s2 s3 :
  same_game s1 s2 → same_game s2 s3 → same_game s1 s3.
Proof. intros [e1 ->] [e2 ->]. by exists e2. Qed.

(** With no unlocking callback armed, a wait returns and changes nothing of
    the game but the displayed time. *)
Lemma sleep_quiet duration w :
  pending_resets w = [] →
  ∃ w', sleep duration w = Some w'
        ∧ same_game (state w) (state w')
        ∧ pending_resets w' = []
        ∧ length (cardRefs w') = length (cardRefs w).
Proof.
  intros Hquiet. destruct (sleep_total duration w) as [w' Hw'].
  exists w'. split; [done|]. revert Hw'. unfold sleep.
  apply (sleep_loop_ind
    (λ w0, same_game (state w) (state w0)
           ∧ pending_resets w0 = []
           ∧ length (cardRefs w0) = length (cardRefs w))).
  - intros d w0 (Hgame & Hpending & Hcards) Hd.
    apply next_due_cases in Hd. destruct d as [k due|h].
    + destruct Hd as [[cb Hk] _]. rewrite (fire_due_timeout k due cb) by done.
      assert (Hcb : ¬ is_mismatch_reset (due, cb)).
      { intros Hcb. eapply (filter_nil_not_elem_of _ _ _ Hpending Hcb).
        by eapply list_elem_of_lookup_2. }
      rewrite runCallback_state, runCallback_cardRefs_length,
        runCallback_pending_resets.
      unfold pending_resets. cbn [state timeouts cardRefs set_timeouts set_now].
      rewrite (filter_delete_other _ _ _ Hk Hcb).
      split_and!; [|done|done]. by destruct cb.
    + destruct Hd as [Hh _]. rewrite (fire_due_tick h) by done.
      unfold pending_resets.
      rewrite tickTimer_timeouts, tickTimer_cardRefs.
      destruct (tickTimer_state
                  (set_timerHandle (Some (h + 400)%Z)
                     (set_now (now w0 `max` h)%Z w0))) as [e ->].
      cbn [state timeouts cardRefs set_timerHandle set_now].
      split_and!; [|done|done].
      eapply same_game_trans; [done|]. by exists e.
  - by intros t w0.
  - split_and!; [apply same_game_refl|done|done].
Qed.

(** ** The solver's choice of a pair *)

Lemma bucket_get_push symbol symbol0 index buckets :
  bucket_get symbol (bucket_push symbol0 index buckets)
  = bucket_get symbol buckets
    ++ (if bool_decide (symbol0 = symbol) then [index] else []).
Proof.
  induction buckets as [|[s g] rest IH]; cbn [bucket_push bucket_get].
  - by case_bool_decide.
  - repeat case_bool_decide; subst; cbn [bucket_get];
      rewrite ?bool_decide_eq_true_2 by done;
      rewrite ?bool_decide_eq_false_2 by done;
      rewrite ?app_nil_r; try done.
    all: rewrite IH, ?bool_decide_eq_false_2 by done; by rewrite ?app_nil_r.
Qed.

Lemma bucket_push_keys symbol index buckets :
  (bucket_push symbol index buckets).*1
  = if bool_decide (symbol ∈ buckets.*1) then buckets.*1
    else buckets.*1 ++ [symbol].
Proof.
  induction buckets as [|[s g] rest IH]; cbn [bucket_push fmap list_fmap fst].
  - rewrite bool_decide_eq_false_2; [done|apply not_elem_of_nil].
  - destruct (decide (s = symbol)) as [->|Hs].
    + rewrite (bool_decide_eq_true_2 (symbol = symbol)) by done.
      by rewrite bool_decide_eq_true_2 by by left.
    + rewrite (bool_decide_eq_false_2 (s = symbol)) by done.
      cbn [fmap list_fmap fst]. rewrite IH.
      destruct (decide (symbol ∈ rest.*1)) as [Hin|Hin].
      * rewrite (bool_decide_eq_true_2 (symbol ∈ rest.*1)) by done.
        by rewrite bool_decide_eq_true_2 by by right.
      * rewrite (bool_decide_eq_false_2 (symbol ∈ rest.*1)) by done.
        rewrite bool_decide_eq_false_2; [done|].
        rewrite elem_of_cons. intros [?|?]; congruence.
Qed.

Lemma bucket_push_NoDup symbol index buckets :
  NoDup buckets.*1 → NoDup (bucket_push symbol index buckets).*1.
Proof.
  intros Hnodup. rewrite bucket_push_keys. case_bool_decide; [done|].
  apply NoDup_app. split_and!; [done| |apply NoDup_singleton].
  intros x Hx ->%list_elem_of_singleton. done.
Qed.

Lemma bucket_push_nonempty symbol index buckets :
  Forall (λ b, b.2 ≠ []) buckets →
  Forall (λ b, b.2 ≠ []) (bucket_push symbol index buckets).
Proof.
  induction 1 as [|[s g] rest Hg Hrest IH]; cbn [bucket_push].
  - by repeat constructor.
  - case_bool_decide; constructor; try done.
    cbn. by destruct g.
Qed.

Lemma bucket_get_elem symbol g buckets :
  NoDup buckets.*1 → (symbol, g) ∈ buckets → bucket_get symbol buckets = g.
Proof.
  induction buckets as [|[s g'] rest IH]; [by intros _ ?%elem_of_nil|].
  cbn [fmap list_fmap fst bucket_get]. intros [Hs Hrest]%NoDup_cons.
  intros [[= <- <-]|Hin]%elem_of_cons.
  - by rewrite bool_decide_eq_true_2.
  - rewrite bool_decide_eq_false_2; [by apply IH|].
    intros ->. apply Hs. apply list_elem_of_fmap. by exists (symbol, g).
Qed.

Lemma first_pair_Some buckets a b :
  first_pair buckets = Some (a, b) →
  ∃ symbol rest, (symbol, a :: b :: rest) ∈ buckets.
Proof.
  induction buckets as [|[s g] rest IH]; [done|]. cbn [first_pair].
  destruct g as [|x [|y g]].
  - intros (symbol & r & Hin)%IH. exists symbol, r. by right.
  - intros (symbol & r & Hin)%IH. exists symbol, r. by right.
  - intros [= <- <-]. exists s, g. by left.
Qed.

Lemma first_pair_None buckets :
  first_pair buckets = None → Forall (λ b, length b.2 < 2) buckets.
Proof.
  induction buckets as [|[s g] rest IH]; [by constructor|]. cbn [first_pair].
  destruct g as [|x [|y g]]; [| |done];
    intros H; constructor; cbn; auto with lia.
Qed.

Lemma positions_elem d i symbol :
  (i, symbol) ∈ positions d ↔ d !! i = Some symbol.
Proof.
  unfold positions. rewrite elem_of_lookup_imap. split.
  - by intros (j & y & [= -> ->] & Hj).
  - intros Hi. by exists i, symbol.
Qed.

Lemma positions_fst d : (positions d).*1 = seq 0 (length d).
Proof.
  unfold positions. rewrite fmap_imap.
  rewrite (imap_ext _ (λ j _, j)) by done.
  by rewrite imap_seq_0, list_fmap_id.
Qed.

Lemma unmatched_elem s i symbol :
  (i, symbol) ∈ unmatched s
  ↔ (i ∉ matched s) ∧ deck s !! i = Some symbol.
Proof.
  unfold unmatched. by rewrite list_elem_of_filter, positions_elem.
Qed.

Lemma unmatched_NoDup s : NoDup (unmatched s).*1.
Proof.
  apply (sublist_NoDup _ (positions (deck s)).*1).
  - rewrite positions_fst. apply NoDup_seq.
  - apply fmap_sublist, sublist_filter.
Qed.

Lemma group_elem symbol l i : i ∈ group symbol l ↔ (i, symbol) ∈ l.
Proof.
  unfold group. rewrite list_elem_of_fmap. split.
  - intros ([j s] & -> & [Hs Hin]%list_elem_of_filter). cbn in *. by subst.
  - intros Hin. exists (i, symbol). split; [done|].
    by apply list_elem_of_filter.
Qed.

Lemma group_NoDup symbol l : NoDup l.*1 → NoDup (group symbol l).
Proof.
  intros Hl. apply (sublist_NoDup _ l.*1); [done|].
  apply fmap_sublist, sublist_filter.
Qed.

Lemma group_snoc symbol l i symbol0 :
  group symbol (l ++ [(i, symbol0)])
  = group symbol l ++ (if bool_decide (symbol0 = symbol) then [i] else []).
Proof.
  unfold group. rewrite filter_app, fmap_app. f_equal.
  case_bool_decide.
  - by rewrite filter_cons_True.
  - by rewrite filter_cons_False.
Qed.

Lemma collect_buckets_unmatched s :
  collect_buckets s
  = fold_left (λ buckets p, bucket_push p.2 p.1 buckets) (unmatched s) [].
Proof.
  unfold collect_buckets, unmatched.
  generalize (@nil (string * list nat)) as acc.
  fold (positions (deck s)).
  induction (positions (deck s)) as [|[i symbol] l IH]; intros acc; [done|].
  cbn [fold_left].
  rewrite filter_cons. cbn [fst]. case_bool_decide as Hi.
  - rewrite decide_False by (intros Hn; by apply Hn). apply IH.
  - rewrite decide_True by done. cbn [fold_left snd fst]. apply IH.
Qed.

Lemma collect_buckets_spec s :
  NoDup (collect_buckets s).*1
  ∧ Forall (λ b, b.2 ≠ []) (collect_buckets s)
  ∧ ∀ symbol,
      bucket_get symbol (collect_buckets s) = group symbol (unmatched s).
Proof.
  rewrite collect_buckets_unmatched.
  induction (unmatched s) as [|[i symbol0] l IH] using rev_ind.
  - split_and!; [constructor|constructor|done].
  - destruct IH as (Hnodup & Hnonempty & Hget).
    rewrite fold_left_app. cbn [fold_left fst snd].
    split_and!.
    + by apply bucket_push_NoDup.
    + by apply bucket_push_nonempty.
    + intros symbol. by rewrite bucket_get_push, Hget, group_snoc.
Qed.

(** Under the pairing invariant the solver picks the two unmatched
    positions of one symbol. *)
Lemma pickNextPair_Some s a b :
  (∀ symbol, length (group symbol (unmatched s)) = 0
             ∨ length (group symbol (unmatched s)) = 2) →
  pickNextPair s = Some (a, b) →
  ∃ symbol, group symbol (unmatched s) = [a; b].
Proof.
  intros Hpaired (symbol & rest & Hin)%first_pair_Some.
  destruct (collect_buckets_spec s) as (Hnodup & _ & Hget).
  exists symbol. rewrite <- Hget, (bucket_get_elem _ _ _ Hnodup Hin).
  destruct (Hpaired symbol) as [Hlen|Hlen];
    rewrite <- Hget, (bucket_get_elem _ _ _ Hnodup Hin) in Hlen;
    cbn in Hlen; [lia|]. by destruct rest.
Qed.

(** ... and finds a pair as long as a position is unmatched. *)
Lemma pickNextPair_None s :
  (∀ symbol, length (group symbol (unmatched s)) = 0
             ∨ length (group symbol (unmatched s)) = 2) →
  pickNextPair s = None → unmatched s = [].
Proof.
  intros Hpaired Hnone%first_pair_None.
  destruct (collect_buckets_spec s) as (Hnodup & Hnonempty & Hget).
  assert (Hempty : collect_buckets s = []).
  { destruct (collect_buckets s) as [|[symbol g] rest] eqn:Hbs; [done|].
    exfalso.
    assert (Hg : bucket_get symbol ((symbol, g) :: rest) = g).
    { cbn. by rewrite bool_decide_eq_true_2. }
    inversion_clear Hnone as [|? ? Hshort _].
    inversion_clear Hnonempty as [|? ? Hne _]. cbn in *.
    destruct (Hpaired symbol) as [Hlen|Hlen];
      rewrite <- Hget, Hg in Hlen; [by destruct g|lia]. }
  destruct (unmatched s) as [|[i symbol] l] eqn:Hl; [done|]. exfalso.
  assert (Hin : i ∈ group symbol ((i, symbol) :: l))
    by (apply group_elem; by left).
  rewrite <- Hget, Hempty in Hin. by apply elem_of_nil in Hin.
Qed.

Lemma filter_ext_elem {A} (P1 P2 : A → Prop)
  `{!∀ x, Decision (P1 x), !∀ x, Decision (P2 x)} (l : list A) :
  (∀ x, x ∈ l → P1 x ↔ P2 x) → filter P1 l = filter P2 l.
Proof.
  induction l as [|x l IH]; intros Hiff; [done|].
  assert (Hx : P1 x ↔ P2 x) by (apply Hiff; by left).
  assert (Hl : filter P1 l = filter P2 l).
  { apply IH. intros y Hy. apply Hiff. by right. }
  destruct (decide (P1 x)).
  - rewrite !filter_cons_True by tauto. by rewrite Hl.
  - rewrite !filter_cons_False by tauto. done.
Qed.

(** Matching the two positions of [symbol] removes exactly that symbol from
    the unmatched positions. *)
Lemma unmatched_after_pair s s' symbol a b :
  group symbol (unmatched s) = [a; b] →
  matched s' = matched s ++ [a; b] →
  deck s' = deck s →
  unmatched s' = filter (λ p, p.2 ≠ symbol) (unmatched s).
Proof.
  intros Hgroup Hmatched Hdeck. unfold unmatched.
  rewrite Hmatched, Hdeck, list_filter_filter.
  assert (Hab : ∀ i, (i, symbol) ∈ unmatched s ↔ i = a ∨ i = b).
  { intros i. rewrite <- group_elem, Hgroup.
    rewrite !elem_of_cons, elem_of_nil. tauto. }
  apply filter_ext_elem. intros [i t] Hin. cbn [fst snd].
  apply positions_elem in Hin.
  rewrite !not_elem_of_app, !not_elem_of_cons. split.
  - intros (Hm & Ha & Hb & _). split; [|done].
    intros ->. destruct (proj1 (Hab i)); [|done|done].
    by apply unmatched_elem.
  - intros [Ht Hm]. split_and!; [done| | |apply not_elem_of_nil].
    + intros ->. apply Ht.
      assert (Ha : (a, symbol) ∈ unmatched s) by (apply Hab; by left).
      apply unmatched_elem in Ha as [_ Ha]. congruence.
    + intros ->. apply Ht.
      assert (Hb : (b, symbol) ∈ unmatched s) by (apply Hab; by right).
      apply unmatched_elem in Hb as [_ Hb]. congruence.
Qed.

Lemma group_without symbol t (l : list (nat * string)) :
  group t (filter (λ p, p.2 ≠ symbol) l)
  = if bool_decide (t = symbol) then [] else group t l.
Proof.
  unfold group. rewrite list_filter_filter. case_bool_decide as Ht.
  - subst t. induction l as [|p l IH]; [done|].
    rewrite filter_cons_False by tauto. done.
  - f_equal. apply list_filter_iff. intros p. split; [tauto|].
    intros Hp. split; [done|congruence].
Qed.

Lemma length_without symbol (l : list (nat * string)) :
  length (filter (λ p, p.2 ≠ symbol) l) + length (group symbol l) = length l.
Proof.
  unfold group. rewrite length_fmap.
  rewrite <- (filter_app_complement (λ p, p.2 = symbol) l) at 3.
  rewrite length_app. lia.
Qed.

(** The matching branch of a completed turn, as an equation. *)
Lemma match_branch_eq index first symbol w :
  rejected index (state w) = false →
  flipped (state w) = [first] →
  deck (state w) !! first = Some symbol →
  deck (state w) !! index = Some symbol →
  symbol ≠ ""%string →
  handleFlip index w
  = checkVictory
      (upd_state (set_flipped [])
         (setTimeout (CbFlash [first; index] Good 2000%Z) FLIP_DURATION
            (setTimeout (CbMarkMatched [first; index]) 250%Z
               (upd_state (λ s, set_matched (matched s ++ [first; index]) s)
                  (count_move (revealed index w)))))).
Proof.
  intros Hrej Hfl Hfirst Hsecond Hne.
  rewrite (handleFlip_completes index first) by done. cbn zeta.
  rewrite Hfirst, Hsecond. cbn [falsy_symbol].
  rewrite (bool_decide_eq_false_2 (symbol = _)) by done. cbn [orb].
  by rewrite bool_decide_eq_true_2.
Qed.

(** Everything the matching branch does to the world. *)
Lemma match_branch_fields index first symbol w :
  rejected index (state w) = false →
  flipped (state w) = [first] →
  deck (state w) !! first = Some symbol →
  deck (state w) !! index = Some symbol →
  symbol ≠ ""%string →
  matched (state (handleFlip index w)) = matched (state w) ++ [first; index]
  ∧ flipped (state (handleFlip index w)) = []
  ∧ locked (state (handleFlip index w)) = false
  ∧ victory (state (handleFlip index w))
    = bool_decide (length (matched (state w) ++ [first; index])
                   = length (deck (state w)))
  ∧ moves (state (handleFlip index w)) = moves (state w) + 1
  ∧ deck (state (handleFlip index w)) = deck (state w)
  ∧ pending_resets (handleFlip index w) = pending_resets w
  ∧ length (cardRefs (handleFlip index w)) = length (cardRefs w).
Proof.
  intros Hrej Hfl Hfirst Hsecond Hne.
  pose proof Hrej as [Hl [Hv _]]%rejected_false.
  rewrite (match_branch_eq index first symbol) by done.
  unfold pending_resets.
  rewrite checkVictory_matched, checkVictory_flipped, checkVictory_locked,
    checkVictory_victory, checkVictory_deck, checkVictory_moves,
    checkVictory_timeouts, checkVictory_cardRefs.
  cbn [state upd_state setTimeout set_timeouts count_move timeouts cardRefs
       matched flipped locked victory deck moves
       set_flipped set_matched set_moves].
  rewrite revealed_matched, revealed_locked, revealed_victory, revealed_deck,
    revealed_moves, revealed_timeouts, revealed_cardRefs, Hl, Hv.
  split_and!; try done.
  - rewrite <- app_assoc. apply pending_resets_app_other.
    repeat constructor; by intros [].
  - apply length_alter.
Qed.

(** One round of the solver's loop: the pair it picks is a true pair, both
    reveals are accepted, and the round ends with the pair matched and the
    solver ready for the next one. *)
Lemma solver_round w a b :
  solver_ready w →
  victory (state w) = false →
  pickNextPair (state w) = Some (a, b) →
  ∃ w', flipPairAutomatically a b w = Some w'
        ∧ solver_ready w'
        ∧ moves (state w') = moves (state w) + 1
        ∧ length (unmatched (state w')) + 2 = length (unmatched (state w)).
Proof.
  intros (Hfl & Hl & Hpend & Hcards & Hsyms & Hvic & Hcount & Hpaired) Hv Hpick.
  destruct (pickNextPair_Some _ _ _ Hpaired Hpick) as [symbol Hgroup].
  assert (Ha : (a, symbol) ∈ unmatched (state w)).
  { apply group_elem. rewrite Hgroup. by left. }
  assert (Hb : (b, symbol) ∈ unmatched (state w)).
  { apply group_elem. rewrite Hgroup. right. by left. }
  apply unmatched_elem in Ha as [Ham Had].
  apply unmatched_elem in Hb as [Hbm Hbd].
  assert (Hab : a ≠ b).
  { pose proof (group_NoDup symbol _ (unmatched_NoDup (state w))) as Hnd.
    rewrite Hgroup in Hnd. apply NoDup_cons in Hnd as [Hnd _].
    intros ->. apply Hnd. by left. }
  assert (Hsym : symbol ≠ ""%string)
    by apply (Forall_lookup_1 _ _ _ _ Hsyms Had).
  assert (Hca : is_Some (cardRefs w !! a)).
  { apply lookup_lt_is_Some. rewrite Hcards. by eapply lookup_lt_Some. }
  assert (Hcb : is_Some (cardRefs w !! b)).
  { apply lookup_lt_is_Some. rewrite Hcards. by eapply lookup_lt_Some. }
  destruct Hca as [ca Hca], Hcb as [cb Hcb].
  unfold flipPairAutomatically. rewrite Hca, Hcb.
  (* the first reveal opens the turn *)
  assert (Hrej_a : rejected a (state w) = false).
  { apply rejected_false. rewrite Hfl.
    split_and!; [done|done|apply not_elem_of_nil|done]. }
  rewrite (handleFlip_opens a w Hrej_a) by (rewrite Hfl; cbn; lia).
  destruct (sleep_quiet (FLIP_DURATION + 120) (revealed a w))
    as (w1 & -> & [e1 Hs1] & Hp1 & Hc1).
  { unfold pending_resets. by rewrite revealed_timeouts. }
  cbn [mbind option_bind].
  (* the second reveal completes it on equal symbols *)
  assert (Hfl1 : flipped (state w1) = [a]).
  { rewrite Hs1. cbn [flipped set_elapsedMs].
    by rewrite revealed_flipped, Hfl. }
  assert (Hm1 : matched (state w1) = matched (state w)).
  { rewrite Hs1. cbn [matched set_elapsedMs]. apply revealed_matched. }
  assert (Hd1 : deck (state w1) = deck (state w)).
  { rewrite Hs1. cbn [deck set_elapsedMs]. apply revealed_deck. }
  assert (Hmv1 : moves (state w1) = moves (state w)).
  { rewrite Hs1. cbn [moves set_elapsedMs]. apply revealed_moves. }
  assert (Hrej_b : rejected b (state w1) = false).
  { apply rejected_false. rewrite Hfl1, Hm1, Hs1.
    cbn [locked victory set_elapsedMs].
    rewrite revealed_locked, revealed_victory.
    split_and!; [done|done| |done].
    rewrite not_elem_of_cons. split; [done|apply not_elem_of_nil]. }
  destruct (match_branch_fields b a symbol w1)
    as (Hm2 & Hfl2 & Hl2 & Hv2 & Hmv2 & Hd2 & Hp2 & Hc2);
    [done|done|by rewrite Hd1|by rewrite Hd1|done|].
  destruct (sleep_quiet WAIT_AFTER_MATCH (handleFlip b w1))
    as (w3 & -> & [e3 Hs3] & Hp3 & Hc3).
  { by rewrite Hp2. }
  exists w3. split; [done|].
  assert (Hm3 : matched (state w3) = matched (state w) ++ [a; b]).
  { rewrite Hs3. cbn [matched set_elapsedMs]. by rewrite Hm2, Hm1. }
  assert (Hd3 : deck (state w3) = deck (state w)).
  { rewrite Hs3. cbn [deck set_elapsedMs]. by rewrite Hd2, Hd1. }
  pose proof (unmatched_after_pair _ _ _ _ _ Hgroup Hm3 Hd3) as Hun.
  pose proof (length_without symbol (unmatched (state w))) as Hlen.
  rewrite Hgroup in Hlen. cbn [length] in Hlen.
  split_and!.
  - unfold solver_ready. rewrite Hun, Hm3, Hd3, Hs3.
    cbn [flipped locked victory set_elapsedMs].
    rewrite Hfl2, Hl2, Hv2, Hm1, Hd1, Hc3, Hc2, Hc1, revealed_cardRefs,
      length_alter.
    split_and!; try done.
    + rewrite length_app in *. cbn [length]. lia.
    + intros t. rewrite group_without.
      destruct (decide (t = symbol)) as [Ht|Ht].
      * rewrite bool_decide_eq_true_2 by done. by left.
      * rewrite bool_decide_eq_false_2 by done. apply Hpaired.
  - rewrite Hs3. cbn [moves set_elapsedMs]. by rewrite Hmv2, Hmv1.
  - rewrite Hun. lia.
Qed.

(** ** The solver on a fresh chill page *)

Lemma group_positions_length symbol d :
  length (group symbol (positions d)) = occurrences symbol d.
Proof.
  unfold group, positions, occurrences. rewrite length_fmap.
  change (imap (λ index symbol0, (index, symbol0)) d)
    with (imap (λ index symbol0, (id index, symbol0)) d).
  generalize (@id nat) as g.
  induction d as [|x d IH]; intros g; [done|].
  cbn [imap]. rewrite !filter_cons. cbn [snd].
  pose proof (IH (λ i, g (S i))) as IH'.
  destruct (decide (x = symbol)); cbn [length]; [f_equal|]; exact IH'.
Qed.

Lemma unmatched_fresh s : matched s = [] → unmatched s = positions (deck s).
Proof.
  intros Hm. unfold unmatched. rewrite Hm.
  induction (positions (deck s)) as [|p l IH]; [done|].
  rewrite filter_cons_True by apply not_elem_of_nil. by rewrite IH.
Qed.

Lemma initialWorld_solver_ready rnd t0 :
  solver_ready (initialWorld rnd t0)
  ∧ length (unmatched (state (initialWorld rnd t0))) = 12
  ∧ moves (state (initialWorld rnd t0)) = 0.
Proof.
  assert (Hlen : length (buildDeck (difficulties chill) rnd).1 = 12)
    by (by rewrite registered_deck_length).
  unfold solver_ready, pending_resets, initialWorld.
  rewrite rebuildBoard_cardRefs_length, rebuildBoard_timeouts by done.
  rewrite rebuildBoard_state, unmatched_fresh by done.
  cbn [state createInitialState flipped locked victory matched deck moves
       timeouts length].
  unfold defaultDifficulty, positions. rewrite length_imap, Hlen.
  split_and!; try done.
  - apply Forall_forall. intros symbol Hin%buildDeck_elem.
    revert symbol Hin. apply Forall_forall.
    apply (bool_decide_unpack _). by vm_compute.
  - intros symbol. fold (positions (buildDeck (difficulties chill) rnd).1).
    rewrite group_positions_length.
    destruct (decide (symbol ∈ (buildDeck (difficulties chill) rnd).1))
      as [Hin|Hin].
    + right. apply buildDeck_occurrences; [apply pools_NoDup|done].
    + left. by apply occurrences_not_elem.
Qed.

(** The loop needs one round per remaining pair and one more to see the
    victory flag. *)
Lemma solver_loop_wins r fuel guard w :
  solver_ready w →
  length (unmatched (state w)) = 2 * r →
  r < fuel → guard + r ≤ 200 →
  ∃ w', solver_loop fuel guard w = Some w'
        ∧ victory (state w') = true
        ∧ moves (state w') = moves (state w) + r.
Proof.
  revert fuel guard w.
  induction r as [|r IH]; intros fuel guard w Hready Hleft Hfuel Hguard;
    (destruct fuel as [|fuel]; [lia|]); cbn [solver_loop];
    pose proof Hready as (Hfl & Hl & _ & _ & _ & Hvic & Hcount & Hpaired).
  - assert (Hv : victory (state w) = true).
    { rewrite Hvic. apply bool_decide_eq_true_2. lia. }
    rewrite Hv. cbn [negb andb]. exists w. split_and!; [done|done|lia].
  - assert (Hv : victory (state w) = false).
    { rewrite Hvic. apply bool_decide_eq_false_2. lia. }
    rewrite Hv, Hl. cbn [negb andb].
    rewrite bool_decide_eq_true_2 by lia.
    destruct (pickNextPair (state w)) as [[a b]|] eqn:Hpick.
    + destruct (solver_round w a b Hready Hv Hpick)
        as (w1 & -> & Hready1 & Hmoves1 & Hleft1).
      cbn [mbind option_bind].
      destruct (IH fuel (guard + 1) w1) as (w' & Hrun & Hv' & Hmoves');
        [done|lia|lia|lia|].
      exists w'. split_and!; [done|done|lia].
    + apply (pickNextPair_None _ Hpaired) in Hpick.
      rewrite Hpick in Hleft. cbn in Hleft. lia.
Qed.

(** * Further properties of the game *)

(** ** What every page keeps *)

Lemma run_invariant (P : World → Prop) evs w :
  P w → (∀ e w', P w' → P (step e w')) → P (run evs w).
Proof.
  intros Hw Hstep. revert w Hw.
  induction evs as [|e evs IH]; intros w Hw; [done|].
  cbn [run fold_left]. apply IH, Hstep, Hw.
Qed.

(** The three ways a completed turn can go. *)
Lemma handleFlip_turn_cases index first w :
  rejected index (state w) = false →
  flipped (state w) = [first] →
  (falsy_symbol (deck (state w) !! first)
   || falsy_symbol (deck (state w) !! index) = true
   ∧ handleFlip index w
     = upd_state (set_locked false)
         (upd_state (set_flipped []) (count_move (revealed index w))))
  ∨ (∃ symbol,
       deck (state w) !! first = Some symbol
       ∧ deck (state w) !! index = Some symbol
       ∧ symbol ≠ ""%string)
  ∨ is_mismatch index first w.
Proof.
  intros Hrej Hfl.
  destruct (falsy_symbol (deck (state w) !! first)
            || falsy_symbol (deck (state w) !! index)) eqn:Hfalsy.
  - left. split; [done|].
    rewrite (handleFlip_completes index first) by done. cbn zeta.
    by rewrite Hfalsy.
  - right. apply orb_false_iff in Hfalsy as [H1 H2].
    destruct (deck (state w) !! first) as [s1|] eqn:Hs1; [|done].
    destruct (deck (state w) !! index) as [s2|] eqn:Hs2; [|done].
    cbn in H1, H2. apply bool_decide_eq_false in H1, H2.
    destruct (decide (s1 = s2)) as [->|Hne].
    + left. by exists s2.
    + right. split; [done|]. split; [done|]. by exists s1, s2.
Qed.

Lemma paired_up_app d m m' :
  paired_up d m → paired_up d m' → paired_up d (m ++ m').
Proof.
  induction 1 as [|a b symbol rest Hab Ha Hb Hrest IH]; intros Hm'; [done|].
  cbn [app]. econstructor; eauto.
Qed.

Lemma paired_up_even d m : paired_up d m → Nat.Even (length m).
Proof.
  induction 1 as [|a b symbol rest Hab Ha Hb Hrest [n IH]]; [by exists 0|].
  exists (S n). cbn [length]. lia.
Qed.

Lemma handleFlip_session_ok index w :
  index < length (cardRefs w) →
  session_ok w → session_ok (handleFlip index w).
Proof.
  intros Hindex Hok.
  destruct (rejected index (state w)) eqn:Hrej.
  { by rewrite handleFlip_guards. }
  destruct Hok as (Hcards & Hnodup & Hrange & Hlen & Hunl & Hmoves & Hpairs).
  pose proof Hrej as (Hl & Hv & Hf & Hm)%rejected_false.
  specialize (Hunl Hl). rewrite Hcards in Hindex.
  destruct (decide (length (flipped (state w) ++ [index]) = 2)) as [Htwo|Htwo].
  - destruct (flipped (state w)) as [|first [|? ?]] eqn:Hfl;
      [done| |cbn in Hunl; lia].
    cbn [app] in Hnodup, Hrange.
    apply NoDup_cons in Hnodup as [Hfirst Hnodup].
    apply Forall_cons in Hrange as [Hfirst_lt Hrange].
    destruct (handleFlip_turn_cases index first w Hrej Hfl)
      as [[_ ->]|[(symbol & H1 & H2 & Hsym)|Hmis]].
    + unfold session_ok.
      cbn [state upd_state count_move cardRefs flipped matched deck locked
           moves set_locked set_flipped set_moves].
      rewrite revealed_cardRefs, length_alter, revealed_matched,
        revealed_deck, revealed_moves.
      split_and!; cbn [app length]; try done; lia.
    + destruct (match_branch_fields index first symbol w)
        as (Hm2 & Hfl2 & Hl2 & _ & Hmv2 & Hd2 & _ & Hc2); try done.
      unfold session_ok. rewrite Hm2, Hfl2, Hl2, Hmv2, Hd2, Hc2.
      cbn [app length].
      split_and!; try done; try lia.
      * apply NoDup_app. split_and!; [done| |].
        -- intros x Hx [->|[->|[]%elem_of_nil]%elem_of_cons]%elem_of_cons;
             [done|by apply Hm].
        -- apply NoDup_cons. split; [|apply NoDup_singleton].
           intros ->%list_elem_of_singleton. apply Hf. by left.
      * apply Forall_app. split; [done|]. by repeat constructor.
      * rewrite length_app. cbn [length]. lia.
      * apply paired_up_app; [done|].
        apply (paired_up_cons _ first index symbol); try done; [|constructor].
        intros ->. apply Hf. by left.
    + rewrite (handleFlip_mismatch_eq index first) by done.
      unfold session_ok.
      cbn [state upd_state queueMismatchReset setTimeout set_timeouts
           count_move cardRefs flipped matched deck locked moves
           set_locked set_moves].
      rewrite revealed_cardRefs, length_alter, revealed_matched,
        revealed_deck, revealed_moves, revealed_flipped, Hfl.
      cbn [app length].
      split_and!; try done; try lia.
      * apply NoDup_cons. split.
        -- rewrite elem_of_cons. intros [->|?]; [|done].
           apply Hf. by left.
        -- apply NoDup_cons. split; done.
      * by repeat constructor.
  - rewrite handleFlip_opens by done. unfold session_ok.
    rewrite revealed_cardRefs, length_alter, revealed_matched, revealed_deck,
      revealed_moves, revealed_flipped, revealed_locked, Hl.
    rewrite length_app in *. cbn [length] in *.
    split_and!; try done; try lia.
    + rewrite <- app_assoc. apply NoDup_app in Hnodup as (Hn1 & Hn2 & Hn3).
      apply NoDup_app. split_and!; [done| |].
      * intros x Hx [->%list_elem_of_singleton|Hin]%elem_of_app; [done|].
        by apply (Hn2 x).
      * apply NoDup_cons. split; done.
    + rewrite <- app_assoc. apply Forall_app in Hrange as [Hr1 Hr2].
      apply Forall_app. split; [done|]. by constructor.
Qed.

Lemma fireTick_cardRefs w : cardRefs (fireTick w) = cardRefs w.
Proof.
  unfold fireTick. destruct (timerHandle w); [|done].
  case_bool_decide; [|done]. by rewrite tickTimer_cardRefs.
Qed.

Lemma session_ok_unlocked w s' cards :
  session_ok w →
  s' = set_locked false (set_flipped [] (state w)) →
  length cards = length (cardRefs w) →
  session_ok {| state := s'; cardRefs := cards; timerHandle := timerHandle w;
                timeouts := timeouts w; now := now w |}.
Proof.
  intros (Hcards & Hnodup & Hrange & Hlen & Hunl & Hmoves & Hpairs) -> Hc.
  unfold session_ok. cbn.
  apply NoDup_app in Hnodup as (_ & _ & Hnodup).
  apply Forall_app in Hrange as [_ Hrange].
  split_and!; try done; try lia; congruence.
Qed.

Lemma session_ok_frame w w' :
  length (cardRefs w') = length (cardRefs w) →
  (state w' = state w
   ∨ ∃ elapsed, state w' = set_elapsedMs elapsed (state w)) →
  session_ok w → session_ok w'.
Proof.
  unfold session_ok. intros -> [->|[elapsed ->]]; done.
Qed.

Lemma step_session_ok e w : session_ok w → session_ok (step e w).
Proof.
  intros Hok. destruct e as [index|level rnd|dt|k|]; cbn [step].
  - case_bool_decide; [by apply handleFlip_session_ok|done].
  - unfold session_ok.
    rewrite softReset_state, softReset_cardRefs_length. cbn.
    split_and!; try done; try lia; constructor.
  - done.
  - destruct (fireTimeout_cases k w) as [->|(due & cb & Hk & Hdue & ->)];
      [done|].
    destruct (decide (is_mismatch_reset (due, cb))) as [Hcb|Hcb].
    + destruct cb; try done.
      pose proof (session_ok_unlocked w _
        (cardRefs (runCallback (CbMismatchReset indices)
           (set_timeouts (delete k (timeouts w)) w))) Hok eq_refl) as Hun.
      rewrite runCallback_cardRefs_length in Hun. specialize (Hun eq_refl).
      revert Hun. unfold session_ok. rewrite runCallback_state. by cbn.
    + revert Hok. apply session_ok_frame.
      * by rewrite runCallback_cardRefs_length.
      * left. rewrite runCallback_state. by destruct cb.
  - revert Hok. apply session_ok_frame;
      [by rewrite fireTick_cardRefs|apply fireTick_state].
Qed.

Lemma initialWorld_session_ok rnd t0 : session_ok (initialWorld rnd t0).
Proof.
  unfold session_ok, initialWorld.
  rewrite rebuildBoard_cardRefs_length, rebuildBoard_state. cbn.
  split_and!; try done; try lia; constructor.
Qed.

Lemma run_session_ok rnd t0 evs : session_ok (run evs (initialWorld rnd t0)).
Proof.
  apply run_invariant; [apply initialWorld_session_ok|].
  intros e w. apply step_session_ok.
Qed.

Lemma run_victory_tracks rnd t0 evs :
  victory_tracks (state (run evs (initialWorld rnd t0))).
Proof.
  apply (run_invariant (λ w, victory_tracks (state w)));
    [apply initialWorld_victory_tracks|].
  intros e w. apply step_victory_tracks.
Qed.

(** X2. On every page that can be reached the matched set is made of true
    pairs: it is a sequence of pairs of different positions holding the
    same symbol of the current deck; and every matched pair was a counted
    move. *)
Theorem matched_pairs_sound (rnd : list nat) (t0 : Z) (evs : list Event) :
  let w := run evs (initialWorld rnd t0) in
  paired_up (deck (state w)) (matched (state w))
  ∧ length (matched (state w)) ≤ 2 * moves (state w).
Proof.
  destruct (run_session_ok rnd t0 evs) as (_ & _ & _ & _ & _ & Hmoves & Hp).
  cbn zeta. split; done.
Qed.

(** X3. Victory means a full board: on every page that can be reached with
    [victory] set, the matched set holds every position of the deck
    exactly once. *)
Theorem victory_means_all_matched
  (rnd : list nat) (t0 : Z) (evs : list Event) :
  victory (state (run evs (initialWorld rnd t0))) = true →
  matched (state (run evs (initialWorld rnd t0)))
  ≡ₚ seq 0 (length (deck (state (run evs (initialWorld rnd t0))))).
Proof.
  intros Hv.
  destruct (run_session_ok rnd t0 evs) as (_ & Hnodup & Hrange & _).
  destruct (run_victory_tracks rnd t0 evs) as [_ Hvic].
  rewrite Hv in Hvic. symmetry in Hvic. apply bool_decide_eq_true in Hvic.
  apply NoDup_app in Hnodup as (_ & _ & Hnodup).
  apply Forall_app in Hrange as [_ Hrange].
  apply submseteq_length_Permutation; [|by rewrite length_seq, Hvic].
  apply NoDup_submseteq; [done|].
  intros i Hi. apply elem_of_seq. split; [lia|].
  rewrite Forall_forall in Hrange. cbn. by apply Hrange.
Qed.

Lemma victory_means_all_matched_witness :
  victory (state (run winning_clicks (initialWorld [] 0))) = true
  ∧ matched (state (run winning_clicks (initialWorld [] 0)))
    ≡ₚ seq 0 (length (deck (state (run winning_clicks (initialWorld [] 0))))).
Proof.
  assert (Hv : victory (state (run winning_clicks (initialWorld [] 0))) = true)
    by (vm_compute; reflexivity).
  split; [exact Hv|].
  exact (victory_means_all_matched [] 0 winning_clicks Hv).
Defined.

(** ** The clock of a session *)

Lemma handleWin_fields w :
  victory (state (handleWin w)) = true
  ∧ runningSince (state (handleWin w)) = None
  ∧ timerHandle (handleWin w) = None
  ∧ flipped (state (handleWin w)) = flipped (state w)
  ∧ locked (state (handleWin w)) = locked (state w)
  ∧ elapsedMs (state (handleWin w))
    = match runningSince (state w) with
      | Some since => (now w - since)%Z
      | None => elapsedMs (state w)
      end.
Proof.
  unfold handleWin, stopTimer.
  destruct (runningSince (state w)) as [since|] eqn:Hrun; cbn;
    rewrite ?Hrun; cbn; destruct (_ || _); cbn; by rewrite ?Hrun.
Qed.

Lemma checkVictory_cases w :
  checkVictory w = w ∨ (victory (state w) = false ∧ checkVictory w = handleWin w).
Proof.
  unfold checkVictory. destruct (victory (state w)); case_bool_decide;
    cbn [andb negb]; auto.
Qed.

(** The reveal that wins the game stops the clock at the time since the
    anchor and leaves the game at rest. *)
Lemma handleFlip_wins index w :
  victory (state w) = false →
  victory (state (handleFlip index w)) = true →
  flipped (state (handleFlip index w)) = []
  ∧ locked (state (handleFlip index w)) = false
  ∧ runningSince (state (handleFlip index w)) = None
  ∧ timerHandle (handleFlip index w) = None
  ∧ elapsedMs (state (handleFlip index w))
    = (now w - default (now w) (runningSince (state w)))%Z.
Proof.
  intros Hv Hwon.
  destruct (rejected index (state w)) eqn:Hrej.
  { rewrite handleFlip_guards in Hwon by done. congruence. }
  pose proof Hrej as (Hl & _)%rejected_false.
  destruct (decide (length (flipped (state w) ++ [index]) = 2)) as [Htwo|Htwo].
  - destruct (flipped (state w)) as [|first [|? ?]] eqn:Hfl;
      [done| |rewrite length_app in Htwo; cbn in Htwo; lia].
    destruct (handleFlip_turn_cases index first w Hrej Hfl)
      as [[_ Heq]|[(symbol & H1 & H2 & Hsym)|Hmis]].
    + rewrite Heq in Hwon. change (victory (state (revealed index w)) = true) in Hwon.
      rewrite revealed_victory in Hwon. congruence.
    + rewrite (match_branch_eq index first symbol) in Hwon |- * by done.
      match goal with
      | |- context [checkVictory ?x] =>
          destruct (checkVictory_cases x) as [Heq|[_ Heq]];
          rewrite Heq in Hwon |- *
      end.
      * change (victory (state (revealed index w)) = true) in Hwon.
        rewrite revealed_victory in Hwon. congruence.
      * match goal with
        | |- context [handleWin ?x] =>
            destruct (handleWin_fields x) as (_ & -> & -> & -> & -> & ->)
        end.
        cbn [state upd_state setTimeout set_timeouts count_move now
             runningSince flipped locked set_flipped set_matched set_moves].
        rewrite revealed_runningSince, revealed_locked, revealed_now.
        by rewrite Hl.
    + rewrite (handleFlip_mismatch_eq index first) in Hwon by done.
      change (victory (state (revealed index w)) = true) in Hwon.
        rewrite revealed_victory in Hwon. congruence.
  - rewrite handleFlip_opens in Hwon by done.
    rewrite revealed_victory in Hwon. congruence.
Qed.

(** Without a reset a won game stays won. *)
Lemma step_victory_sticky e w :
  is_reset e = false →
  victory (state w) = true → victory (state (step e w)) = true.
Proof.
  intros He Hv. destruct e as [index|level rnd|dt|k|]; cbn [step].
  - case_bool_decide; [|done]. rewrite handleFlip_guards; [done|].
    apply rejected_true. auto.
  - done.
  - done.
  - rewrite fireTimeout_state.
    destruct (timeouts w !! k) as [[due []]|]; try done.
    by case_bool_decide.
  - by destruct (fireTick_state w) as [->|[elapsed ->]].
Qed.

(** Until the game is won or reset, nothing moves the anchor of a running
    clock. *)
Lemma step_anchor e w since :
  is_reset e = false →
  runningSince (state w) = Some since →
  victory (state (step e w)) = false →
  runningSince (state (step e w)) = Some since.
Proof.
  intros He Hrun Hv. destruct e as [index|level rnd|dt|k|]; cbn [step] in *.
  - case_bool_decide; [|done].
    destruct (rejected index (state w)) eqn:Hrej.
    { by rewrite handleFlip_guards. }
    destruct (decide (length (flipped (state w) ++ [index]) = 2))
      as [Htwo|Htwo].
    + destruct (flipped (state w)) as [|first [|? ?]] eqn:Hfl;
        [done| |rewrite length_app in Htwo; cbn in Htwo; lia].
      destruct (handleFlip_turn_cases index first w Hrej Hfl)
        as [[_ Heq]|[(symbol & H1 & H2 & Hsym)|Hmis]].
      * rewrite Heq. change (runningSince (state (revealed index w)) = Some since).
           by rewrite revealed_runningSince, Hrun.
      * rewrite (match_branch_eq index first symbol) in Hv |- * by done.
        match goal with
        | |- context [checkVictory ?x] =>
            destruct (checkVictory_cases x) as [Heq|[_ Heq]];
            rewrite Heq in Hv |- *
        end.
        -- change (runningSince (state (revealed index w)) = Some since).
           by rewrite revealed_runningSince, Hrun.
        -- match type of Hv with
           | context [handleWin ?x] =>
               destruct (handleWin_fields x) as (Hwon & _)
           end.
           congruence.
      * rewrite (handleFlip_mismatch_eq index first) by done.
        change (runningSince (state (revealed index w)) = Some since).
           by rewrite revealed_runningSince, Hrun.
    + rewrite handleFlip_opens by done.
      by rewrite revealed_runningSince, Hrun.
  - done.
  - done.
  - rewrite fireTimeout_state.
    destruct (timeouts w !! k) as [[due []]|]; try done.
    by case_bool_decide.
  - by destruct (fireTick_state w) as [->|[elapsed ->]].
Qed.

Lemma run_anchor evs w since :
  Forall (λ e, is_reset e = false) evs →
  runningSince (state w) = Some since →
  victory (state (run evs w)) = false →
  runningSince (state (run evs w)) = Some since.
Proof.
  induction evs as [|e evs IH] using rev_ind; intros Hevs Hrun Hv; [done|].
  apply Forall_app in Hevs as [Hevs He]. inversion_clear He as [|? ? He' _].
  rewrite run_snoc in Hv |- *.
  apply step_anchor; [done| |done]. apply IH; [done|done|].
  destruct (victory (state (run evs w))) eqn:Hmid; [|done].
  by rewrite (step_victory_sticky e _ He' Hmid) in Hv.
Qed.

(** X4. The recorded completion time is the time from the anchor to the
    winning reveal, whatever happened in between: if the clock runs since
    [since], then after any events other than a reset that leave the game
    unwon (reveals, mismatches, ticks at any cadence, callbacks), a reveal
    that wins the game stops the clock with [elapsedMs] equal to the
    current time minus [since], clears the anchor and cancels the
    interval. *)
Theorem clock_measures_session
  (w : World) (since : Z) (evs : list Event) (index : nat) :
  Forall (λ e, is_reset e = false) evs →
  runningSince (state w) = Some since →
  victory (state (run evs w)) = false →
  victory (state (handleFlip index (run evs w))) = true →
  elapsedMs (state (handleFlip index (run evs w)))
  = (now (run evs w) - since)%Z
  ∧ runningSince (state (handleFlip index (run evs w))) = None
  ∧ timerHandle (handleFlip index (run evs w)) = None.
Proof.
  intros Hevs Hrun Hv Hwon.
  pose proof (run_anchor evs w since Hevs Hrun Hv) as Hanchor.
  destruct (handleFlip_wins index (run evs w) Hv Hwon)
    as (_ & _ & Hstop & Hhandle & Helapsed).
  rewrite Hanchor in Helapsed. done.
Qed.

Lemma clock_measures_session_witness :
  Forall (λ e, is_reset e = false) all_but_last_click
  ∧ runningSince (state one_revealed) = Some 0%Z
  ∧ victory (state (run all_but_last_click one_revealed)) = false
  ∧ victory (state (handleFlip 10 (run all_but_last_click one_revealed)))
    = true
  ∧ elapsedMs (state (handleFlip 10 (run all_but_last_click one_revealed)))
    = (now (run all_but_last_click one_revealed) - 0)%Z
  ∧ runningSince
      (state (handleFlip 10 (run all_but_last_click one_revealed))) = None
  ∧ timerHandle (handleFlip 10 (run all_but_last_click one_revealed)) = None.
Proof.
  assert (H1 : Forall (λ e, is_reset e = false) all_but_last_click)
    by (repeat constructor).
  assert (H2 : runningSince (state one_revealed) = Some 0%Z)
    by (vm_compute; reflexivity).
  assert (H3 : victory (state (run all_but_last_click one_revealed)) = false)
    by (vm_compute; reflexivity).
  assert (H4 : victory (state (handleFlip 10
                 (run all_but_last_click one_revealed))) = true)
    by (vm_compute; reflexivity).
  split; [exact H1|]. split; [exact H2|]. split; [exact H3|].
  split; [exact H4|].
  exact (clock_measures_session one_revealed 0%Z all_but_last_click 10
           H1 H2 H3 H4).
Defined.

(** ** After the win *)

Lemma unlock_at_rest s :
  flipped s = [] → locked s = false → set_locked false (set_flipped [] s) = s.
Proof. destruct s. cbn. by intros -> ->. Qed.

(** A won game at rest is not changed by anything but a reset. *)
Lemma step_frozen e w :
  is_reset e = false →
  victory (state w) = true → won_at_rest w →
  state (step e w) = state w ∧ timerHandle (step e w) = timerHandle w.
Proof.
  intros He Hv Hrest. destruct (Hrest Hv) as (Hfl & Hl & Hrun & Hhandle).
  destruct e as [index|level rnd|dt|k|]; cbn [step].
  - case_bool_decide; [|done]. rewrite handleFlip_guards; [done|].
    apply rejected_true. auto.
  - done.
  - done.
  - split.
    + rewrite fireTimeout_state.
      destruct (timeouts w !! k) as [[due []]|]; try done.
      case_bool_decide; [|done]. by apply unlock_at_rest.
    + destruct (fireTimeout_cases k w) as [->|(due & cb & Hk & Hdue & ->)];
        [done|]. by rewrite runCallback_timerHandle.
  - unfold fireTick. by rewrite Hhandle.
Qed.

Lemma step_won_at_rest e w : won_at_rest w → won_at_rest (step e w).
Proof.
  intros Hrest.
  destruct (victory (state w)) eqn:Hv.
  - destruct (is_reset e) eqn:He.
    + destruct e; try discriminate He. cbn [step]. intros Hwon.
      rewrite softReset_state in Hwon. discriminate Hwon.
    + intros Hwon. destruct (step_frozen e w He Hv Hrest) as [-> ->].
      by apply Hrest.
  - destruct e as [index|level rnd|dt|k|]; cbn [step]; intros Hwon.
    + revert Hwon. case_bool_decide; [|congruence]. intros Hwon.
      destruct (handleFlip_wins index w Hv Hwon) as (? & ? & ? & ? & _).
      done.
    + rewrite softReset_state in Hwon. discriminate Hwon.
    + cbn in Hwon. congruence.
    + rewrite fireTimeout_state in Hwon.
      destruct (timeouts w !! k) as [[due []]|]; try congruence.
      revert Hwon. case_bool_decide; cbn; congruence.
    + destruct (fireTick_state w) as [Heq|[elapsed Heq]];
        rewrite Heq in Hwon; cbn in Hwon; congruence.
Qed.

Lemma run_won_at_rest rnd t0 evs : won_at_rest (run evs (initialWorld rnd t0)).
Proof.
  apply run_invariant; [|intros e w; apply step_won_at_rest].
  intros Hwon. by rewrite initialWorld_state in Hwon.
Qed.

(** X5. Once the game is won, nothing but a reset changes the game state:
    on every page that can be reached with [victory] set, any further
    reveals, passing time, ticks and callbacks (stale ones included) leave
    the deck, the matched set, the counters, the recorded time and the
    best times exactly as they are. *)
Theorem won_game_is_frozen
  (rnd : list nat) (t0 : Z) (pre evs : list Event) :
  victory (state (run pre (initialWorld rnd t0))) = true →
  Forall (λ e, is_reset e = false) evs →
  state (run evs (run pre (initialWorld rnd t0)))
  = state (run pre (initialWorld rnd t0)).
Proof.
  intros Hv Hevs.
  pose proof (run_won_at_rest rnd t0 pre) as Hrest.
  revert Hv Hrest. generalize (run pre (initialWorld rnd t0)) as w.
  induction Hevs as [|e evs He Hevs IH]; intros w Hv Hrest; [done|].
  cbn [run fold_left].
  destruct (step_frozen e w He Hv Hrest) as [Hstate Hhandle].
  rewrite <- Hstate. apply IH.
  - by rewrite Hstate.
  - by apply step_won_at_rest.
Qed.

Lemma won_game_is_frozen_witness :
  victory (state (run winning_clicks (initialWorld [] 0))) = true
  ∧ Forall (λ e, is_reset e = false) [EElapse 700; EFire 0; EClick 3; ETick]
  ∧ state (run [EElapse 700; EFire 0; EClick 3; ETick]
             (run winning_clicks (initialWorld [] 0)))
    = state (run winning_clicks (initialWorld [] 0)).
Proof.
  assert (Hv : victory (state (run winning_clicks (initialWorld [] 0))) = true)
    by (vm_compute; reflexivity).
  assert (Hevs : Forall (λ e, is_reset e = false)
                   [EElapse 700; EFire 0; EClick 3; ETick])
    by (repeat constructor).
  split; [exact Hv|]. split; [exact Hevs|].
  exact (won_game_is_frozen [] 0 winning_clicks _ Hv Hevs).
Defined.

(** ** Reset *)

Lemma rebuildBoard_cardRefs w :
  cardRefs (rebuildBoard w) = replicate (length (deck (state w))) freshCard.
Proof.
  assert (H : ∀ l w0,
    cardRefs (forEach
      (λ index w',
         let w'' := set_cardRefs (cardRefs w' ++ [freshCard]) w' in
         if bool_decide (index ∈ matched (state w''))
         then setTimeout (CbMarkMatched [index]) 0%Z w''
         else w'') l w0)
    = cardRefs w0 ++ replicate (length l) freshCard).
  { induction l as [|x l IH]; intros w0.
    - cbn. by rewrite app_nil_r.
    - unfold forEach in *. cbn [fold_left]. rewrite IH.
      case_bool_decide; cbn; by rewrite <- app_assoc. }
  unfold rebuildBoard. by rewrite H, length_seq.
Qed.

Lemma softReset_cardRefs level rnd w :
  cardRefs (softReset level rnd w)
  = replicate (length (buildDeck (difficulties level) rnd).1) freshCard.
Proof.
  unfold softReset. rewrite rebuildBoard_cardRefs.
  unfold stopTimer. cbn. by destruct (runningSince (state w)).
Qed.

(** X6. A reset to any difficulty starts a fresh session whatever the page
    was before: the per-session fields are cleared and the clock stopped,
    there is no progress to lose, the deck has two cards for each of the
    level's pair count, every symbol in it twice, the board has one blank
    card per position; the best times, the armed callbacks and the time of
    day are what they were. *)
Theorem softReset_fresh_session
  (level : DifficultyKey) (rnd : list nat) (w : World) :
  let w' := softReset level rnd w in
  difficulty (state w') = level
  ∧ matched (state w') = [] ∧ flipped (state w') = []
  ∧ moves (state w') = 0 ∧ elapsedMs (state w') = 0%Z
  ∧ locked (state w') = false ∧ victory (state w') = false
  ∧ runningSince (state w') = None ∧ timerHandle w' = None
  ∧ hasActiveProgress (state w') = false
  ∧ length (deck (state w')) = 2 * pairs (difficulties level)
  ∧ (∀ symbol, symbol ∈ deck (state w') →
       occurrences symbol (deck (state w')) = 2)
  ∧ cardRefs w' = replicate (2 * pairs (difficulties level)) freshCard
  ∧ bestTimes (state w') = bestTimes (state w)
  ∧ timeouts w' = timeouts w
  ∧ now w' = now w.
Proof.
  cbn zeta.
  rewrite softReset_state, softReset_timerHandle, softReset_cardRefs,
    softReset_timeouts, softReset_now, registered_deck_length.
  cbn [difficulty matched flipped moves elapsedMs locked victory
       runningSince deck bestTimes].
  rewrite registered_deck_length.
  split_and!; try done.
  intros symbol. apply buildDeck_occurrences, pools_NoDup.
Qed.

(** ** Progress and the difficulty pills *)

Lemma handleFlip_difficulty index w :
  difficulty (state (handleFlip index w)) = difficulty (state w).
Proof.
  destruct (rejected index (state w)) eqn:Hrej.
  { by rewrite handleFlip_guards. }
  destruct (decide (length (flipped (state w) ++ [index]) = 2)) as [Htwo|Htwo].
  - destruct (flipped (state w)) as [|first [|? ?]] eqn:Hfl;
      [done| |rewrite length_app in Htwo; cbn in Htwo; lia].
    rewrite (handleFlip_completes index first) by done. cbn zeta.
    destruct (_ || _); [|case_bool_decide];
      rewrite ?checkVictory_difficulty; exact (revealed_difficulty index w).
  - rewrite handleFlip_opens by done. apply revealed_difficulty.
Qed.

(** Every accepted reveal leaves something to lose: a card in the buffer
    or a counted move. *)
Lemma progress_after_reveal index w :
  rejected index (state w) = false →
  hasActiveProgress (state (handleFlip index w)) = true.
Proof.
  intros Hrej. unfold hasActiveProgress.
  destruct (decide (length (flipped (state w) ++ [index]) = 2)) as [Htwo|Htwo].
  - destruct (flipped (state w)) as [|first [|? ?]] eqn:Hfl;
      [done| |rewrite length_app in Htwo; cbn in Htwo; lia].
    assert (Hmoves : moves (state (handleFlip index w)) = moves (state w) + 1).
    { rewrite (handleFlip_completes index first) by done. cbn zeta.
      destruct (_ || _); [|case_bool_decide];
        rewrite ?checkVictory_moves;
        by rewrite <- (revealed_moves index w). }
    rewrite Hmoves. rewrite (bool_decide_eq_true_2 (0 < _ + 1)) by lia. done.
  - rewrite handleFlip_opens by done. rewrite revealed_flipped.
    rewrite (bool_decide_eq_true_2 (0 < length (_ ++ [index]))).
    + by rewrite !orb_true_r.
    + rewrite length_app. cbn. lia.
Qed.

(** X7. The difficulty pills protect progress and only progress. After any
    accepted reveal, a click on another level's pill that the player does
    not confirm changes nothing. Right after a reset, a click on another
    level's pill switches at once, whatever the answer would have been. A
    click on the current level's pill never does anything. *)
Theorem difficultyPill_protects_progress
  (w : World) (level : DifficultyKey) (rnd : list nat) :
  (∀ index,
     rejected index (state w) = false →
     level ≠ difficulty (state w) →
     difficultyPillClick level false rnd (handleFlip index w)
     = handleFlip index w)
  ∧ (∀ level0 rnd0 confirmed,
       level ≠ level0 →
       difficultyPillClick level confirmed rnd (softReset level0 rnd0 w)
       = softReset level rnd (softReset level0 rnd0 w))
  ∧ (∀ confirmed,
       difficultyPillClick (difficulty (state w)) confirmed rnd w = w).
Proof.
  split_and!.
  - intros index Hrej Hlevel. unfold difficultyPillClick.
    rewrite handleFlip_difficulty, progress_after_reveal by done.
    by rewrite bool_decide_eq_true_2.
  - intros level0 rnd0 confirmed Hlevel. unfold difficultyPillClick.
    rewrite softReset_state. cbn [difficulty].
    rewrite bool_decide_eq_true_2 by done. done.
  - intros confirmed. unfold difficultyPillClick.
    by rewrite bool_decide_eq_false_2 by (intros H; by apply H).
Qed.

Lemma difficultyPill_protects_progress_witness :
  rejected 0 (state sample_world) = false
  ∧ zest ≠ difficulty (state sample_world)
  ∧ difficultyPillClick zest false [] (handleFlip 0 sample_world)
    = handleFlip 0 sample_world.
Proof.
  assert (H1 : rejected 0 (state sample_world) = false) by reflexivity.
  assert (H2 : zest ≠ difficulty (state sample_world)) by discriminate.
  split; [exact H1|]. split; [exact H2|].
  exact (proj1 (difficultyPill_protects_progress sample_world zest [])
           0 H1 H2).
Defined.

(** ** The solver's choice, in any state *)

Lemma sublist_seq_lt a b rest i n :
  (a :: b :: rest) `sublist_of` seq i n → a < b.
Proof.
  revert i. induction n as [|n IH]; intros i; cbn [seq].
  - by intros ?%sublist_nil_r.
  - intros [Hsub|(l' & [= <- <-] & Hsub)]%sublist_cons_r; [by eapply IH|].
    assert (Hb : b ∈ seq (S a) n).
    { eapply elem_of_sublist; [|done]. by left. }
    apply elem_of_seq in Hb. lia.
Qed.

Lemma group_sublist symbol s :
  group symbol (unmatched s) `sublist_of` seq 0 (length (deck s)).
Proof.
  rewrite <- positions_fst. unfold group, unmatched.
  apply fmap_sublist. etrans; apply sublist_filter.
Qed.

Lemma bucket_get_elem_of symbol buckets :
  bucket_get symbol buckets ≠ [] →
  (symbol, bucket_get symbol buckets) ∈ buckets.
Proof.
  induction buckets as [|[s g] rest IH]; [done|]. cbn [bucket_get].
  case_bool_decide as Hs.
  - subst s. intros _. by left.
  - intros Hne. right. by apply IH.
Qed.

(** X8. [pickNextPair], in every state: a pair it returns is a real pair
    (two different unmatched positions, the left one first, holding the
    same symbol), and it returns nothing exactly when no two unmatched
    positions hold the same symbol. *)
Theorem pickNextPair_spec (s : GameState) :
  (∀ a b,
     pickNextPair s = Some (a, b) →
     a < b ∧ (a ∉ matched s) ∧ (b ∉ matched s)
     ∧ ∃ symbol, deck s !! a = Some symbol ∧ deck s !! b = Some symbol)
  ∧ (pickNextPair s = None
     ↔ ∀ i j symbol,
         i ≠ j → i ∉ matched s → j ∉ matched s →
         deck s !! i = Some symbol → deck s !! j ≠ Some symbol).
Proof.
  destruct (collect_buckets_spec s) as (Hnodup & Hnonempty & Hget).
  assert (Hsound : ∀ a b,
    pickNextPair s = Some (a, b) →
    a < b ∧ (a ∉ matched s) ∧ (b ∉ matched s)
    ∧ ∃ symbol, deck s !! a = Some symbol ∧ deck s !! b = Some symbol).
  { intros a b (symbol & rest & Hin)%first_pair_Some.
    pose proof (bucket_get_elem _ _ _ Hnodup Hin) as Hg.
    rewrite Hget in Hg.
    assert (Ha : (a, symbol) ∈ unmatched s).
    { apply group_elem. rewrite Hg. by left. }
    assert (Hb : (b, symbol) ∈ unmatched s).
    { apply group_elem. rewrite Hg. right. by left. }
    apply unmatched_elem in Ha as [Ham Had].
    apply unmatched_elem in Hb as [Hbm Hbd].
    split_and!; [|done|done|by exists symbol].
    apply (sublist_seq_lt a b rest 0 (length (deck s))).
    rewrite <- Hg. apply group_sublist. }
  split; [done|]. split.
  - intros Hnone%first_pair_None i j symbol Hij Hi Hj Hdi Hdj.
    assert (Hgi : i ∈ group symbol (unmatched s)).
    { apply group_elem, unmatched_elem. done. }
    assert (Hgj : j ∈ group symbol (unmatched s)).
    { apply group_elem, unmatched_elem. done. }
    rewrite <- Hget in Hgi, Hgj.
    assert (Hin : (symbol, bucket_get symbol (collect_buckets s))
                  ∈ collect_buckets s).
    { apply bucket_get_elem_of. intros Hnil. rewrite Hnil in Hgi.
      by apply elem_of_nil in Hgi. }
    rewrite Forall_forall in Hnone. specialize (Hnone _ Hin). cbn in Hnone.
    destruct (bucket_get symbol (collect_buckets s)) as [|x [|y g]];
      [by apply elem_of_nil in Hgi| |cbn in Hnone; lia].
    apply list_elem_of_singleton in Hgi, Hgj. congruence.
  - intros Hnopair.
    destruct (pickNextPair s) as [[a b]|] eqn:Hpick; [|done]. exfalso.
    destruct (Hsound a b eq_refl) as (Hab & Ha & Hb & symbol & Hda & Hdb).
    apply (Hnopair a b symbol); [lia|done|done|done|done].
Qed.

Lemma pickNextPair_spec_witness :
  pickNextPair (state sample_world) = Some (0, 1)
  ∧ 0 < 1 ∧ (0 ∉ matched (state sample_world))
  ∧ (1 ∉ matched (state sample_world))
  ∧ ∃ symbol, deck (state sample_world) !! 0 = Some symbol
              ∧ deck (state sample_world) !! 1 = Some symbol.
Proof.
  assert (H : pickNextPair (state sample_world) = Some (0, 1)) by reflexivity.
  split; [exact H|].
  exact (proj1 (pickNextPair_spec (state sample_world)) 0 1 H).
Defined.

(** ** The solver after a reset, at any difficulty *)

Lemma pools_nonempty_symbols level :
  Forall (λ symbol, symbol ≠ ""%string) (pool (difficulties level)).
Proof. destruct level; apply (bool_decide_unpack _); by vm_compute. Qed.

Lemma softReset_solver_ready level rnd w :
  pending_resets w = [] →
  solver_ready (softReset level rnd w)
  ∧ length (unmatched (state (softReset level rnd w)))
    = 2 * pairs (difficulties level).
Proof.
  intros Hquiet.
  pose proof (registered_deck_length level rnd) as Hlen.
  unfold solver_ready, pending_resets.
  rewrite softReset_timeouts, softReset_cardRefs_length, softReset_state.
  rewrite unmatched_fresh by done.
  cbn [flipped locked victory matched deck length].
  unfold positions. rewrite length_imap.
  split_and!; try done.
  - apply Forall_forall. intros symbol Hin%buildDeck_elem.
    revert symbol Hin. apply Forall_forall, pools_nonempty_symbols.
  - symmetry. apply bool_decide_eq_false_2.
    intros H. by apply (registered_deck_nonempty level rnd).
  - intros symbol. fold (positions (buildDeck (difficulties level) rnd).1).
    rewrite group_positions_length.
    destruct (decide (symbol ∈ (buildDeck (difficulties level) rnd).1))
      as [Hin|Hin].
    + right. apply buildDeck_occurrences; [apply pools_NoDup|done].
    + left. by apply occurrences_not_elem.
Qed.

(** X9. After a reset to any difficulty on a page without an armed
    unlocking callback, the solver (given one more round than the level
    has pairs) returns with [victory] set and exactly one move per pair,
    whatever the shuffle: 6 moves on chill, 8 on zest, 12 on inferno. *)
Theorem solver_wins_after_reset
  (level : DifficultyKey) (rnd : list nat) (w : World) (fuel : nat) :
  pending_resets w = [] →
  pairs (difficulties level) < fuel →
  ∃ w', secretSolvePuzzle fuel (softReset level rnd w) = Some w'
        ∧ victory (state w') = true
        ∧ moves (state w') = pairs (difficulties level).
Proof.
  intros Hquiet Hfuel.
  destruct (softReset_solver_ready level rnd w Hquiet) as [Hready Hleft].
  unfold secretSolvePuzzle.
  assert (Hv : victory (state (softReset level rnd w)) = false)
    by (by rewrite softReset_state).
  assert (Hm : moves (state (softReset level rnd w)) = 0)
    by (by rewrite softReset_state).
  rewrite Hv.
  destruct (solver_loop_wins (pairs (difficulties level)) fuel 0
              (softReset level rnd w))
    as (w' & Hrun & Hv' & Hmoves'); [done|done|lia| |].
  { destruct level; cbn; lia. }
  exists w'. split_and!; [done|done|lia].
Qed.

Lemma solver_wins_after_reset_witness :
  pending_resets sample_world = []
  ∧ pairs (difficulties inferno) < 13
  ∧ ∃ w', secretSolvePuzzle 13 (softReset inferno [5; 8; 2] sample_world)
          = Some w'
          ∧ victory (state w') = true
          ∧ moves (state w') = pairs (difficulties inferno).
Proof.
  assert (H1 : pending_resets sample_world = []) by reflexivity.
  assert (H2 : pairs (difficulties inferno) < 13) by (cbn; lia).
  split; [exact H1|]. split; [exact H2|].
  exact (solver_wins_after_reset inferno [5; 8; 2] sample_world 13 H1 H2).
Defined.

(** ** index.ts: the shuffle *)

Lemma draw_rest rnd : (draw rnd).2 = drop 1 rnd.
Proof. by destruct rnd. Qed.

Lemma shuffle_loop_rest {T} i (arr : list T) rnd :
  (shuffle_loop i arr rnd).2 = drop i rnd.
Proof.
  revert arr rnd. induction i as [|i IH]; intros arr rnd; [done|].
  cbn [shuffle_loop]. pose proof (draw_rest rnd) as Hd.
  destruct (draw rnd) as [r rnd']. cbn in Hd. subst rnd'.
  by rewrite IH, drop_drop.
Qed.

(** X10. [shuffle] returns a rearrangement of its input, of the same
    length, and uses exactly one random draw per element but the first; an
    empty or one-element input comes back as it is without any draw. *)
Theorem shuffle_draws {T} (input : list T) (rnd : list nat) :
  (shuffle input rnd).1 ≡ₚ input
  ∧ length (shuffle input rnd).1 = length input
  ∧ (shuffle input rnd).2 = drop (length input - 1) rnd
  ∧ (length input ≤ 1 → shuffle input rnd = (input, rnd)).
Proof.
  split_and!.
  - apply shuffle_Permutation.
  - by rewrite shuffle_Permutation.
  - apply shuffle_loop_rest.
  - intros Hlen. unfold shuffle.
    by replace (length input - 1) with 0 by lia.
Qed.

Lemma shuffle_draws_witness :
  length ["x"%string] ≤ 1
  ∧ shuffle ["x"%string] [4; 2] = (["x"%string], [4; 2]).
Proof.
  assert (H : length ["x"%string] ≤ 1) by (cbn; lia).
  split; [exact H|].
  exact (proj2 (proj2 (proj2 (shuffle_draws ["x"%string] [4; 2]))) H).
Defined.

Section Reach.
Context {T : Type}.
Implicit Types pre suf target : list T.

(** The loop at index [i] can put any element of the first [i + 1] in
    place [i] and then arrange the rest. *)
Lemma shuffle_loop_reaches i pre suf target :
  length pre = S i → pre ≡ₚ target →
  ∃ rnd, (shuffle_loop i (pre ++ suf) rnd).1 = target ++ suf.
Proof.
  revert pre suf target.
  induction i as [|i IH]; intros pre suf target Hlen Hperm.
  - destruct pre as [|x [|? ?]]; try done.
    apply Permutation_singleton_l in Hperm as <-. by exists [].
  - assert (Htlen : length target = S (S i))
      by (by rewrite <- Hperm).
    destruct target as [|t0 target0] using rev_ind; [done|]. clear IHtarget0.
    rename t0 into y, target0 into tinit.
    assert (Hy : y ∈ pre).
    { rewrite Hperm. apply elem_of_app. right. by left. }
    apply list_elem_of_lookup in Hy as [j Hj].
    pose proof (lookup_lt_Some _ _ _ Hj) as Hjlt.
    destruct (lookup_lt_is_Some_2 pre (S i)) as [x Hx]; [lia|].
    set (pre2 := <[j:=x]> (<[S i:=y]> pre)).
    assert (Hperm2 : pre2 ≡ₚ pre) by (by apply Permutation_insert_swap).
    assert (Hlen2 : length pre2 = S (S i))
      by (unfold pre2; by rewrite !length_insert).
    assert (Hlast : pre2 !! S i = Some y).
    { unfold pre2. destruct (decide (j = S i)) as [->|Hne].
      - rewrite list_lookup_insert_eq by (rewrite length_insert; lia).
        congruence.
      - rewrite list_lookup_insert_ne by done.
        apply list_lookup_insert_eq. lia. }
    assert (Hsplit : pre2 = take (S i) pre2 ++ [y]).
    { rewrite <- (take_drop_middle pre2 (S i) y Hlast) at 1.
      by rewrite (drop_ge pre2 (S (S i))) by lia. }
    destruct (IH (take (S i) pre2) (y :: suf) tinit) as [rnd' Hrnd'].
    { rewrite length_take. lia. }
    { apply (Permutation_app_inv_r [y]).
      by rewrite <- Hsplit, Hperm2. }
    exists (j :: rnd'). cbn [shuffle_loop draw].
    replace (j mod (S i + 1)) with j by (symmetry; apply Nat.mod_small; lia).
    assert (Hswap : swap (pre ++ suf) (S i) j = pre2 ++ suf).
    { unfold swap. rewrite !lookup_app_l by lia. rewrite Hx, Hj.
      unfold pre2.
      rewrite <- !insert_app_l by (rewrite ?length_insert; lia). done. }
    rewrite Hswap, Hsplit, <- !app_assoc. exact Hrnd'.
Qed.
End Reach.

(** X11. [shuffle] can produce every order: for each rearrangement of the
    input there is a run of random draws that yields it. *)
Theorem shuffle_reaches_every_order {T} (input target : list T) :
  input ≡ₚ target → ∃ rnd, (shuffle input rnd).1 = target.
Proof.
  intros Hperm. unfold shuffle.
  destruct input as [|x input].
  - apply Permutation_nil_l in Hperm as <-. by exists [].
  - destruct (shuffle_loop_reaches (length input) (x :: input) [] target)
      as [rnd Hrnd]; [done|done|].
    exists rnd. rewrite !app_nil_r in Hrnd.
    by replace (length (x :: input) - 1) with (length input)
      by (cbn [length]; lia).
Qed.

Lemma shuffle_reaches_every_order_witness :
  ["a"; "b"; "c"]%string ≡ₚ ["c"; "a"; "b"]%string
  ∧ ∃ rnd, (shuffle ["a"; "b"; "c"]%string rnd).1 = ["c"; "a"; "b"]%string.
Proof.
  assert (H : ["a"; "b"; "c"]%string ≡ₚ ["c"; "a"; "b"]%string).
  { symmetry. apply (Permutation_cons_append ["a"; "b"]%string "c"%string). }
  split; [exact H|].
  exact (shuffle_reaches_every_order _ _ H).
Defined.

(** ** index.ts: emoji numerals *)

Lemma from_digits_snoc ds d :
  from_digits (ds ++ [d]) = (10 * from_digits ds + d)%N.
Proof. unfold from_digits. by rewrite fold_left_app. Qed.

Lemma from_digits_zeros k ds :
  from_digits (replicate k 0%N ++ ds) = from_digits ds.
Proof.
  unfold from_digits. rewrite fold_left_app. f_equal.
  induction k as [|k IH]; [done|]. cbn [replicate fold_left]. exact IH.
Qed.

Lemma decimal_digits_length_pos fuel n : 1 ≤ length (decimal_digits fuel n).
Proof.
  destruct fuel as [|fuel]; cbn [decimal_digits]; [cbn; lia|].
  destruct (n <? 10)%N; [cbn; lia|]. rewrite length_app. cbn. lia.
Qed.

(** With enough fuel the digits are digits, they stand for the number, and
    there are at most [k] of them exactly when the number is below
    [10 ^ k]. *)
Lemma decimal_digits_spec fuel n :
  (n < 2 ^ N.of_nat fuel)%N →
  Forall (λ d, (d < 10)%N) (decimal_digits fuel n)
  ∧ from_digits (decimal_digits fuel n) = n
  ∧ ∀ k, 1 ≤ k →
      (length (decimal_digits fuel n) ≤ k ↔ (n < 10 ^ N.of_nat k)%N).
Proof.
  revert n. induction fuel as [|fuel IH]; intros n Hn.
  - cbn in Hn. assert (n = 0%N) as -> by lia. cbn [decimal_digits].
    split_and!; [by repeat constructor|done|].
    intros k Hk. cbn [length]. split; [intros _|lia].
    apply N.lt_le_trans with 1%N; [lia|].
    apply (N.pow_le_mono_r 10 0); lia.
  - cbn [decimal_digits]. destruct (N.ltb_spec n 10) as [Hsmall|Hbig].
    + split_and!; [by repeat constructor|cbn; lia|].
      intros k Hk. cbn [length]. split; [intros _|lia].
      apply N.lt_le_trans with (10 ^ 1)%N; [lia|].
      apply N.pow_le_mono_r; lia.
    + rewrite Nat2N.inj_succ, N.pow_succ_r' in Hn.
      destruct (IH (n / 10)%N) as (Hdigits & Hvalue & Hlen).
      { apply N.Div0.div_lt_upper_bound. lia. }
      pose proof (N.div_mod n 10) as Hdm.
      pose proof (N.mod_lt n 10) as Hmod.
      split_and!.
      * apply Forall_app. split; [done|]. repeat constructor. lia.
      * rewrite from_digits_snoc, Hvalue. lia.
      * intros k Hk. rewrite length_app. cbn [length].
        destruct (decide (k = 1)) as [->|Hk1].
        -- pose proof (decimal_digits_length_pos fuel (n / 10)).
           cbn. split; lia.
        -- replace k with (S (k - 1)) at 2 by lia.
           rewrite Nat2N.inj_succ, N.pow_succ_r'.
           specialize (Hlen (k - 1)).
           split.
           ++ intros Hle. assert (n / 10 < 10 ^ N.of_nat (k - 1))%N
                by (apply Hlen; lia). lia.
           ++ intros Hlt.
              assert (n / 10 < 10 ^ N.of_nat (k - 1))%N
                by (apply N.Div0.div_lt_upper_bound; lia).
              assert (length (decimal_digits fuel (n / 10)) ≤ k - 1)
                by (apply Hlen; [lia|done]).
              lia.
Qed.

Lemma toString_spec n :
  Forall (λ d, (d < 10)%N) (toString n)
  ∧ from_digits (toString n) = n
  ∧ ∀ k, 1 ≤ k → (length (toString n) ≤ k ↔ (n < 10 ^ N.of_nat k)%N).
Proof.
  apply decimal_digits_spec. rewrite N2Nat.id. apply N.size_gt.
Qed.

Lemma length_padStart m raw : length (padStart m raw) = m `max` length raw.
Proof. unfold padStart. rewrite length_app, length_replicate. lia. Qed.

Lemma length_emojiDigits value m :
  length (emojiDigits value m)
  = m `max` length (toString (Z.to_N (0 `max` value))).
Proof. unfold emojiDigits. by rewrite length_map, length_padStart. Qed.

(** X12. [toEmojiNumber] pads to [minDigits] emoji and never cuts digits
    off: for an integer below 2^53 and [minDigits] at least 1, there are
    exactly [minDigits] emoji when the value is below [10 ^ minDigits] and
    more otherwise; a value of zero or less is shown as zero, padded. *)
Theorem emojiDigits_width (value : Z) (minDigits : nat) :
  (value < 2 ^ 53)%Z →
  1 ≤ minDigits →
  toEmojiNumber value minDigits
  = String.concat "" (emojiDigits value minDigits)
  ∧ (length (emojiDigits value minDigits) = minDigits
     ↔ (value < 10 ^ Z.of_nat minDigits)%Z)
  ∧ minDigits ≤ length (emojiDigits value minDigits)
  ∧ ((value ≤ 0)%Z →
     emojiDigits value minDigits = replicate minDigits (emojiDigit 0)).
Proof.
  intros _ Hmin. split; [done|]. rewrite length_emojiDigits.
  destruct (toString_spec (Z.to_N (0 `max` value))) as (_ & _ & Hlen).
  specialize (Hlen minDigits Hmin).
  assert (Hpow : (Z.to_N (0 `max` value) < 10 ^ N.of_nat minDigits)%N
                 ↔ (value < 10 ^ Z.of_nat minDigits)%Z).
  { assert (0 < 10 ^ Z.of_nat minDigits)%Z by (apply Z.pow_pos_nonneg; lia).
    replace (10 ^ N.of_nat minDigits)%N
      with (Z.to_N (10 ^ Z.of_nat minDigits)).
    - rewrite <- Z2N.inj_lt by lia. lia.
    - rewrite <- nat_N_Z, <- (N2Z.inj_pow 10), N2Z.id. done. }
  split_and!.
  - rewrite <- Hpow, <- Hlen. lia.
  - lia.
  - intros Hneg. unfold emojiDigits.
    replace (0 `max` value)%Z with 0%Z by lia.
    change (toString (Z.to_N 0)) with [0%N]. unfold padStart.
    cbn [length]. destruct minDigits as [|m]; [lia|].
    replace (S m - 1) with m by lia.
    rewrite map_app. change (map emojiDigit (replicate m 0%N))
      with (emojiDigit <$> replicate m 0%N).
    rewrite fmap_replicate. cbn [map replicate].
    symmetry. apply replicate_cons_app.
Qed.

Lemma emojiDigits_width_witness :
  (123 < 2 ^ 53)%Z ∧ 1 ≤ 2
  ∧ toEmojiNumber 123 2 = String.concat "" (emojiDigits 123 2)
  ∧ (length (emojiDigits 123 2) = 2 ↔ (123 < 10 ^ Z.of_nat 2)%Z)
  ∧ 2 ≤ length (emojiDigits 123 2)
  ∧ ((123 ≤ 0)%Z → emojiDigits 123 2 = replicate 2 (emojiDigit 0)).
Proof.
  assert (Hv : (123 < 2 ^ 53)%Z) by lia.
  assert (Hm : 1 ≤ 2) by lia.
  split; [exact Hv|]. split; [exact Hm|].
  exact (emojiDigits_width 123 2 Hv Hm).
Defined.

Lemma string_app_nil_r (s : string) : (s +:+ "")%string = s.
Proof.
  induction s as [|c s IH]; [done|].
  change (String c (s +:+ "") = String c s). by rewrite IH.
Qed.

Lemma string_length_app (s t : string) :
  String.length (s +:+ t) = String.length s + String.length t.
Proof.
  induction s as [|c s IH]; [done|].
  change (S (String.length (s +:+ t)) = S (String.length s) + String.length t).
  rewrite IH. lia.
Qed.

(** Two concatenations whose first parts have the same length agree
    part by part. *)
Lemma string_app_inj_length (s1 s2 t1 t2 : string) :
  String.length s1 = String.length s2 →
  (s1 +:+ t1 = s2 +:+ t2)%string → s1 = s2 ∧ t1 = t2.
Proof.
  revert s2. induction s1 as [|c s1 IH]; intros [|c' s2] Hlen Heq;
    try discriminate Hlen.
  - done.
  - change (String c (s1 +:+ t1) = String c' (s2 +:+ t2)) in Heq.
    injection Heq as -> Heq. injection Hlen as Hlen.
    destruct (IH s2 Hlen Heq) as [-> ->]. done.
Qed.

Lemma string_concat_cons (x : string) (xs : list string) :
  String.concat "" (x :: xs) = (x +:+ String.concat "" xs)%string.
Proof.
  destruct xs as [|y ys].
  - change (x = x +:+ "")%string. by rewrite string_app_nil_r.
  - done.
Qed.

Lemma digitEmoji_uniform :
  Forall (λ g, String.length g = glyph_width) digitEmoji.
Proof. repeat constructor. Qed.

Lemma digitEmoji_NoDup : NoDup digitEmoji.
Proof.
  apply (bool_decide_unpack _). vm_compute. exact I.
Qed.

Lemma glyph_width_pos : 0 < glyph_width.
Proof. vm_compute. lia. Qed.

Lemma emojiDigit_lookup d :
  (d < 10)%N → digitEmoji !! N.to_nat d = Some (emojiDigit d).
Proof.
  intros Hd. unfold emojiDigit.
  destruct (lookup_lt_is_Some_2 digitEmoji (N.to_nat d)) as [g Hg].
  { change (length digitEmoji) with 10. lia. }
  by rewrite Hg.
Qed.

Lemma emojiDigit_inj d e :
  (d < 10)%N → (e < 10)%N → emojiDigit d = emojiDigit e → d = e.
Proof.
  intros Hd He Heq. apply N2Nat.inj.
  apply (NoDup_lookup digitEmoji _ _ (emojiDigit d) digitEmoji_NoDup).
  - by apply emojiDigit_lookup.
  - rewrite Heq. by apply emojiDigit_lookup.
Qed.

Lemma emojiDigit_width d : String.length (emojiDigit d) = glyph_width.
Proof.
  unfold emojiDigit. destruct (digitEmoji !! N.to_nat d) as [g|] eqn:Hg.
  - cbn [default].
    exact (proj1 (Forall_lookup _ _) digitEmoji_uniform _ _ Hg).
  - done.
Qed.

Lemma glyphs_length (ds : list N) :
  String.length (String.concat "" (map emojiDigit ds))
  = glyph_width * length ds.
Proof.
  induction ds as [|d ds IH]; [cbn; lia|].
  cbn [map]. rewrite string_concat_cons, string_length_app, IH,
    emojiDigit_width. cbn [length]. lia.
Qed.

(** The glyph text determines the digits. *)
Lemma glyphs_inj (ds es : list N) :
  Forall (λ d, (d < 10)%N) ds → Forall (λ d, (d < 10)%N) es →
  String.concat "" (map emojiDigit ds) = String.concat "" (map emojiDigit es) →
  ds = es.
Proof.
  intros Hds. revert es. induction Hds as [|d ds Hd Hds IH];
    intros es Hes Heq.
  - destruct es as [|e es]; [done|].
    apply (f_equal String.length) in Heq. rewrite !glyphs_length in Heq.
    pose proof glyph_width_pos. cbn [length] in Heq. nia.
  - destruct Hes as [|e es He Hes].
    + apply (f_equal String.length) in Heq. rewrite !glyphs_length in Heq.
      pose proof glyph_width_pos. cbn [length] in Heq. nia.
    + cbn [map] in Heq. rewrite !string_concat_cons in Heq.
      apply string_app_inj_length in Heq as [Hhead Htail];
        [|by rewrite !emojiDigit_width].
      f_equal; [by apply emojiDigit_inj|by apply IH].
Qed.

Lemma padStart_digits m raw :
  Forall (λ d, (d < 10)%N) raw → Forall (λ d, (d < 10)%N) (padStart m raw).
Proof.
  intros Hraw. unfold padStart. apply Forall_app. split; [|done].
  apply Forall_replicate. lia.
Qed.

Lemma padded_value m n : from_digits (padStart m (toString n)) = n.
Proof.
  unfold padStart. rewrite from_digits_zeros.
  by destruct (toString_spec n) as (_ & ? & _).
Qed.

Lemma toEmojiNumber_value a b m :
  toEmojiNumber a m = toEmojiNumber b m → (0 `max` a = 0 `max` b)%Z.
Proof.
  unfold toEmojiNumber, emojiDigits. cbv zeta. intros Heq.
  apply glyphs_inj in Heq.
  - apply (f_equal from_digits) in Heq. rewrite !padded_value in Heq.
    apply Z2N.inj in Heq; lia.
  - apply padStart_digits. by destruct (toString_spec (Z.to_N (0 `max` a))).
  - apply padStart_digits. by destruct (toString_spec (Z.to_N (0 `max` b))).
Qed.

(** X13. The emoji text of a number can be read back: two integers below
    2^53 are shown by the same text exactly when they are the same after
    the clamp at zero, whatever the padding. *)
Theorem toEmojiNumber_faithful (a b : Z) (minDigits : nat) :
  (a < 2 ^ 53)%Z → (b < 2 ^ 53)%Z →
  toEmojiNumber a minDigits = toEmojiNumber b minDigits
  ↔ (0 `max` a = 0 `max` b)%Z.
Proof.
  intros _ _. split; [apply toEmojiNumber_value|].
  intros Heq. unfold toEmojiNumber, emojiDigits. cbv zeta. by rewrite Heq.
Qed.

Lemma toEmojiNumber_faithful_witness :
  (-3 < 2 ^ 53)%Z ∧ (0 < 2 ^ 53)%Z
  ∧ (toEmojiNumber (-3) 2 = toEmojiNumber 0 2
     ↔ (0 `max` (-3) = 0 `max` 0)%Z).
Proof.
  assert (Ha : (-3 < 2 ^ 53)%Z) by lia.
  assert (Hb : (0 < 2 ^ 53)%Z) by lia.
  split; [exact Ha|]. split; [exact Hb|].
  exact (toEmojiNumber_faithful (-3) 0 2 Ha Hb).
Defined.

Lemma toEmojiNumber_length value m :
  String.length (toEmojiNumber value m)
  = glyph_width * length (emojiDigits value m).
Proof.
  unfold toEmojiNumber, emojiDigits. cbv zeta.
  by rewrite glyphs_length, length_map.
Qed.

Lemma seconds_width s :
  (0 ≤ s < 60)%Z → length (emojiDigits s 2) = 2.
Proof.
  intros Hs. rewrite length_emojiDigits.
  destruct (toString_spec (Z.to_N (0 `max` s))) as (_ & _ & Hlen).
  assert (length (toString (Z.to_N (0 `max` s))) ≤ 2); [|lia].
  apply Hlen; [lia|]. change (10 ^ N.of_nat 2)%N with 100%N. lia.
Qed.

(** X14. The clock text shows whole seconds and nothing else: two
    durations below 2^53 milliseconds are shown by the same text exactly
    when they have the same number of whole seconds after the clamp at
    zero. *)
Theorem formatEmojiTime_faithful (a b : Z) :
  (a < 2 ^ 53)%Z → (b < 2 ^ 53)%Z →
  formatEmojiTime a = formatEmojiTime b
  ↔ (0 `max` (a / 1000) = 0 `max` (b / 1000))%Z.
Proof.
  intros _ _.
  split; [|intros Heq; unfold formatEmojiTime; cbv zeta; by rewrite Heq].
  unfold formatEmojiTime. cbv zeta.
  set (ta := (0 `max` (a / 1000))%Z). set (tb := (0 `max` (b / 1000))%Z).
  assert (0 ≤ ta)%Z by lia. assert (0 ≤ tb)%Z by lia.
  pose proof (Z.mod_pos_bound ta 60 ltac:(lia)).
  pose proof (Z.mod_pos_bound tb 60 ltac:(lia)).
  pose proof (Z.div_pos ta 60 ltac:(lia) ltac:(lia)).
  pose proof (Z.div_pos tb 60 ltac:(lia) ltac:(lia)).
  intros Heq.
  assert (Hlen : String.length (toEmojiNumber (ta / 60) 2)
                 = String.length (toEmojiNumber (tb / 60) 2)).
  { apply (f_equal String.length) in Heq.
    rewrite !string_length_app, !toEmojiNumber_length in Heq.
    rewrite !toEmojiNumber_length.
    rewrite (seconds_width (ta mod 60)), (seconds_width (tb mod 60)) in Heq
      by done.
    lia. }
  apply string_app_inj_length in Heq as [Hmin Hrest]; [|done].
  apply String.app_inj in Hrest.
  apply toEmojiNumber_value in Hmin, Hrest.
  pose proof (Z.div_mod ta 60 ltac:(lia)).
  pose proof (Z.div_mod tb 60 ltac:(lia)).
  lia.
Qed.

Lemma formatEmojiTime_faithful_witness :
  (61000 < 2 ^ 53)%Z ∧ (61999 < 2 ^ 53)%Z
  ∧ (formatEmojiTime 61000 = formatEmojiTime 61999
     ↔ (0 `max` (61000 / 1000) = 0 `max` (61999 / 1000))%Z).
Proof.
  assert (Ha : (61000 < 2 ^ 53)%Z) by lia.
  assert (Hb : (61999 < 2 ^ 53)%Z) by lia.
  split; [exact Ha|]. split; [exact Hb|].
  exact (formatEmojiTime_faithful 61000 61999 Ha Hb).
Defined.

Lemma emojiDigit_elem d : emojiDigit d ∈ digitEmoji.
Proof.
  unfold emojiDigit. destruct (digitEmoji !! N.to_nat d) as [g|] eqn:Hg.
  - by apply list_elem_of_lookup_2 in Hg.
  - by apply (list_elem_of_lookup_2 _ 0).
Qed.

Lemma emojiDigits_glyphs value m :
  Forall (λ g, g ∈ digitEmoji) (emojiDigits value m).
Proof.
  unfold emojiDigits. cbv zeta. apply Forall_forall. intros g Hg.
  apply list_elem_of_In, in_map_iff in Hg as (d & <- & _).
  apply emojiDigit_elem.
Qed.

(** X15. The clock text of a duration below 2^53 milliseconds is a run of
    digit glyphs for the minutes, the separator, and a run of digit glyphs
    for the seconds. The seconds field is always two glyphs and the
    minutes field at least two; the minutes field is exactly two glyphs
    precisely below one hundred minutes, and widens instead of wrapping
    from there on. *)
Theorem formatEmojiTime_fields (milliseconds : Z) :
  (milliseconds < 2 ^ 53)%Z →
  ∃ mins secs : list string,
    formatEmojiTime milliseconds
    = (String.concat "" mins +:+ timeSeparator +:+ String.concat "" secs)%string
    ∧ Forall (λ g, g ∈ digitEmoji) (mins ++ secs)
    ∧ length secs = 2
    ∧ 2 ≤ length mins
    ∧ (length mins = 2 ↔ (milliseconds < 6000000)%Z).
Proof.
  intros _.
  set (total := (0 `max` (milliseconds / 1000))%Z).
  exists (emojiDigits (total / 60) 2), (emojiDigits (total mod 60) 2).
  assert (0 ≤ total)%Z by lia.
  split_and!.
  - done.
  - apply Forall_app. split; apply emojiDigits_glyphs.
  - apply seconds_width. apply Z.mod_pos_bound. lia.
  - rewrite length_emojiDigits. lia.
  - rewrite length_emojiDigits.
    destruct (toString_spec (Z.to_N (0 `max` (total / 60)))) as (_ & _ & Hlen).
    specialize (Hlen 2 ltac:(lia)). change (10 ^ N.of_nat 2)%N with 100%N in Hlen.
    pose proof (Z.div_pos total 60 ltac:(lia) ltac:(lia)).
    assert ((total / 60 < 100)%Z ↔ (milliseconds < 6000000)%Z) as <-.
    { subst total. clear. Z.div_mod_to_equations. lia. }
    pose proof (decimal_digits_length_pos
      (N.to_nat (N.size (Z.to_N (0 `max` (total / 60)))))
      (Z.to_N (0 `max` (total / 60)))) as Hpos.
    fold (toString (Z.to_N (0 `max` (total / 60)))) in Hpos.
    split; intros Hx.
    + assert (Z.to_N (0 `max` (total / 60)) < 100)%N by (apply Hlen; lia).
      lia.
    + assert (length (toString (Z.to_N (0 `max` (total / 60)))) ≤ 2)
        by (apply Hlen; lia).
      lia.
Qed.

Lemma formatEmojiTime_fields_witness :
  (754000 < 2 ^ 53)%Z
  ∧ ∃ mins secs : list string,
      formatEmojiTime 754000
      = (String.concat "" mins +:+ timeSeparator
         +:+ String.concat "" secs)%string
      ∧ Forall (λ g, g ∈ digitEmoji) (mins ++ secs)
      ∧ length secs = 2
      ∧ 2 ≤ length mins
      ∧ (length mins = 2 ↔ (754000 < 6000000)%Z).
Proof.
  assert (H : (754000 < 2 ^ 53)%Z) by lia.
  split; [exact H|]. exact (formatEmojiTime_fields 754000 H).
Defined.

(** ** What the board shows *)

Lemma forEach_ind_elem {A} (P : World → Prop) (f : A → World → World) l w :
  P w → (∀ x w', x ∈ l → P w' → P (f x w')) → P (forEach f l w).
Proof.
  unfold forEach. revert w.
  induction l as [|x l IH]; intros w Hw Hf; [done|].
  cbn [fold_left]. apply IH.
  - apply Hf; [set_solver|done].
  - intros y w' Hy. apply Hf. set_solver.
Qed.

Lemma cards_ok_weaken M M' F F' cs :
  M ⊆ M' → F' ⊆ F → cards_ok M F cs → cards_ok M' F' cs.
Proof.
  intros HM HF [H1 H2]. split.
  - intros i c Hi Hc. apply HM. by apply (H1 i c).
  - intros i Hi. apply H2, HF, Hi.
Qed.

Lemma cards_ok_setState M F cs x st :
  (st = Matched → x ∈ M) → (st ≠ Flipped → x ∉ F) →
  cards_ok M F cs →
  cards_ok M F
    (alter (λ c, {| dataState := Some st; dataFeedback := dataFeedback c |})
           x cs).
Proof.
  intros HM HF [H1 H2]. split.
  - intros i c Hi Hc. destruct (decide (x = i)) as [->|Hne].
    + rewrite list_lookup_alter_eq in Hi.
      destruct (cs !! i) as [c0|] eqn:Hc0; [|done].
      cbn in Hi. injection Hi as <-. cbn in Hc.
      destruct Hc as [[= ->]|Hg]; [by apply HM|]. apply (H1 i c0); auto.
    + rewrite list_lookup_alter_ne in Hi by done. by apply (H1 i c).
  - intros i Hi. destruct (decide (x = i)) as [->|Hne].
    + destruct (H2 i Hi) as (c & Hc & Hs).
      rewrite list_lookup_alter_eq, Hc. cbn. eexists. split; [done|]. cbn.
      destruct st; [exfalso; by apply HF|done|exfalso; by apply HF].
    + rewrite list_lookup_alter_ne by done. auto.
Qed.

Lemma cards_ok_setFeedback M F cs x mood :
  (mood = Some Good → x ∈ M) →
  cards_ok M F cs →
  cards_ok M F
    (alter (λ c, {| dataState := dataState c; dataFeedback := mood |}) x cs).
Proof.
  intros HM [H1 H2]. split.
  - intros i c Hi Hc. destruct (decide (x = i)) as [->|Hne].
    + rewrite list_lookup_alter_eq in Hi.
      destruct (cs !! i) as [c0|] eqn:Hc0; [|done].
      cbn in Hi. injection Hi as <-. cbn in Hc.
      destruct Hc as [Hs|Hg]; [apply (H1 i c0); auto|by apply HM].
    + rewrite list_lookup_alter_ne in Hi by done. by apply (H1 i c).
  - intros i Hi. destruct (decide (x = i)) as [->|Hne].
    + destruct (H2 i Hi) as (c & Hc & Hs).
      rewrite list_lookup_alter_eq, Hc. cbn. by eexists.
    + rewrite list_lookup_alter_ne by done. auto.
Qed.

(** A callback whose marks are in [M] and outside [F] keeps the cards in
    agreement; the unlocking callback empties the flip buffer. *)
Lemma runCallback_cards_ok M F cb w :
  marks cb ⊆ M →
  (∀ i, i ∈ marks cb → i ∉ F) →
  cards_ok M F (cardRefs w) →
  cards_ok M (match cb with CbMismatchReset _ => [] | _ => F end)
    (cardRefs (runCallback cb w)).
Proof.
  intros HM HF Hok. destruct cb as [idxs mood d|idxs mood|idxs|idxs];
    cbn [runCallback].
  - unfold flashFeedback. cbn [setTimeout set_timeouts cardRefs].
    apply (forEach_ind_elem (λ w', cards_ok M F (cardRefs w'))); [done|].
    intros x w' Hx Hw'. cbn [setFeedback set_cardRefs cardRefs].
    apply cards_ok_setFeedback; [|done].
    intros [= ->]. by apply HM.
  - unfold flashFeedbackEnd.
    apply (forEach_ind (λ w', cards_ok M F (cardRefs w'))); [done|].
    intros x w' Hw'.
    destruct (flashFeedbackEnd_step_cases x mood w') as [-> | ->]; [done|].
    cbn [setFeedback set_cardRefs cardRefs].
    by apply cards_ok_setFeedback.
  - unfold mismatchReset. cbn [upd_state cardRefs].
    apply (forEach_ind (λ w', cards_ok M [] (cardRefs w'))).
    + apply (forEach_ind (λ w', cards_ok M [] (cardRefs w'))).
      * revert Hok. apply cards_ok_weaken; set_solver.
      * intros x w' Hw'. cbn [setCardVisualState set_cardRefs cardRefs].
        apply cards_ok_setState; [done|set_solver|done].
    + intros x w' Hw'. cbn [setFeedback set_cardRefs cardRefs].
      by apply cards_ok_setFeedback.
  - apply (forEach_ind_elem (λ w', cards_ok M F (cardRefs w'))); [done|].
    intros x w' Hx Hw'. cbn [setCardVisualState set_cardRefs cardRefs].
    apply cards_ok_setState; [intros _; by apply HM|intros _; by apply HF|done].
Qed.

Lemma display_ok_weaken w w' :
  cardRefs w' = cardRefs w →
  matched (state w) ⊆ matched (state w') →
  flipped (state w') ⊆ flipped (state w) →
  (∀ due cb, (due, cb) ∈ timeouts w' →
     (due, cb) ∈ timeouts w ∨ marks cb ⊆ matched (state w')) →
  display_ok w → display_ok w'.
Proof.
  intros Hcards HM HF Ht [Hc Hq]. split.
  - rewrite Hcards. revert Hc. by apply cards_ok_weaken.
  - intros due cb Hin. destruct (Ht due cb Hin) as [Hold|Hnew]; [|done].
    etrans; [by apply (Hq due cb)|done].
Qed.

Lemma revealed_display_ok index w :
  index < length (cardRefs w) →
  display_ok w → display_ok (revealed index w).
Proof.
  intros Hlt [Hc Hq]. split.
  - rewrite revealed_cardRefs, revealed_matched, revealed_flipped.
    destruct (cards_ok_setState (matched (state w)) (flipped (state w))
                (cardRefs w) index Flipped) as [H1 H2]; [done|done|done|].
    split; [done|].
    intros i [Hi| ->%list_elem_of_singleton]%elem_of_app; [by apply H2|].
    destruct (lookup_lt_is_Some_2 (cardRefs w) index Hlt) as [c Hc0].
    rewrite list_lookup_alter_eq, Hc0. cbn. by eexists.
  - by rewrite revealed_timeouts, revealed_matched.
Qed.

Lemma handleFlip_display_ok index w :
  index < length (cardRefs w) →
  display_ok w → display_ok (handleFlip index w).
Proof.
  intros Hlt Hok.
  destruct (rejected index (state w)) eqn:Hrej.
  { by rewrite handleFlip_guards. }
  pose proof (revealed_display_ok index w Hlt Hok) as Hrev.
  destruct (decide (length (flipped (state w) ++ [index]) = 2)) as [Hlen|Hlen];
    [|by rewrite handleFlip_opens].
  destruct (flipped (state w)) as [|first [|? ?]] eqn:Hfl;
    [done| |rewrite length_app in Hlen; cbn in Hlen; lia].
  rewrite (handleFlip_completes index first) by done. cbn zeta.
  assert (Hflr : flipped (state (revealed index w)) = [first; index])
    by (by rewrite revealed_flipped, Hfl).
  revert Hrev Hflr. generalize (revealed index w). intros wr Hrev Hflr.
  destruct (_ || _); [|case_bool_decide].
  - revert Hrev. apply display_ok_weaken; cbn; [done|done|set_solver|auto].
  - revert Hrev. apply display_ok_weaken.
    + by rewrite checkVictory_cardRefs.
    + rewrite checkVictory_matched. cbn. set_solver.
    + rewrite checkVictory_flipped. cbn. set_solver.
    + intros due cb. rewrite checkVictory_timeouts, checkVictory_matched.
      cbn. rewrite !elem_of_app, !list_elem_of_singleton.
      intros [[Hold|Heq]|Heq]; [by left|right..];
        injection Heq as _ ->; cbn; intros x Hx; apply elem_of_app; by right.
  - revert Hrev. apply display_ok_weaken; cbn; [done|done|done|].
    intros due cb. rewrite !elem_of_app, !list_elem_of_singleton.
    intros [[Hold|Heq]|Heq]; [by left|right..];
      injection Heq as _ ->; cbn; set_solver.
Qed.

Lemma fireTimeout_display_ok k w :
  session_ok w → display_ok w → display_ok (fireTimeout k w).
Proof.
  intros (_ & Hnd & _) Hok.
  destruct (fireTimeout_cases k w) as [-> | (due & cb & Hk & _ & ->)]; [done|].
  destruct Hok as [Hc Hq].
  assert (Hmarks : marks cb ⊆ matched (state w)).
  { apply (Hq due). by apply list_elem_of_lookup_2 in Hk. }
  apply NoDup_app in Hnd as (_ & Hdisj & _).
  split.
  - rewrite runCallback_state.
    pose proof (runCallback_cards_ok (matched (state w)) (flipped (state w))
      cb (set_timeouts (delete k (timeouts w)) w) Hmarks) as Hrun.
    destruct cb; apply Hrun; try done; intros i Hi Hf;
      by apply (Hdisj i Hf), Hmarks.
  - intros due' cb'. rewrite runCallback_timeouts, runCallback_state.
    assert (Hm : matched
              (match cb with
               | CbMismatchReset _ =>
                   set_locked false
                     (set_flipped []
                        (state (set_timeouts (delete k (timeouts w)) w)))
               | _ => state (set_timeouts (delete k (timeouts w)) w)
               end) = matched (state w)) by (by destruct cb).
    rewrite Hm. intros Hin.
    assert (Hcases : (due', cb') ∈ timeouts w ∨ marks cb' = []).
    { destruct cb; cbn [timeouts set_timeouts] in Hin;
        try (left; by apply list_elem_of_delete_inv in Hin).
      apply elem_of_app in Hin as [Hin|Hin].
      - left. by apply list_elem_of_delete_inv in Hin.
      - right. apply list_elem_of_singleton in Hin. by injection Hin as _ ->. }
    destruct Hcases as [Hold| ->]; [by apply (Hq due')|set_solver].
Qed.

Lemma fireTick_timeouts w : timeouts (fireTick w) = timeouts w.
Proof.
  unfold fireTick, tickTimer. destruct (timerHandle w); [|done].
  case_bool_decide; [|done]. cbn. by destruct (runningSince (state w)).
Qed.

Lemma fireTick_display_ok w : display_ok w → display_ok (fireTick w).
Proof.
  apply display_ok_weaken.
  - apply fireTick_cardRefs.
  - by destruct (fireTick_state w) as [-> | [elapsed ->]].
  - by destruct (fireTick_state w) as [-> | [elapsed ->]].
  - intros due cb. rewrite fireTick_timeouts. auto.
Qed.

Lemma step_display_ok e w :
  is_reset e = false →
  session_ok w → display_ok w → display_ok (step e w).
Proof.
  intros He Hs Hok. destruct e as [index|level rnd|dt|k|]; cbn [step].
  - case_bool_decide; [by apply handleFlip_display_ok|done].
  - discriminate He.
  - done.
  - by apply fireTimeout_display_ok.
  - by apply fireTick_display_ok.
Qed.

Lemma initialWorld_display_ok rnd t0 : display_ok (initialWorld rnd t0).
Proof.
  unfold display_ok, initialWorld.
  rewrite rebuildBoard_state, rebuildBoard_cardRefs,
    rebuildBoard_timeouts by done.
  cbn. split; [split|].
  - by intros i c [-> _]%lookup_replicate [?|?].
  - intros i Hi. set_solver.
  - intros due cb Hin. set_solver.
Qed.

Lemma run_display_ok evs w :
  Forall (λ e, is_reset e = false) evs →
  session_ok w → display_ok w → display_ok (run evs w).
Proof.
  intros Hevs. revert w.
  induction Hevs as [|e evs He Hevs IH]; intros w Hs Hok; [done|].
  cbn [run fold_left]. apply IH.
  - by apply step_session_ok.
  - by apply step_display_ok.
Qed.

(** X18. The board shows the game on every page reached without a reset,
    whatever the order in which due callbacks run: a card labelled as
    matched is in the matched set, a card carrying the good pulse is in
    the matched set, and every revealed position has a card labelled as
    flipped. *)
Theorem board_shows_the_game (rnd : list nat) (t0 : Z) (evs : list Event) :
  Forall (λ e, is_reset e = false) evs →
  let w := run evs (initialWorld rnd t0) in
  (∀ i c, cardRefs w !! i = Some c →
     dataState c = Some Matched → i ∈ matched (state w))
  ∧ (∀ i c, cardRefs w !! i = Some c →
       dataFeedback c = Some Good → i ∈ matched (state w))
  ∧ (∀ i, i ∈ flipped (state w) →
       ∃ c, cardRefs w !! i = Some c ∧ dataState c = Some Flipped).
Proof.
  intros Hevs. cbv zeta.
  destruct (run_display_ok evs (initialWorld rnd t0) Hevs
              (initialWorld_session_ok rnd t0)
              (initialWorld_display_ok rnd t0)) as [[H1 H2] _].
  split_and!; [|  |done].
  - intros i c Hi Hc. apply (H1 i c); auto.
  - intros i c Hi Hc. apply (H1 i c); auto.
Qed.

Lemma board_shows_the_game_witness :
  Forall (λ e, is_reset e = false) [EClick 0; EClick 6; EElapse 250; EFire 0]
  ∧ let w := run [EClick 0; EClick 6; EElapse 250; EFire 0]
               (initialWorld [] 0) in
    (∀ i c, cardRefs w !! i = Some c →
       dataState c = Some Matched → i ∈ matched (state w))
    ∧ (∀ i c, cardRefs w !! i = Some c →
         dataFeedback c = Some Good → i ∈ matched (state w))
    ∧ (∀ i, i ∈ flipped (state w) →
         ∃ c, cardRefs w !! i = Some c ∧ dataState c = Some Flipped).
Proof.
  assert (Hevs : Forall (λ e, is_reset e = false)
                   [EClick 0; EClick 6; EElapse 250; EFire 0])
    by (repeat constructor).
  split; [exact Hevs|].
  exact (board_shows_the_game [] 0 _ Hevs).
Defined.

(** ** The solver, round by round *)

Lemma bucket_push_head symbol index k g rest :
  ∃ g' rest', bucket_push symbol index ((k, g) :: rest) = (k, g') :: rest'.
Proof. cbn [bucket_push]. case_bool_decide; eauto. Qed.

Lemma fold_bucket_push_head (l : list (nat * string)) k g rest :
  ∃ g' rest',
    fold_left (λ buckets p, bucket_push p.2 p.1 buckets) l ((k, g) :: rest)
    = (k, g') :: rest'.
Proof.
  revert g rest. induction l as [|p l IH]; intros g rest; [eauto|].
  cbn [fold_left].
  destruct (bucket_push_head p.2 p.1 k g rest) as (g' & rest' & ->).
  apply IH.
Qed.

(** The first bucket is the one of the leftmost unmatched position. *)
Lemma collect_buckets_head s i symbol l :
  unmatched s = (i, symbol) :: l →
  ∃ rest, collect_buckets s = (symbol, group symbol (unmatched s)) :: rest.
Proof.
  intros Hun. destruct (collect_buckets_spec s) as (_ & _ & Hget).
  specialize (Hget symbol). revert Hget.
  rewrite collect_buckets_unmatched, Hun. cbn [fold_left bucket_push fst snd].
  destruct (fold_bucket_push_head l symbol [i] []) as (g' & rest' & ->).
  cbn [bucket_get]. rewrite bool_decide_eq_true_2 by done. intros ->. eauto.
Qed.

Lemma unmatched_head_leftmost s i symbol l :
  unmatched s = (i, symbol) :: l → ∀ j, j < i → j ∈ matched s.
Proof.
  intros Hun j Hj.
  destruct (decide (j ∈ matched s)) as [|Hnm]; [done|]. exfalso.
  assert (Hi : (i, symbol) ∈ unmatched s) by (rewrite Hun; by left).
  apply unmatched_elem in Hi as [_ Hdi]. apply lookup_lt_Some in Hdi.
  destruct (lookup_lt_is_Some_2 (deck s) j) as [sj Hsj]; [lia|].
  assert (Hin : (j, sj) ∈ unmatched s) by (by apply unmatched_elem).
  rewrite Hun in Hin. apply elem_of_cons in Hin as [Heq|Hin].
  { injection Heq as -> _. lia. }
  assert (Hsub : [i; j] `sublist_of` seq 0 (length (deck s))).
  { rewrite <- positions_fst.
    trans ((unmatched s).*1);
      [|apply fmap_sublist; unfold unmatched; apply sublist_filter].
    rewrite Hun. cbn [fmap list_fmap fst]. apply sublist_skip.
    apply singleton_sublist_l.
    by apply (list_elem_of_fmap_2 fst) in Hin. }
  apply sublist_seq_lt in Hsub. lia.
Qed.

(** Under the pairing invariant [pickNextPair] returns the leftmost
    pair. *)
Lemma pickNextPair_leftmost s a b :
  (∀ symbol, length (group symbol (unmatched s)) = 0
             ∨ length (group symbol (unmatched s)) = 2) →
  pickNextPair s = Some (a, b) →
  leftmost_pair s a b.
Proof.
  intros Hpaired Hpick.
  destruct (pickNextPair_Some _ _ _ Hpaired Hpick) as [symbol Hgroup].
  assert (Ha : (a, symbol) ∈ unmatched s).
  { apply group_elem. rewrite Hgroup. by left. }
  assert (Hb : (b, symbol) ∈ unmatched s).
  { apply group_elem. rewrite Hgroup. right. by left. }
  pose proof Ha as [Ham Had]%unmatched_elem.
  pose proof Hb as [Hbm Hbd]%unmatched_elem.
  assert (Hab : a < b).
  { apply (sublist_seq_lt a b [] 0 (length (deck s))).
    rewrite <- Hgroup. apply group_sublist. }
  assert (Hleft : ∀ j, j < a → j ∈ matched s).
  { destruct (unmatched s) as [|[i0 s0] l] eqn:Hun;
      [by apply elem_of_nil in Ha|].
    destruct (collect_buckets_head s i0 s0 l Hun) as [rest Hcb].
    rewrite Hun in Hcb.
    assert (Hg0 : group s0 ((i0, s0) :: l) = i0 :: group s0 l).
    { unfold group. by rewrite filter_cons_True. }
    unfold pickNextPair in Hpick. rewrite Hcb, Hg0 in Hpick.
    destruct (Hpaired s0) as [Hlen|Hlen]; rewrite Hg0 in Hlen;
      cbn [length] in Hlen; [lia|].
    destruct (group s0 l) as [|y [|? ?]]; cbn [length] in Hlen; try lia.
    cbn [first_pair] in Hpick. injection Hpick as -> _.
    by apply (unmatched_head_leftmost s a s0 l). }
  split_and!; try done.
  exists symbol. split_and!; [done|done|].
  intros j Hjm Hjd.
  assert (Hj : j ∈ group symbol (unmatched s))
    by (by apply group_elem, unmatched_elem).
  rewrite Hgroup in Hj.
  apply elem_of_cons in Hj as [->|Hj]; [by left|].
  apply list_elem_of_singleton in Hj. by right.
Qed.

(** The two reveals of a round: both are accepted by [handleFlip], and
    after the second wait the pair is in the matched set. *)
Lemma solver_round_detail w a b :
  solver_ready w →
  victory (state w) = false →
  pickNextPair (state w) = Some (a, b) →
  ∃ w1 w',
    rejected a (state w) = false
    ∧ sleep (FLIP_DURATION + 120) (handleFlip a w) = Some w1
    ∧ rejected b (state w1) = false
    ∧ sleep WAIT_AFTER_MATCH (handleFlip b w1) = Some w'
    ∧ flipPairAutomatically a b w = Some w'
    ∧ matched (state w') = matched (state w) ++ [a; b]
    ∧ deck (state w') = deck (state w).
Proof.
  intros (Hfl & Hl & Hpend & Hcards & Hsyms & Hvic & Hcount & Hpaired) Hv Hpick.
  destruct (pickNextPair_Some _ _ _ Hpaired Hpick) as [symbol Hgroup].
  assert (Ha : (a, symbol) ∈ unmatched (state w)).
  { apply group_elem. rewrite Hgroup. by left. }
  assert (Hb : (b, symbol) ∈ unmatched (state w)).
  { apply group_elem. rewrite Hgroup. right. by left. }
  apply unmatched_elem in Ha as [Ham Had].
  apply unmatched_elem in Hb as [Hbm Hbd].
  assert (Hab : a ≠ b).
  { pose proof (group_NoDup symbol _ (unmatched_NoDup (state w))) as Hnd.
    rewrite Hgroup in Hnd. apply NoDup_cons in Hnd as [Hnd _].
    intros ->. apply Hnd. by left. }
  assert (Hsym : symbol ≠ ""%string)
    by apply (Forall_lookup_1 _ _ _ _ Hsyms Had).
  assert (Hca : is_Some (cardRefs w !! a)).
  { apply lookup_lt_is_Some. rewrite Hcards. by eapply lookup_lt_Some. }
  assert (Hcb : is_Some (cardRefs w !! b)).
  { apply lookup_lt_is_Some. rewrite Hcards. by eapply lookup_lt_Some. }
  destruct Hca as [ca Hca], Hcb as [cb Hcb].
  assert (Hrej_a : rejected a (state w) = false).
  { apply rejected_false. rewrite Hfl.
    split_and!; [done|done|apply not_elem_of_nil|done]. }
  assert (Hopen : handleFlip a w = revealed a w).
  { apply handleFlip_opens; [done|]. rewrite Hfl. cbn. lia. }
  destruct (sleep_quiet (FLIP_DURATION + 120) (revealed a w))
    as (w1 & Hsl1 & [e1 Hs1] & Hp1 & Hc1).
  { unfold pending_resets. by rewrite revealed_timeouts. }
  assert (Hfl1 : flipped (state w1) = [a]).
  { rewrite Hs1. cbn [flipped set_elapsedMs].
    by rewrite revealed_flipped, Hfl. }
  assert (Hm1 : matched (state w1) = matched (state w)).
  { rewrite Hs1. cbn [matched set_elapsedMs]. apply revealed_matched. }
  assert (Hd1 : deck (state w1) = deck (state w)).
  { rewrite Hs1. cbn [deck set_elapsedMs]. apply revealed_deck. }
  assert (Hrej_b : rejected b (state w1) = false).
  { apply rejected_false. rewrite Hfl1, Hm1, Hs1.
    cbn [locked victory set_elapsedMs].
    rewrite revealed_locked, revealed_victory.
    split_and!; [done|done| |done].
    rewrite not_elem_of_cons. split; [done|apply not_elem_of_nil]. }
  destruct (match_branch_fields b a symbol w1)
    as (Hm2 & Hfl2 & Hl2 & Hv2 & Hmv2 & Hd2 & Hp2 & Hc2);
    [done|done|by rewrite Hd1|by rewrite Hd1|done|].
  destruct (sleep_quiet WAIT_AFTER_MATCH (handleFlip b w1))
    as (w3 & Hsl3 & [e3 Hs3] & Hp3 & Hc3).
  { by rewrite Hp2. }
  exists w1, w3. split_and!.
  - done.
  - by rewrite Hopen.
  - done.
  - done.
  - unfold flipPairAutomatically. rewrite Hca, Hcb, Hopen, Hsl1.
    cbn [mbind option_bind]. done.
  - rewrite Hs3. cbn [matched set_elapsedMs]. by rewrite Hm2, Hm1.
  - rewrite Hs3. cbn [deck set_elapsedMs]. by rewrite Hd2, Hd1.
Qed.

(** The loop plays one round per remaining pair, each on the leftmost
    pair, and then sees the victory flag. *)
Lemma solver_loop_plays r fuel guard w :
  solver_ready w →
  length (unmatched (state w)) = 2 * r →
  r < fuel → guard + r ≤ 200 →
  ∃ w' ps, solver_loop fuel guard w = Some w'
           ∧ solver_plays w ps w'
           ∧ length ps = r
           ∧ victory (state w') = true
           ∧ moves (state w') = moves (state w) + r
           ∧ matched (state w') = matched (state w) ++ reveals ps
           ∧ deck (state w') = deck (state w).
Proof.
  revert fuel guard w.
  induction r as [|r IH]; intros fuel guard w Hready Hleft Hfuel Hguard;
    (destruct fuel as [|fuel]; [lia|]); cbn [solver_loop];
    pose proof Hready as (Hfl & Hl & _ & _ & _ & Hvic & Hcount & Hpaired).
  - assert (Hv : victory (state w) = true).
    { rewrite Hvic. apply bool_decide_eq_true_2. lia. }
    rewrite Hv. cbn [negb andb]. exists w, [].
    split_and!; try done; [constructor|].
    cbn [reveals flat_map]. by rewrite app_nil_r.
  - assert (Hv : victory (state w) = false).
    { rewrite Hvic. apply bool_decide_eq_false_2. lia. }
    rewrite Hv, Hl. cbn [negb andb].
    rewrite bool_decide_eq_true_2 by lia.
    destruct (pickNextPair (state w)) as [[a b]|] eqn:Hpick.
    + destruct (solver_round_detail w a b Hready Hv Hpick)
        as (wa & wb & Hra & Hsa & Hrb & Hsb & Hfp & Hmb & Hdb).
      destruct (solver_round w a b Hready Hv Hpick)
        as (w1 & Hfp1 & Hready1 & Hmoves1 & Hleft1).
      rewrite Hfp in Hfp1. injection Hfp1 as <-.
      rewrite Hfp. cbn [mbind option_bind].
      destruct (IH fuel (guard + 1) wb)
        as (w' & ps & Hrun & Hplays & Hlen & Hv' & Hmoves' & Hm' & Hd');
        [done|lia|lia|lia|].
      exists w', ((a, b) :: ps). split_and!.
      * done.
      * apply (solver_plays_cons w a b wa wb); try done.
        by apply pickNextPair_leftmost.
      * cbn [length]. lia.
      * done.
      * lia.
      * rewrite Hm', Hmb. cbn [reveals flat_map fst snd].
        by rewrite <- app_assoc.
      * by rewrite Hd', Hdb.
    + apply (pickNextPair_None _ Hpaired) in Hpick.
      rewrite Hpick in Hleft. cbn in Hleft. lia.
Qed.

(** C9. On a freshly built chill page, whatever the shuffle, the solver
    (given at least seven rounds of its loop) returns, with [victory] true
    and exactly 6 moves, after six rounds. In each round the pair it picks
    with [pickNextPair] is the leftmost one: the leftmost unmatched
    position and the one other unmatched position with the same symbol, so
    a true pair. Both positions are revealed through [handleFlip], which
    accepts both, and the round counts one move and puts the pair into the
    matched set. In the end the matched set is the six pairs in the order
    played, on the deck the page started with. *)
Theorem solver_wins_chill (rnd : list nat) (t0 : Z) (fuel : nat) :
  7 ≤ fuel →
  ∃ w' ps, secretSolvePuzzle fuel (initialWorld rnd t0) = Some w'
           ∧ victory (state w') = true
           ∧ moves (state w') = 6
           ∧ length ps = 6
           ∧ solver_plays (initialWorld rnd t0) ps w'
           ∧ matched (state w') = reveals ps
           ∧ deck (state w') = deck (state (initialWorld rnd t0)).
Proof.
  intros Hfuel.
  destruct (initialWorld_solver_ready rnd t0) as (Hready & Hleft & Hmoves).
  unfold secretSolvePuzzle.
  assert (Hv : victory (state (initialWorld rnd t0)) = false).
  { by rewrite initialWorld_state. }
  assert (Hm : matched (state (initialWorld rnd t0)) = []).
  { by rewrite initialWorld_state. }
  rewrite Hv.
  destruct (solver_loop_plays 6 fuel 0 (initialWorld rnd t0))
    as (w' & ps & Hrun & Hplays & Hlen & Hv' & Hmoves' & Hm' & Hd');
    [done|done|lia|lia|].
  exists w', ps. rewrite Hm in Hm'. split_and!; try done. lia.
Qed.

Lemma solver_wins_chill_witness :
  7 ≤ 7
  ∧ ∃ w' ps,
      secretSolvePuzzle 7 (initialWorld [3; 1; 4; 1; 5; 9; 2; 6] 0) = Some w'
      ∧ victory (state w') = true
      ∧ moves (state w') = 6
      ∧ length ps = 6
      ∧ solver_plays (initialWorld [3; 1; 4; 1; 5; 9; 2; 6] 0) ps w'
      ∧ matched (state w') = reveals ps
      ∧ deck (state w')
        = deck (state (initialWorld [3; 1; 4; 1; 5; 9; 2; 6] 0)).
Proof.
  split; [lia|].
  apply (solver_wins_chill [3; 1; 4; 1; 5; 9; 2; 6] 0 7). lia.
Defined.

(** ** Every stimulus *)

Lemma react_all_invariant (P : World → Prop) xs w :
  P w → (∀ x w', P w' → P (react x w')) → P (react_all xs w).
Proof.
  intros Hw Hstep. revert w Hw.
  induction xs as [|x xs IH]; intros w Hw; [done|].
  cbn [react_all fold_left]. apply IH, Hstep, Hw.
Qed.

(** Every event of [step] is a stimulus, or nothing at all. *)
Lemma step_react e w : step e w = w ∨ ∃ x, step e w = react x w.
Proof.
  destruct e as [index|level rnd|dt|k|]; cbn [step].
  - case_bool_decide; [right|by left].
    exact (ex_intro _ (SClick index) eq_refl).
  - right. exact (ex_intro _ (SReset level rnd) eq_refl).
  - right. exact (ex_intro _ (SClock (now w + Z.of_N dt)) eq_refl).
  - unfold fireTimeout.
    destruct (timeouts w !! k) as [[due cb]|] eqn:Hk; [|by left].
    case_bool_decide; [|by left].
    right. exists (STimeout k). cbn [react]. rewrite Hk. reflexivity.
  - unfold fireTick. destruct (timerHandle w) as [due|] eqn:Hh; [|by left].
    case_bool_decide; [|by left].
    right. exists SInterval. cbn [react]. rewrite Hh. reflexivity.
Qed.

(** So every page that [run] reaches is reached by stimuli. *)
Lemma run_react evs w : ∃ xs, run evs w = react_all xs w.
Proof.
  revert w. induction evs as [|e evs IH]; intros w; [by exists []|].
  change (∃ xs, run evs (step e w) = react_all xs w).
  destruct (step_react e w) as [-> | [x ->]]; [apply IH|].
  destruct (IH (react x w)) as [xs Hxs]. by exists (x :: xs).
Qed.

(** *** The flip buffer *)

Lemma session_ok_buffer_ok w : session_ok w → buffer_ok w.
Proof.
  intros (Hcards & Hnodup & Hrange & Hlen & Hunl & _ & _).
  apply Forall_app in Hrange as [_ Hrange]. by split_and!.
Qed.

Lemma handleFlip_buffer_ok index w :
  buffer_ok w → buffer_ok (handleFlip index w).
Proof.
  intros Hok.
  destruct (rejected index (state w)) eqn:Hrej.
  { by rewrite handleFlip_guards. }
  destruct Hok as (Hcards & Hnodup & Hrange & Hlen & Hunl).
  pose proof Hrej as (Hl & Hv & Hf & Hm)%rejected_false.
  specialize (Hunl Hl).
  destruct (decide (length (flipped (state w) ++ [index]) = 2)) as [Htwo|Htwo].
  - destruct (flipped (state w)) as [|first [|? ?]] eqn:Hfl;
      [done| |cbn in Hunl; lia].
    cbn [app] in Hnodup.
    apply NoDup_cons in Hnodup as [Hfirst Hnodup].
    destruct (handleFlip_turn_cases index first w Hrej Hfl)
      as [[_ ->]|[(symbol & H1 & H2 & Hsym)|Hmis]].
    + unfold buffer_ok.
      cbn [state upd_state count_move cardRefs flipped matched deck locked
           moves set_locked set_flipped set_moves].
      rewrite revealed_cardRefs, length_alter, revealed_matched,
        revealed_deck.
      split_and!; cbn [app length]; try done; lia.
    + destruct (match_branch_fields index first symbol w)
        as (Hm2 & Hfl2 & Hl2 & _ & Hmv2 & Hd2 & _ & Hc2); try done.
      unfold buffer_ok. rewrite Hm2, Hfl2, Hl2, Hd2, Hc2.
      cbn [app length].
      split_and!; try done; try lia.
      * apply NoDup_app. split_and!; [done| |].
        -- intros x Hx [->|[->|[]%elem_of_nil]%elem_of_cons]%elem_of_cons;
             [done|by apply Hm].
        -- apply NoDup_cons. split; [|apply NoDup_singleton].
           intros ->%list_elem_of_singleton. apply Hf. by left.
      * apply Forall_app. split; [done|].
        apply lookup_lt_Some in H1, H2. by repeat constructor.
    + rewrite (handleFlip_mismatch_eq index first) by done.
      unfold buffer_ok.
      cbn [state upd_state queueMismatchReset setTimeout set_timeouts
           count_move cardRefs flipped matched deck locked moves
           set_locked set_moves].
      rewrite revealed_cardRefs, length_alter, revealed_matched,
        revealed_deck, revealed_flipped, Hfl.
      cbn [app length].
      split_and!; try done; try lia.
      apply NoDup_cons. split.
      * rewrite elem_of_cons. intros [->|?]; [|done].
        apply Hf. by left.
      * apply NoDup_cons. split; done.
  - rewrite handleFlip_opens by done. unfold buffer_ok.
    rewrite revealed_cardRefs, length_alter, revealed_matched, revealed_deck,
      revealed_flipped, revealed_locked, Hl.
    rewrite length_app in *. cbn [length] in *.
    split_and!; try done; try lia.
    rewrite <- app_assoc. apply NoDup_app in Hnodup as (Hn1 & Hn2 & Hn3).
    apply NoDup_app. split_and!; [done| |].
    + intros x Hx [->%list_elem_of_singleton|Hin]%elem_of_app; [done|].
      by apply (Hn2 x).
    + apply NoDup_cons. split; done.
Qed.

Lemma buffer_ok_frame w w' :
  length (cardRefs w') = length (cardRefs w) →
  (state w' = state w
   ∨ ∃ elapsed, state w' = set_elapsedMs elapsed (state w)) →
  buffer_ok w → buffer_ok w'.
Proof.
  unfold buffer_ok. intros -> [->|[elapsed ->]]; done.
Qed.

Lemma runCallback_buffer_ok cb w : buffer_ok w → buffer_ok (runCallback cb w).
Proof.
  intros Hok. destruct cb as [idxs mood d|idxs mood|idxs|idxs].
  2,4: revert Hok; apply buffer_ok_frame;
    [apply runCallback_cardRefs_length|left; by rewrite runCallback_state].
  - revert Hok. apply buffer_ok_frame;
      [apply runCallback_cardRefs_length|left; by rewrite runCallback_state].
  - destruct Hok as (Hcards & Hnodup & Hrange & Hlen & Hunl).
    unfold buffer_ok.
    rewrite runCallback_state, runCallback_cardRefs_length.
    cbn [flipped matched deck locked set_locked set_flipped app length].
    apply NoDup_app in Hnodup as (_ & _ & Hnodup).
    split_and!; try done; lia.
Qed.

Lemma react_buffer_ok x w : buffer_ok w → buffer_ok (react x w).
Proof.
  intros Hok. destruct x as [index|level rnd|t|k|]; cbn [react].
  - by apply handleFlip_buffer_ok.
  - unfold buffer_ok.
    rewrite softReset_state, softReset_cardRefs_length. cbn.
    split_and!; try done; try lia; constructor.
  - done.
  - destruct (timeouts w !! k) as [[due cb]|]; [|done].
    apply runCallback_buffer_ok. revert Hok.
    apply buffer_ok_frame; [done|by left].
  - destruct (timerHandle w) as [due|]; [|done].
    destruct (tickTimer_state (set_timerHandle (Some (due + 400)%Z) w))
      as [elapsed Hst].
    revert Hok. apply buffer_ok_frame.
    + by rewrite tickTimer_cardRefs.
    + right. exists elapsed. exact Hst.
Qed.

(** X1. Under everything that can happen to the page (clicks with any
    index, those of card buttons that a reset took off the board included;
    resets; any reading of the clock; any armed timeout, stale ones
    included; the interval) the flip buffer holds at most two positions,
    and at most one unless the game is locked; no position is twice in the
    buffer or the matched set or in both; every matched position is a
    position of the deck; and the board has one card per deck position. *)
Theorem flip_buffer_bounded
  (rnd : list nat) (t0 : Z) (xs : list Stimulus) :
  let w := react_all xs (initialWorld rnd t0) in
  length (flipped (state w)) ≤ 2
  ∧ (locked (state w) = false → length (flipped (state w)) ≤ 1)
  ∧ NoDup (flipped (state w) ++ matched (state w))
  ∧ Forall (λ i, i < length (deck (state w))) (matched (state w))
  ∧ length (cardRefs w) = length (deck (state w)).
Proof.
  cbv zeta.
  assert (Hok : buffer_ok (react_all xs (initialWorld rnd t0))).
  { apply react_all_invariant; [|apply react_buffer_ok].
    apply session_ok_buffer_ok, initialWorld_session_ok. }
  destruct Hok as (Hcards & Hnodup & Hrange & Hlen & Hunl).
  split_and!; done.
Qed.

(** *** The stopwatch and the best times *)

Lemma clock_ok_frame w w' :
  timerHandle w' = timerHandle w →
  runningSince (state w') = runningSince (state w) →
  elapsedMs (state w') = elapsedMs (state w) →
  bestTimes (state w') = bestTimes (state w) →
  difficulty (state w') = difficulty (state w) →
  victory (state w') = victory (state w) →
  clock_ok w → clock_ok w'.
Proof.
  unfold clock_ok. intros -> -> -> -> -> ->. done.
Qed.

Lemma revealed_clock_ok index w :
  victory (state w) = false → clock_ok w → clock_ok (revealed index w).
Proof.
  intros Hv (Hiff & Hidle & _).
  unfold clock_ok, revealed, startTimer, tickTimer.
  destruct (runningSince (state w)) as [since|] eqn:Hrun.
  - cbn. rewrite Hrun, Hv. split_and!; done.
  - rewrite bool_decide_eq_false_2 by (intros Hne; by apply Hne).
    cbn. rewrite Hv. split_and!; [split; discriminate|done|done].
Qed.

Lemma handleWin_difficulty w :
  difficulty (state (handleWin w)) = difficulty (state w).
Proof. win_field w. Qed.

(** What [handleWin] leaves in the records: the time of this win, or the
    earlier best time where that was not zero and not above it. *)
Lemma handleWin_record w :
  bestTimes (state (handleWin w))
  = <[difficulty (state w) := elapsedMs (state (handleWin w))]>
      (bestTimes (state w))
  ∨ (bestTimes (state (handleWin w)) = bestTimes (state w)
     ∧ ∃ best, bestTimes (state w) !! difficulty (state w) = Some best
               ∧ (best ≤ elapsedMs (state (handleWin w)))%Z).
Proof.
  unfold handleWin, stopTimer.
  destruct (runningSince (state w)) as [since|] eqn:Hrun; cbn;
    rewrite ?Hrun; cbn.
  - destruct (falsy_number _ || bool_decide _) eqn:Hc; cbn; [by left|].
    right. split; [done|].
    apply orb_false_iff in Hc as [Hf Hlt].
    destruct (bestTimes (state w) !! difficulty (state w)) as [best|];
      [|done].
    exists best. split; [done|]. cbn in Hlt.
    apply bool_decide_eq_false in Hlt. lia.
  - destruct (falsy_number _ || bool_decide _) eqn:Hc; cbn; [by left|].
    right. split; [done|].
    apply orb_false_iff in Hc as [Hf Hlt].
    destruct (bestTimes (state w) !! difficulty (state w)) as [best|];
      [|done].
    exists best. split; [done|]. cbn in Hlt.
    apply bool_decide_eq_false in Hlt. lia.
Qed.

Lemma handleWin_clock_ok w : clock_ok (handleWin w).
Proof.
  destruct (handleWin_fields w) as (Hv & Hrun & Hhandle & _).
  unfold clock_ok. rewrite Hrun, Hhandle, Hv, handleWin_difficulty.
  split_and!; [done|by left|].
  intros _. split; [done|].
  destruct (handleWin_record w) as [-> | [-> Hex]]; [|done].
  eexists. split; [apply lookup_insert_eq|]. lia.
Qed.

Lemma checkVictory_clock_ok w : clock_ok w → clock_ok (checkVictory w).
Proof.
  intros Hok. destruct (checkVictory_cases w) as [-> | [_ ->]]; [done|].
  apply handleWin_clock_ok.
Qed.

Lemma handleFlip_clock_ok index w :
  clock_ok w → clock_ok (handleFlip index w).
Proof.
  intros Hok.
  destruct (rejected index (state w)) eqn:Hrej.
  { by rewrite handleFlip_guards. }
  pose proof Hrej as (Hl & Hv & Hf & Hm)%rejected_false.
  pose proof (revealed_clock_ok index w Hv Hok) as Hrev.
  destruct (decide (length (flipped (state w) ++ [index]) = 2)) as [Hlen|Hlen].
  - destruct (flipped (state w)) as [|first [|? ?]] eqn:Hfl;
      [done| |rewrite length_app in Hlen; cbn in Hlen; lia].
    rewrite (handleFlip_completes index first) by done. cbn zeta.
    destruct (_ || _); [|case_bool_decide].
    + by apply (clock_ok_frame (revealed index w)).
    + apply checkVictory_clock_ok.
      by apply (clock_ok_frame (revealed index w)).
    + by apply (clock_ok_frame (revealed index w)).
  - by rewrite handleFlip_opens.
Qed.

Lemma react_clock_ok x w : clock_ok w → clock_ok (react x w).
Proof.
  intros Hok. destruct x as [index|level rnd|t|k|]; cbn [react].
  - by apply handleFlip_clock_ok.
  - unfold clock_ok. rewrite softReset_state, softReset_timerHandle. cbn.
    split_and!; [done|by right|done].
  - done.
  - destruct (timeouts w !! k) as [[due cb]|]; [|done].
    apply (clock_ok_frame w); [..|done];
      rewrite ?runCallback_timerHandle, ?runCallback_state; by destruct cb.
  - destruct (timerHandle w) as [due|] eqn:Hhandle; [|done].
    pose proof Hok as (Hiff & Hidle & Hwon).
    unfold tickTimer. cbn [state set_timerHandle].
    destruct (runningSince (state w)) as [since|] eqn:Hrun.
    + unfold clock_ok. cbn. rewrite Hrun.
      split_and!; [split; discriminate|discriminate|].
      intros Hv. by destruct (Hwon Hv).
    + destruct Hiff as [_ Hnone]. specialize (Hnone eq_refl). congruence.
Qed.

Lemma initialWorld_clock_ok rnd t0 : clock_ok (initialWorld rnd t0).
Proof.
  unfold clock_ok, initialWorld.
  rewrite rebuildBoard_state, rebuildBoard_timerHandle. cbn.
  split_and!; [done|by right|done].
Qed.

Lemma react_all_clock_ok rnd t0 xs :
  clock_ok (react_all xs (initialWorld rnd t0)).
Proof.
  apply react_all_invariant; [apply initialWorld_clock_ok|].
  apply react_clock_ok.
Qed.

(** X16. The stopwatch under everything that can happen to the page,
    whatever [Date.now()] reads and whenever the timers run: the ticking
    interval is armed exactly while the clock is anchored, and a page
    whose clock is not anchored is won or shows no elapsed time. *)
Theorem stopwatch_sound (rnd : list nat) (t0 : Z) (xs : list Stimulus) :
  let w := react_all xs (initialWorld rnd t0) in
  (timerHandle w = None ↔ runningSince (state w) = None)
  ∧ (runningSince (state w) = None →
     victory (state w) = true ∨ elapsedMs (state w) = 0%Z).
Proof.
  cbv zeta. destruct (react_all_clock_ok rnd t0 xs) as (Hiff & Hidle & _).
  done.
Qed.

(** X17. The records under everything that can happen to the page,
    whatever [Date.now()] reads: a won page has its clock stopped and its
    interval cleared, and holds a best time for its level that is at most
    the completion time it shows. *)
Theorem best_times_sound (rnd : list nat) (t0 : Z) (xs : list Stimulus) :
  victory (state (react_all xs (initialWorld rnd t0))) = true →
  runningSince (state (react_all xs (initialWorld rnd t0))) = None
  ∧ timerHandle (react_all xs (initialWorld rnd t0)) = None
  ∧ ∃ best,
      bestTimes (state (react_all xs (initialWorld rnd t0)))
        !! difficulty (state (react_all xs (initialWorld rnd t0)))
      = Some best
      ∧ (best ≤ elapsedMs (state (react_all xs (initialWorld rnd t0))))%Z.
Proof.
  intros Hv.
  destruct (react_all_clock_ok rnd t0 xs) as (Hiff & _ & Hwon).
  destruct (Hwon Hv) as [Hrun Hbest].
  split_and!; [done|by apply Hiff|done].
Qed.

Lemma best_times_sound_witness :
  victory (state (react_all win_with_clock_set_back (initialWorld [] 0)))
  = true
  ∧ runningSince
      (state (react_all win_with_clock_set_back (initialWorld [] 0))) = None
  ∧ timerHandle (react_all win_with_clock_set_back (initialWorld [] 0))
    = None
  ∧ ∃ best,
      bestTimes (state (react_all win_with_clock_set_back (initialWorld [] 0)))
        !! difficulty
             (state (react_all win_with_clock_set_back (initialWorld [] 0)))
      = Some best
      ∧ (best ≤ elapsedMs
                  (state (react_all win_with_clock_set_back
                            (initialWorld [] 0))))%Z.
Proof.
  assert (Hv : victory
                 (state (react_all win_with_clock_set_back
                           (initialWorld [] 0))) = true)
    by (vm_compute; reflexivity).
  split; [exact Hv|].
  exact (best_times_sound [] 0 win_with_clock_set_back Hv).
Defined.
